(** * amazon-ynab-sync: a shallow embedding of [mail.ts] and [ynab.ts]

    The development follows the two source files of the repository:

    - [scanEmail] (mail.ts) turns one mail message into an [Order] or
      [undefined];
    - the class [YNAB] (ynab.ts) keeps a cache of ledger transactions
      ([fetchTransactions]), pairs orders with cached transactions
      ([matchTransactions]) and writes the memo of the paired transactions
      ([updateTransactions]).

    JavaScript values are modelled as the code uses them: a [number] is an
    IEEE-754 binary64 float, a string is a sequence of code units, an object
    used as a dictionary is the list of its own properties in creation order,
    an exception is a value of an error monad, and the console is a list of
    lines.  Definitions come first, statements about them afterwards. *)

From Stdlib Require Import ZArith NArith List String Ascii Bool Arith Lia.
From Stdlib Require Import Floats Permutation DecimalString.
From Equations Require Import Equations.
Import ListNotations.

(** Decimal float literals stand for the nearest binary64, as they do in
    JavaScript. *)
Set Warnings "-inexact-float".

Local Open Scope string_scope.
Local Open Scope list_scope.

(* ===================================================================== *)
(** * Part I. Definitions                                                 *)
(* ===================================================================== *)

(** ** JavaScript numbers

    [number] is binary64.  [<], [<=], [===], unary and binary [-], [*] and
    [Math.abs] are the primitive float operations; in particular every
    comparison with [NaN] is [false] and [+0 === -0]. *)

Definition number : Set := float.

(** ** JavaScript strings

    A string is a [string] of Rocq, one character per UTF-16 code unit; the
    model covers the strings whose code units are below 256, where
    [length], [includes], [trim] and [toLowerCase] agree with
    JavaScript's. *)

Module JS.

Definition includes (s pattern : string) : bool :=
  (fix go (s : string) : bool :=
     String.prefix pattern s ||
     match s with
     | EmptyString => false
     | String _ s' => go s'
     end) s.

Definition startsWith (s pattern : string) : bool := String.prefix pattern s.

Definition endsWith (s pattern : string) : bool :=
  let n := String.length s in
  let m := String.length pattern in
  (m <=? n)%nat && String.eqb (String.substring (n - m) m s) pattern.

(** White space and line terminators below code unit 256: TAB, LF, VT,
    FF, CR, SPACE and NO-BREAK SPACE. *)
Definition isWhiteSpace (c : ascii) : bool :=
  let n := nat_of_ascii c in
  ((9 <=? n) && (n <=? 13) || (n =? 32) || (n =? 160))%nat.

Fixpoint trimStart (s : string) : string :=
  match s with
  | String c s' => if isWhiteSpace c then trimStart s' else s
  | EmptyString => EmptyString
  end.

(** [trimEnd] keeps a character when it is not white space or when
    something remains after it. *)
Fixpoint trimEnd (s : string) : string :=
  match s with
  | EmptyString => EmptyString
  | String c s' =>
      match trimEnd s' with
      | EmptyString => if isWhiteSpace c then EmptyString else String c EmptyString
      | r => String c r
      end
  end.

Definition trim (s : string) : string := trimEnd (trimStart s).

(** [toLowerCase] on code units below 256: A-Z, and the Latin-1 capitals
    U+00C0-U+00DE except the multiplication sign U+00D7. *)
Definition lowerChar (c : ascii) : ascii :=
  let n := nat_of_ascii c in
  if ((65 <=? n) && (n <=? 90) ||
      (192 <=? n) && (n <=? 222) && negb (n =? 215))%nat
  then ascii_of_nat (n + 32) else c.

Fixpoint toLowerCase (s : string) : string :=
  match s with
  | EmptyString => EmptyString
  | String c s' => String (lowerChar c) (toLowerCase s')
  end.

(** [s.split(" ")]: never empty; the empty string splits into [[""]]. *)
Fixpoint split_space (s : string) : list string :=
  match s with
  | EmptyString => [EmptyString]
  | String c s' =>
      if Ascii.eqb c " " then EmptyString :: split_space s'
      else match split_space s' with
           | w :: ws => String c w :: ws
           | [] => [String c EmptyString]
           end
  end.

(** [a.join(sep)] on an array of strings. *)
Definition join (sep : string) (a : list string) : string := String.concat sep a.

(** [s.slice(1)] and [s.slice(0, -1)] on strings. *)
Definition slice_from_1 (s : string) : string :=
  match s with
  | EmptyString => EmptyString
  | String _ s' => s'
  end.

Definition slice_0_minus1 (s : string) : string :=
  String.substring 0 (String.length s - 1) s.

Definition isDigit (c : ascii) : bool :=
  let n := nat_of_ascii c in ((48 <=? n) && (n <=? 57))%nat.

Definition digitValue (c : ascii) : N := N.of_nat (nat_of_ascii c - 48).

(** The value of a string of decimal digits, [None] when a character is
    not a digit. *)
Fixpoint digitsValue (acc : N) (s : string) : option N :=
  match s with
  | EmptyString => Some acc
  | String c s' =>
      if isDigit c then digitsValue (10 * acc + digitValue c)%N s' else None
  end.

(** *** Objects used as dictionaries

    The own properties of an ordinary object, in creation order, with
    pairwise distinct keys.  Keys are transaction ids; the model covers
    keys that do not name a property of [Object.prototype], for which
    [k in o] is the own-property test. *)
Definition object (V : Type) : Type := list (string * V).

Definition get {V} (o : object V) (k : string) : option V :=
  option_map snd (find (fun p => String.eqb (fst p) k) o).

(** [k in o] *)
Definition has {V} (k : string) (o : object V) : bool :=
  existsb (fun p => String.eqb (fst p) k) o.

(** [o[k] = v]: an existing property keeps its place, a new one goes
    last. *)
Fixpoint set {V} (o : object V) (k : string) (v : V) : object V :=
  match o with
  | [] => [(k, v)]
  | (k', v') :: o' =>
      if String.eqb k' k then (k', v) :: o' else (k', v') :: set o' k v
  end.

(** [delete o[k]] *)
Definition delete {V} (o : object V) (k : string) : object V :=
  filter (fun p => negb (String.eqb (fst p) k)) o.

(** A key is an array index when it is the canonical decimal form of an
    integer in 0 .. 2^32 - 2. *)
Definition arrayIndex (k : string) : option N :=
  match k with
  | EmptyString => None
  | String c rest =>
      if Ascii.eqb c "0" && negb (String.eqb rest EmptyString) then None
      else match digitsValue 0 k with
           | Some n => if (n <=? 4294967294)%N then Some n else None
           | None => None
           end
  end.

Definition isArrayIndex (k : string) : bool :=
  match arrayIndex k with Some _ => true | None => false end.

Definition indexOf (k : string) : N :=
  match arrayIndex k with Some n => n | None => 0%N end.

Fixpoint insertByIndex {V} (p : string * V) (l : list (string * V)) : list (string * V) :=
  match l with
  | [] => [p]
  | q :: l' =>
      if (indexOf (fst p) <=? indexOf (fst q))%N then p :: l
      else q :: insertByIndex p l'
  end.

Definition sortByIndex {V} (l : list (string * V)) : list (string * V) :=
  fold_right insertByIndex [] l.

(** [Object.entries(o)]: the array-index keys in ascending numeric order,
    then the other keys in creation order. *)
Definition entries {V} (o : object V) : list (string * V) :=
  sortByIndex (filter (fun p => isArrayIndex (fst p)) o)
  ++ filter (fun p => negb (isArrayIndex (fst p))) o.

(** [Object.keys(o).length] *)
Definition keysLength {V} (o : object V) : nat := List.length (entries o).

Definition wf {V} (o : object V) : Prop := NoDup (map fst o).

End JS.

(** ** Exceptions

    What a [throw] carries, as far as this program can tell them apart. *)
Inductive exn : Type :=
| Error (message : string)
| TypeError (message : string)
| RangeError (message : string)
| Rejected (reason : string).

(** The completion of a call: a value or a thrown exception (for an
    [async] method, a promise that resolves or rejects). *)
Inductive completion (A : Type) : Type :=
| Return (a : A)
| Throw (e : exn).
Arguments Return {A} a.
Arguments Throw {A} e.

(* --------------------------------------------------------------------- *)
(** ** ynab.ts: data                                                      *)
(* --------------------------------------------------------------------- *)

(** [interface Order].  [date] is the time value of the [Date] object
    (milliseconds since the epoch, [NaN] for an invalid date). *)
Module Order.
Record t : Type := mk { date : number; amount : number; items : list string }.
End Order.

(** The fields of [ynab.TransactionDetail] the program reads.  [memo] and
    [payee_name] may be [null] or absent ([None]); [date] is the string the
    ledger sends. *)
Module TransactionDetail.
Record t : Type := mk {
  id : string;
  date : string;
  amount : number;
  memo : option string;
  payee_name : option string;
  deleted : bool
}.

(** [transaction.memo = memo] *)
Definition set_memo (x : t) (m : string) : t :=
  mk (id x) (date x) (amount x) (Some m) (payee_name x) (deleted x).

(** Two transactions that differ at most in their memo. *)
Definition sameButMemo (x y : t) : Prop :=
  id x = id y /\ date x = date y /\ amount x = amount y /\
  payee_name x = payee_name y /\ deleted x = deleted y.
End TransactionDetail.

(** Two caches with the same keys in the same order whose transactions
    differ at most in their memo. *)
Definition sameButMemos (old new : JS.object TransactionDetail.t) : Prop :=
  Forall2 (fun p q => fst q = fst p /\ TransactionDetail.sameButMemo (snd p) (snd q))
    old new.

(** [interface Match] *)
Module Match.
Record t : Type := mk {
  dateDifference : number;
  priceDifference : number;
  orderIndex : nat;
  transactionId : string
}.
End Match.

(** [interface FinalMatch].  [order] is [orders[match.orderIndex]], which
    JavaScript evaluates to [undefined] ([None]) out of range. *)
Module FinalMatch.
Record t : Type := mk { transactionId : string; order : option Order.t }.
End FinalMatch.

(** One element of the request sent to the ledger by
    [updateTransactions]. *)
Module SaveTransaction.
Record t : Type := mk { id : string; memo : string; approved : bool }.
End SaveTransaction.

(** The data of the reply of [ynabAPI.transactions.getTransactions]. *)
Module TransactionsResponse.
Record t : Type := mk {
  transactions : list TransactionDetail.t;
  server_knowledge : number
}.
End TransactionsResponse.

(** The fields of an instance of [class YNAB].  [budget] holds the id of
    the budget found by [init], [None] before. *)
Module YNAB.
Record t : Type := mk {
  budget : option string;
  transactionsServerKnowledge : option number;
  transactions : JS.object TransactionDetail.t
}.

(** [new YNAB()] *)
Definition new : t := mk None None [].

Definition with_transactions (this : t) (c : JS.object TransactionDetail.t) : t :=
  mk (budget this) (transactionsServerKnowledge this) c.
End YNAB.

(** A method of the class: it runs on the instance, completes, and leaves
    the instance in a new state. *)
Definition method (A : Type) : Type := YNAB.t -> completion A * YNAB.t.

(** [init], from the point where the list of budgets has arrived:
    [found] is the budget whose id is the configured one, if any. *)
Definition init (found : option string) : method unit :=
  fun this =>
    match found with
    | Some budget =>
        (Return tt,
         YNAB.mk (Some budget) (YNAB.transactionsServerKnowledge this)
           (YNAB.transactions this))
    | None =>
        (Throw (Error "Invalid budget ID provided. You can find the budget ID in the URL of your budget page."),
         this)
    end.

(* --------------------------------------------------------------------- *)
(** ** ynab.ts: [fetchTransactions]                                       *)
(* --------------------------------------------------------------------- *)

(** The predicate of [.filter(...)]:
    [t.payee_name?.toLowerCase().includes("amazon") &&
     (typeof t.memo !== "string" || t.memo.length == 0)]. *)
Definition fetchFilter (t : TransactionDetail.t) : bool :=
  match TransactionDetail.payee_name t with
  | Some p => JS.includes (JS.toLowerCase p) "amazon"
  | None => false
  end
  &&
  match TransactionDetail.memo t with
  | Some m => (String.length m =? 0)%nat
  | None => true
  end.

(** The payee test of the filter of [fetchTransactions]. *)
Definition payeeIsAmazon (t : TransactionDetail.t) : Prop :=
  exists payee, TransactionDetail.payee_name t = Some payee /\
                JS.includes (JS.toLowerCase payee) "amazon" = true.

(** The body of [.forEach((t) => ...)] on the cache. *)
Definition cacheTransaction
    (cache : JS.object TransactionDetail.t) (t : TransactionDetail.t)
  : JS.object TransactionDetail.t :=
  if TransactionDetail.deleted t && JS.has (TransactionDetail.id t) cache
  then JS.delete cache (TransactionDetail.id t)
  else JS.set cache (TransactionDetail.id t) t.

(** [fetchTransactions], from the point where the request to the ledger
    settles with [reply].  Reading [this.budget!.id] throws when [init] has
    not run; a rejected request rejects the method before the instance is
    touched.  (Console output is left out of the model of this class.) *)
Definition fetchTransactions (reply : completion TransactionsResponse.t) : method unit :=
  fun this =>
    match YNAB.budget this with
    | None => (Throw (TypeError "Cannot read properties of null (reading 'id')"), this)
    | Some _ =>
        match reply with
        | Throw e => (Throw e, this)
        | Return data =>
            (Return tt,
             YNAB.mk (YNAB.budget this)
               (Some (TransactionsResponse.server_knowledge data))
               (fold_left cacheTransaction
                  (filter fetchFilter (TransactionsResponse.transactions data))
                  (YNAB.transactions this)))
        end
    end.

(* --------------------------------------------------------------------- *)
(** ** ynab.ts: [matchTransactions]                                       *)
(* --------------------------------------------------------------------- *)

Section Reconciler.

(** Configuration read from the environment when the module loads:
    [0.5] and [4] by default. *)
Variable YNAB_ACCEPTABLE_DOLLAR_DIFFERENCE : number.
Variable YNAB_ACCEPTABLE_DATE_DIFFERENCE : number.

(** [new Date(s).getTime()], the host's date parser ([NaN] when the
    string is no date). *)
Variable Date_parse : string -> number.

(** [transaction.memo && transaction.memo.length > 0] *)
Definition hasMemo (transaction : TransactionDetail.t) : bool :=
  match TransactionDetail.memo transaction with
  | Some m => (0 <? String.length m)%nat
  | None => false
  end.

Definition dateDifferenceOf (order : Order.t) (transaction : TransactionDetail.t) : number :=
  abs (Order.date order - Date_parse (TransactionDetail.date transaction))%float.

Definition priceDifferenceOf (order : Order.t) (transaction : TransactionDetail.t) : number :=
  abs (abs (Order.amount order) - abs (TransactionDetail.amount transaction))%float.

Definition withinTolerance (dateDifference priceDifference : number) : bool :=
  (dateDifference <=? YNAB_ACCEPTABLE_DATE_DIFFERENCE * 86400 * 1000)%float &&
  (priceDifference <=? YNAB_ACCEPTABLE_DOLLAR_DIFFERENCE * 1000)%float.

Definition isPerfect (dateDifference priceDifference : number) : bool :=
  (dateDifference =? 0)%float && (priceDifference =? 0)%float.

(** The inner loop for one order: the candidates it pushes, in order.
    A transaction with a memo is skipped; after a perfect match the
    [continue orderLoop] leaves the rest of the entries unread. *)
Fixpoint scanTransactions (orderIndex : nat) (order : Order.t)
    (entries : list (string * TransactionDetail.t)) : list Match.t :=
  match entries with
  | [] => []
  | (transactionId, transaction) :: rest =>
      if hasMemo transaction then scanTransactions orderIndex order rest
      else
        let dateDifference := dateDifferenceOf order transaction in
        let priceDifference := priceDifferenceOf order transaction in
        let pushed :=
          if withinTolerance dateDifference priceDifference
          then [Match.mk dateDifference priceDifference orderIndex transactionId]
          else [] in
        if isPerfect dateDifference priceDifference then pushed
        else pushed ++ scanTransactions orderIndex order rest
  end.

(** The outer loop [for (const [orderIndex, order] of orders.entries())],
    from index [orderIndex] on. *)
Fixpoint orderLoop (orderIndex : nat) (orders : list Order.t)
    (cache : JS.object TransactionDetail.t) : list Match.t :=
  match orders with
  | [] => []
  | order :: rest =>
      scanTransactions orderIndex order (JS.entries cache)
      ++ orderLoop (S orderIndex) rest cache
  end.

(** The comparator handed to [sort], all six tests as written. *)
Definition compareMatches (a b : Match.t) : Z :=
  if (Match.dateDifference a <? Match.dateDifference b)%float then (-1)%Z
  else if (Match.dateDifference b <? Match.dateDifference a)%float then 1%Z
  else if (Match.priceDifference a <? Match.priceDifference b)%float then (-1)%Z
  else if (Match.priceDifference b <? Match.priceDifference a)%float then 1%Z
  else if (Match.priceDifference b <? Match.priceDifference a)%float then (-1)%Z
  else if (Match.priceDifference a <? Match.priceDifference b)%float then 1%Z
  else 0%Z.

(** The comparator the specification describes: ascending by
    [dateDifference], then ascending by [priceDifference], [0] on a full
    tie. *)
Definition compareAscending (a b : Match.t) : Z :=
  if (Match.dateDifference a <? Match.dateDifference b)%float then (-1)%Z
  else if (Match.dateDifference b <? Match.dateDifference a)%float then 1%Z
  else if (Match.priceDifference a <? Match.priceDifference b)%float then (-1)%Z
  else if (Match.priceDifference b <? Match.priceDifference a)%float then 1%Z
  else 0%Z.

(** [Array.prototype.sort] is stable: with a comparator that is a
    consistent ordering its result is the one stable arrangement, which
    insertion from the right computes. *)
Fixpoint sortInsert {A} (cmp : A -> A -> Z) (x : A) (l : list A) : list A :=
  match l with
  | [] => [x]
  | y :: l' => if (cmp x y <=? 0)%Z then x :: l else y :: sortInsert cmp x l'
  end.

Definition sort {A} (cmp : A -> A -> Z) (l : list A) : list A :=
  fold_right (sortInsert cmp) [] l.

(** The predicate of the [filter] inside the [while] loop. *)
Definition compatible (m potentialMatch : Match.t) : bool :=
  negb (String.eqb (Match.transactionId potentialMatch) (Match.transactionId m)) &&
  negb (Nat.eqb (Match.orderIndex potentialMatch) (Match.orderIndex m)).

(** The [while] loop: the elements pushed on [finalMatches], in order. *)
Equations? shiftLoop (orders : list Order.t) (nearOrPerfectMatches : list Match.t)
  : list FinalMatch.t by wf (List.length nearOrPerfectMatches) lt :=
  shiftLoop orders [] := [];
  shiftLoop orders (m :: rest) :=
    FinalMatch.mk (Match.transactionId m) (nth_error orders (Match.orderIndex m))
    :: shiftLoop orders (filter (compatible m) rest).
Proof.
  simpl. apply Nat.lt_succ_r, filter_length_le.
Qed.

(** The values taken by [match] in the successive rounds of the [while]
    loop (the loop itself keeps only [transactionId] and the order). *)
Equations? accepted (nearOrPerfectMatches : list Match.t)
  : list Match.t by wf (List.length nearOrPerfectMatches) lt :=
  accepted [] := [];
  accepted (m :: rest) := m :: accepted (filter (compatible m) rest).
Proof.
  simpl. apply Nat.lt_succ_r, filter_length_le.
Qed.

Definition matchTransactions (orders : list Order.t) : method (list FinalMatch.t) :=
  fun this =>
    if (List.length orders =? 0)%nat then (Return [], this)
    else
      let nearOrPerfectMatches := orderLoop 0 orders (YNAB.transactions this) in
      (Return (shiftLoop orders (sort compareMatches nearOrPerfectMatches)), this).

(** What the loop pushes for the candidate [m]. *)
Definition finalOf (orders : list Order.t) (m : Match.t) : FinalMatch.t :=
  FinalMatch.mk (Match.transactionId m) (nth_error orders (Match.orderIndex m)).

(** The candidates taken by the successive rounds of the [while] loop of
    [matchTransactions orders] on the instance [this]. *)
Definition acceptedMatches (orders : list Order.t) (this : YNAB.t) : list Match.t :=
  accepted (sort compareMatches (orderLoop 0 orders (YNAB.transactions this))).

(* ------------------------------------------------------------------- *)
(** ** ynab.ts: [updateTransactions] and [matchAndUpdate]                *)
(* ------------------------------------------------------------------- *)

(** The callback of [matches.map((m) => ...)]: it reads the cached
    transaction, assigns its [memo], and returns the element of the
    request.  Reading [items] of an [undefined] order, or assigning
    [memo] on an [undefined] transaction, throws. *)
Definition memoTransaction (m : FinalMatch.t) : method SaveTransaction.t :=
  fun this =>
    let id := FinalMatch.transactionId m in
    match FinalMatch.order m with
    | None =>
        (Throw (TypeError "Cannot read properties of undefined (reading 'items')"), this)
    | Some order =>
        let memo := JS.join ", " (Order.items order) in
        match JS.get (YNAB.transactions this) id with
        | None =>
            (Throw (TypeError "Cannot set properties of undefined (setting 'memo')"), this)
        | Some transaction =>
            (Return (SaveTransaction.mk id memo false),
             YNAB.with_transactions this
               (JS.set (YNAB.transactions this) id
                  (TransactionDetail.set_memo transaction memo)))
        end
    end.

(** [matches.map(callback)]: left to right, stopping at the first
    exception; what was assigned before stays assigned. *)
Fixpoint mapMatches (matches : list FinalMatch.t) : method (list SaveTransaction.t) :=
  fun this =>
    match matches with
    | [] => (Return [], this)
    | m :: rest =>
        match memoTransaction m this with
        | (Throw e, this') => (Throw e, this')
        | (Return u, this') =>
            match mapMatches rest this' with
            | (Throw e, this'') => (Throw e, this'')
            | (Return us, this'') => (Return (u :: us), this'')
            end
        end
    end.

(** [updateTransactions]: the arguments of the request are evaluated
    first ([this.budget!.id], then the [map]); [send] is the ledger's
    answer to the request. *)
Definition updateTransactions
    (send : list SaveTransaction.t -> completion unit)
    (matches : list FinalMatch.t) : method unit :=
  fun this =>
    if (List.length matches =? 0)%nat then (Return tt, this)
    else
      match YNAB.budget this with
      | None => (Throw (TypeError "Cannot read properties of null (reading 'id')"), this)
      | Some _ =>
          match mapMatches matches this with
          | (Throw e, this') => (Throw e, this')
          | (Return request, this') => (send request, this')
          end
      end.

Definition matchAndUpdate
    (send : list SaveTransaction.t -> completion unit)
    (orders : list Order.t) : method unit :=
  fun this =>
    match matchTransactions orders this with
    | (Throw e, this') => (Throw e, this')
    | (Return matches, this') =>
        if (0 <? List.length matches)%nat
        then updateTransactions send matches this'
        else (Return tt, this')
    end.

(** The frame of [matches.map(callback)]: the budget and the sync cursor
    stay, the cache keeps its keys and all fields but memos, transactions
    named by no match stay as they are, and a transaction that is not as
    before carries the memo of a match that names it. *)
Definition updateFrame (matches : list FinalMatch.t) (this this' : YNAB.t) : Prop :=
  YNAB.budget this' = YNAB.budget this /\
  YNAB.transactionsServerKnowledge this' = YNAB.transactionsServerKnowledge this /\
  sameButMemos (YNAB.transactions this) (YNAB.transactions this') /\
  (forall k t, In (k, t) (YNAB.transactions this) ->
               ~ In k (map FinalMatch.transactionId matches) ->
               In (k, t) (YNAB.transactions this')) /\
  (forall k t', In (k, t') (YNAB.transactions this') ->
                In (k, t') (YNAB.transactions this) \/
                exists m order,
                  In m matches /\ FinalMatch.transactionId m = k /\
                  FinalMatch.order m = Some order /\
                  TransactionDetail.memo t' = Some (JS.join ", " (Order.items order))).

(** One call of a method on the instance, whatever its arguments and
    whatever the ledger answers. *)
Inductive step : YNAB.t -> YNAB.t -> Prop :=
| step_init found this :
    step this (snd (init found this))
| step_fetchTransactions reply this :
    step this (snd (fetchTransactions reply this))
| step_matchTransactions orders this :
    step this (snd (matchTransactions orders this))
| step_updateTransactions send matches this :
    step this (snd (updateTransactions send matches this))
| step_matchAndUpdate send orders this :
    step this (snd (matchAndUpdate send orders this)).

(** The states of an instance from [new YNAB()] on. *)
Inductive reachable : YNAB.t -> Prop :=
| reachable_new : reachable YNAB.new
| reachable_step this this' : reachable this -> step this this' -> reachable this'.

End Reconciler.

(* --------------------------------------------------------------------- *)
(** ** mail.ts: what [scanEmail] uses of the language and of cheerio      *)
(* --------------------------------------------------------------------- *)

Definition dquote : ascii := ascii_of_nat 34.

(** [body.replace(/"x_/g, '"')]: every double quote followed by [x_] loses
    the two characters after it.  [skip] counts the characters still to
    drop. *)
Fixpoint replaceQuoteX (skip : nat) (s : string) : string :=
  match s with
  | EmptyString => EmptyString
  | String c s' =>
      match skip with
      | S k => replaceQuoteX k s'
      | O =>
          if Ascii.eqb c dquote && String.prefix "x_" s'
          then String c (replaceQuoteX 2 s')
          else String c (replaceQuoteX 0 s')
      end
  end.

(** The longest prefix of decimal digits, and what follows it. *)
Fixpoint takeDigits (s : string) : string * string :=
  match s with
  | String c s' =>
      if JS.isDigit c
      then let '(ds, rest) := takeDigits s' in (String c ds, rest)
      else (EmptyString, s)
  | EmptyString => (EmptyString, EmptyString)
  end.

(** [/\$(\d+\.\d{2})/] tried right after a dollar sign: the digits are
    taken greedily (giving some back cannot help, the next character would
    be a digit and not the dot). *)
Definition dollarAmountAt (s : string) : option string :=
  let '(ds, rest) := takeDigits s in
  match ds, rest with
  | String _ _, String dot (String d1 (String d2 _)) =>
      if Ascii.eqb dot "." && JS.isDigit d1 && JS.isDigit d2
      then Some (ds ++ String dot (String d1 (String d2 EmptyString)))%string
      else None
  | _, _ => None
  end.

(** [text.match(/\$(\d+\.\d{2})/)]: the first capture of the leftmost
    match, [None] for [null]. *)
Fixpoint matchDollarAmount (text : string) : option string :=
  match text with
  | EmptyString => None
  | String c s' =>
      if Ascii.eqb c "$"
      then match dollarAmountAt s' with
           | Some m => Some m
           | None => matchDollarAmount s'
           end
      else matchDollarAmount s'
  end.

(** The binary64 nearest to [mantissa * 10 ^ exponent10] (ties to even),
    through the correctly rounded division of the reference
    implementation of IEEE-754 on exact integer operands. *)
Definition roundDecimal (negative : bool) (mantissa : N) (exponent10 : Z) : number :=
  match mantissa with
  | N0 => if negative then neg_zero else zero
  | Npos m =>
      SF2Prim
        (match exponent10 with
         | Zneg e => SFdiv prec emax (S754_finite negative m 0)
                       (S754_finite false (10 ^ e)%positive 0)
         | Z0 => SFdiv prec emax (S754_finite negative m 0) (S754_finite false 1 0)
         | Zpos e => SFdiv prec emax (S754_finite negative (m * 10 ^ e)%positive 0)
                       (S754_finite false 1 0)
         end)
  end.

(** The exponent part [e], [e+] or [e-] followed by digits, when there is
    a complete one. *)
Definition exponentPart (s : string) : Z :=
  match s with
  | String c r =>
      if Ascii.eqb c "e" || Ascii.eqb c "E" then
        let '(negative, r') :=
          match r with
          | String sign r' =>
              if Ascii.eqb sign "-" then (true, r')
              else if Ascii.eqb sign "+" then (false, r')
              else (false, r)
          | EmptyString => (false, r)
          end in
        match fst (takeDigits r') with
        | EmptyString => 0%Z
        | ds =>
            match JS.digitsValue 0 ds with
            | Some n => if negative then (- Z.of_N n)%Z else Z.of_N n
            | None => 0%Z
            end
        end
      else 0%Z
  | EmptyString => 0%Z
  end.

(** [parseFloat(input)]: leading white space is dropped, then the longest
    prefix that is a decimal literal is read ([Infinity], digits with an
    optional fraction and exponent, or a fraction alone); [NaN] when there
    is none. *)
Definition parseFloat (input : string) : number :=
  let s := JS.trimStart input in
  let '(negative, s) :=
    match s with
    | String c r =>
        if Ascii.eqb c "-" then (true, r)
        else if Ascii.eqb c "+" then (false, r)
        else (false, s)
    | EmptyString => (false, s)
    end in
  if String.prefix "Infinity" s then (if negative then neg_infinity else infinity)
  else
    let '(intPart, s1) := takeDigits s in
    let '(fracPart, s2) :=
      match s1 with
      | String c r => if Ascii.eqb c "." then takeDigits r else (EmptyString, s1)
      | EmptyString => (EmptyString, s1)
      end in
    match (intPart ++ fracPart)%string with
    | EmptyString => nan
    | ds =>
        match JS.digitsValue 0 ds with
        | Some n =>
            roundDecimal negative n (exponentPart s2 - Z.of_nat (String.length fracPart))
        | None => nan
        end
    end.

(** The tree cheerio builds from the markup: elements (with their
    attributes in source order, names in lower case), text and
    comments. *)
#[local] Set Warnings "-register-all".
Inductive node : Type :=
| Text (data : string)
| Comment (data : string)
| Element (name : string) (attribs : list (string * string)) (children : list node).

Module Cheerio.

(** [.text()] of one node: the text of its descendants, concatenated. *)
Fixpoint textContent (n : node) : string :=
  match n with
  | Text data => data
  | Comment _ => EmptyString
  | Element _ _ children => String.concat EmptyString (map textContent children)
  end.

(** [.text()] of a selection. *)
Definition text (selection : list node) : string :=
  String.concat EmptyString (map textContent selection).

(** [.attr(name)] *)
Definition attr (n : node) (name : string) : option string :=
  match n with
  | Element _ attribs _ =>
      option_map snd (find (fun a => String.eqb (fst a) name) attribs)
  | _ => None
  end.

Definition isNamed (tag : string) (n : node) : bool :=
  match n with
  | Element name _ _ => String.eqb name tag
  | _ => false
  end.

(** [[id$="suffix"]] *)
Definition idEndsWith (suffix : string) (n : node) : bool :=
  match attr n "id" with
  | Some v => JS.endsWith v suffix
  | None => false
  end.

(** An element and the elements below it, in document order. *)
Fixpoint elements (n : node) : list node :=
  match n with
  | Element _ _ children => n :: flat_map elements children
  | _ => []
  end.

(** The elements strictly below a node. *)
Definition descendants (n : node) : list node :=
  match n with
  | Element _ _ children => flat_map elements children
  | _ => []
  end.

(** The elements that have an ancestor satisfying [ancestor], in
    document order; [inside] tells whether such an ancestor was met. *)
Fixpoint below (ancestor : node -> bool) (inside : bool) (n : node) : list node :=
  match n with
  | Element _ _ children =>
      (if inside then [n] else [])
      ++ flat_map (below ancestor (inside || ancestor n)) children
  | _ => []
  end.

(** [$("tag")] *)
Definition select (doc : list node) (tag : string) : list node :=
  filter (isNamed tag) (flat_map elements doc).

(** [$('table[id$="suffix"] tag')] *)
Definition selectInTable (doc : list node) (suffix tag : string) : list node :=
  filter (isNamed tag)
    (flat_map (below (fun n => isNamed "table" n && idEndsWith suffix n) false) doc).

(** [$(n).find("tag")] *)
Definition find (n : node) (tag : string) : list node :=
  filter (isNamed tag) (descendants n).

End Cheerio.

(** [interface Email]; of [attributes] the program reads [date], kept as
    the time value of the [Date] object. *)
Module Email.
Record t : Type := mk {
  from : string;
  subject : string;
  body : string;
  attributes_date : number
}.
End Email.

(** The console: the lines written so far, oldest first. *)
Inductive line : Type :=
| console_log (message : string)
| console_info (message : string)
| console_error (message : string)
| console_error_exn (e : exn).

(** A computation that writes on the console and completes normally or
    by an exception. *)
Definition Eff (A : Type) : Type := list line -> completion A * list line.

Definition ret {A} (a : A) : Eff A := fun console => (Return a, console).

Definition throw {A} (e : exn) : Eff A := fun console => (Throw e, console).

Definition bind {A B} (m : Eff A) (k : A -> Eff B) : Eff B :=
  fun console =>
    match m console with
    | (Return a, console') => k a console'
    | (Throw e, console') => (Throw e, console')
    end.

Definition try_catch {A} (body : Eff A) (handler : exn -> Eff A) : Eff A :=
  fun console =>
    match body console with
    | (Return a, console') => (Return a, console')
    | (Throw e, console') => handler e console'
    end.

Definition write (l : line) : Eff unit := fun console => (Return tt, console ++ [l]).

Notation "x <- m ;; k" := (bind m (fun x => k))
  (at level 61, m at next level, right associativity).
Notation "m ;;; k" := (bind m (fun _ => k))
  (at level 61, right associativity).

(* --------------------------------------------------------------------- *)
(** ** mail.ts: [isAmazonEmail] and [scanEmail]                           *)
(* --------------------------------------------------------------------- *)

Definition isAmazonEmail (email : Email.t) : bool :=
  JS.includes (Email.from email) "auto-confirm@amazon.com".

(** The value of [amount] after the first [each] loop: the first table, in
    document order, whose text includes [Total] and holds a dollar amount
    sets it and ends the loop; it stays [0] when there is none. *)
Fixpoint totalFromTables (tables : list node) : number :=
  match tables with
  | [] => zero
  | table :: rest =>
      let text := Cheerio.textContent table in
      if JS.includes text "Total" then
        match matchDollarAmount text with
        | Some m => parseFloat m
        | None => totalFromTables rest
        end
      else totalFromTables rest
  end.

(** The fallback for the amount, run when [amount === 0]. *)
Definition totalFromCostBreakdown (doc : list node) (amount : number) : number :=
  let costText := JS.trim (Cheerio.text (Cheerio.selectInTable doc "costBreakdownRight" "td")) in
  if (0 <? String.length costText)%nat && JS.startsWith costText "$"
  then parseFloat (JS.slice_from_1 costText)
  else amount.

(** The clean-up of a title that ends in an ellipsis. *)
Definition cleanTitle (title : string) : string :=
  if JS.endsWith title "..." then
    let title := JS.join " " (removelast (JS.split_space title)) in
    let title := if JS.endsWith title "," then JS.slice_0_minus1 title else title in
    (title ++ "..")%string
  else title.

Definition excludePatterns : list string :=
  ["View or edit order"; "Your Orders"; "Your Account"; "Buy Again"; "Track package"].

(** The body of the [each] over the links: what one link pushes on
    [items]. *)
Definition itemOfLink (link : node) : list string :=
  let href := match Cheerio.attr link "href" with
              | Some h => h
              | None => EmptyString
              end in
  let text := JS.trim (Cheerio.textContent link) in
  if (JS.includes href "/dp/" || JS.includes href "asin")
     && (0 <? String.length text)%nat && (String.length text <? 200)%nat
  then
    if negb (existsb (fun pattern => JS.includes text pattern) excludePatterns)
    then [cleanTitle text]
    else []
  else [].

(** The body of the loop over the rows of the item table. *)
Definition itemOfRow (itemRow : node) : list string :=
  let title := cleanTitle (JS.trim (Cheerio.text (Cheerio.find itemRow "font"))) in
  if (String.length title =? 0)%nat then [] else [title].

Section Extractor.

(** [cheerio.load], the parser of the markup. *)
Variable cheerio_load : string -> list node.

(** [d.setHours(0, 0, 0, 0)] on a date of the given time value: the time
    value of midnight of that day in the time zone of the host. *)
Variable setHours0 : number -> number.

(** [amt.toLocaleString("en-US", {style: "currency", currency: "USD"})]
    and the text [Intl.DateTimeFormat] gives for a valid date. *)
Variable toLocaleString_USD : number -> string.
Variable Intl_format : number -> string.

Definition dollarFormat (amt : number) : string := toLocaleString_USD amt.

(** [Intl.DateTimeFormat.prototype.format] throws on an invalid date. *)
Definition dateFormat (date : number) : Eff string :=
  if is_nan date then throw (RangeError "Invalid time value")
  else ret (Intl_format date).

Definition lengthText (n : nat) : string := NilEmpty.string_of_uint (Nat.to_uint n).

(** The [try] block of [scanEmail] on the loaded document. *)
Definition scanDocument (doc : list node) (attributes_date : number)
  : Eff (option Order.t) :=
  let amount := totalFromTables (Cheerio.select doc "table") in
  let amount :=
    if (amount =? 0)%float then totalFromCostBreakdown doc amount else amount in
  if (amount =? 0)%float then ret None
  else
    let items := flat_map itemOfLink (Cheerio.select doc "a") in
    let items :=
      if (List.length items =? 0)%nat
      then flat_map itemOfRow (Cheerio.selectInTable doc "itemDetails" "tr")
      else items in
    if (List.length items =? 0)%nat then ret None
    else
      let date := setHours0 attributes_date in
      formatted <- dateFormat date ;;
      write (console_info
               ("Found " ++ dollarFormat amount ++ " order on " ++ formatted
                ++ " of " ++ lengthText (List.length items) ++ " item(s): "
                ++ JS.join ", " items)%string) ;;;
      ret (Some (Order.mk date (- (amount * 1000))%float items)).

Definition scanEmail (email : Email.t) : Eff (option Order.t) :=
  if negb (isAmazonEmail email) then
    write (console_log "Ignoring... not an Amazon order email (subject or body mismatch)") ;;;
    ret None
  else
    let doc := cheerio_load (replaceQuoteX 0 (Email.body email)) in
    try_catch
      (scanDocument doc (Email.attributes_date email))
      (fun e =>
         write (console_error_exn e) ;;;
         write (console_error
                  ("This failed on email with subject: " ++ Email.subject email)%string) ;;;
         ret None).

End Extractor.

(* --------------------------------------------------------------------- *)
(** ** A host and sample values for the examples                          *)
(* --------------------------------------------------------------------- *)

Module Sample.

(** The integer a [number] holds, [None] when it holds none (a
    fraction, an infinity or [NaN]). *)
Definition integerOf (x : number) : option Z :=
  match Prim2SF x with
  | S754_zero _ => Some 0%Z
  | S754_finite s m e =>
      match e with
      | Zneg p =>
          if (Zpos m mod 2 ^ Zpos p =? 0)%Z
          then Some (if s then (- (Zpos m / 2 ^ Zpos p))%Z else (Zpos m / 2 ^ Zpos p)%Z)
          else None
      | _ => Some (if s then (- (Zpos m * 2 ^ e))%Z else (Zpos m * 2 ^ e)%Z)
      end
  | _ => None
  end.

Definition numberOf (z : Z) : number := SF2Prim (binary_normalize prec emax z 0 false).

Definition msPerDay : Z := 86400000.

(** [setHours(0, 0, 0, 0)] on a host whose time zone is UTC. *)
Definition setHours0 (t : number) : number :=
  match integerOf t with
  | Some z => numberOf (msPerDay * (z / msPerDay))
  | None => nan
  end.

(** Days from 1970-01-01 to a date of the proleptic Gregorian
    calendar. *)
Definition daysFromCivil (y m d : Z) : Z :=
  let y' := (if m <=? 2 then y - 1 else y)%Z in
  let era := (y' / 400)%Z in
  let yoe := (y' - era * 400)%Z in
  let doy := ((153 * (if m >? 2 then m - 3 else m + 9) + 2) / 5 + d - 1)%Z in
  let doe := (yoe * 365 + yoe / 4 - yoe / 100 + doy)%Z in
  (era * 146097 + doe - 719468)%Z.

Definition digits (s : string) : option Z := option_map Z.of_N (JS.digitsValue 0 s).

(** [new Date(s).getTime()] for the date-only form [YYYY-MM-DD], which
    is read as midnight UTC; [NaN] for anything else. *)
Definition Date_parse (s : string) : number :=
  if (String.length s =? 10)%nat
     && String.eqb (String.substring 4 1 s) "-"
     && String.eqb (String.substring 7 1 s) "-"
  then
    match digits (String.substring 0 4 s),
          digits (String.substring 5 2 s),
          digits (String.substring 8 2 s) with
    | Some y, Some m, Some d =>
        if ((1 <=? m) && (m <=? 12) && (1 <=? d) && (d <=? 31))%Z
        then numberOf (msPerDay * daysFromCivil y m d)
        else nan
    | _, _, _ => nan
    end
  else nan.

(** Stand-ins for the two formatters of the host: they only shape the
    text of a console line. *)
Definition toLocaleString_USD (x : number) : string := "$#".
Definition Intl_format (x : number) : string := "MM/DD/YYYY".

(** The default tolerances. *)
Definition dollarTolerance : number := 0.5%float.
Definition dateTolerance : number := 4%float.

(** Two cached transactions and two orders: the first order matches the
    first transaction perfectly, the second order is within tolerance of
    both transactions. *)
Definition transaction1 : TransactionDetail.t :=
  TransactionDetail.mk "t-1" "2024-01-05" (-42100)%float None (Some "Amazon.com") false.
Definition transaction2 : TransactionDetail.t :=
  TransactionDetail.mk "t-2" "2024-01-06" (-42100)%float None (Some "AMAZON MKTPL") false.

Definition order1 : Order.t :=
  Order.mk (Date_parse "2024-01-05") (-42100)%float ["Widget A"; "Widget B"].
Definition order2 : Order.t :=
  Order.mk (Date_parse "2024-01-06") (-42000)%float ["Gadget"].

Definition instance : YNAB.t :=
  YNAB.mk (Some "budget-1") (Some 1200%float)
    [("t-1", transaction1); ("t-2", transaction2)].

(** A transaction the ledger reports as deleted, and the same after the
    user gave it a memo. *)
Definition deletedTransaction : TransactionDetail.t :=
  TransactionDetail.mk "t-9" "2024-01-05" (-42100)%float None (Some "Amazon.com") true.
Definition deletedTransaction1 : TransactionDetail.t :=
  TransactionDetail.mk "t-1" "2024-01-05" (-42100)%float (Some "returned")
    (Some "Amazon.com") true.

(** An instance right after [init]. *)
Definition fresh : YNAB.t := YNAB.mk (Some "budget-1") None [].

(** A confirmation message as cheerio reads it: a table whose text holds
    [Total] and the given amount, and links to two products among links
    of the site's navigation. *)
Definition document (total : string) : list node :=
  [Element "html" []
     [Element "body" []
        [Element "table" [("id", "header")]
           [Element "tr" []
              [Element "td" [] [Text "Hello, thank you for shopping with us."]]];
         Element "table" [("id", "summary")]
           [Element "tr" []
              [Element "td" [] [Text "Order Total:"];
               Element "td" [] [Text total]]];
         Element "a" [("href", "https://www.amazon.com/gp/css/order-history")]
           [Text "Your Orders"];
         Element "a" [("href", "https://www.amazon.com/dp/B000000001")]
           [Text "Widget A"];
         Element "a" [("href", "https://www.amazon.com/dp/B000000002?ref=asin")]
           [Element "span" [] [Text "  Widget B "]]]]].

(** Two parsers for the examples: whatever the markup, the sample
    document with a total of $42.10, respectively of $32.05. *)
Definition cheerio_load42 (markup : string) : list node := document "$42.10".
Definition cheerio_load32 (markup : string) : list node := document "$32.05".

(** Received on 2024-01-05 at 17:45:10 UTC. *)
Definition received : number := 1704476710000%float.

Definition email (from : string) : Email.t :=
  Email.mk from "Your Amazon.com order of Widget A and 1 more item" "<html>...</html>"
    received.

(** A ledger that accepts every update, and one that rejects them. *)
Definition accept (request : list SaveTransaction.t) : completion unit := Return tt.
Definition reject (request : list SaveTransaction.t) : completion unit :=
  Throw (Rejected "503").

End Sample.

(* --------------------------------------------------------------------- *)
(** ** More sample values                                                 *)
(* --------------------------------------------------------------------- *)

Module Case.

(** A reply of the ledger with the two sample transactions, one of
    another payee and one that already has a memo. *)
Definition groceries : TransactionDetail.t :=
  TransactionDetail.mk "t-7" "2024-01-05" (-1500)%float None (Some "Grocery Store") false.
Definition annotated : TransactionDetail.t :=
  TransactionDetail.mk "t-8" "2024-01-05" (-2500)%float (Some "books") (Some "Amazon.com")
    false.
Definition firstReply : TransactionsResponse.t :=
  TransactionsResponse.mk
    [Sample.transaction1; groceries; annotated; Sample.transaction2] 1200%float.


End Case.

(** The element of the request that [updateTransactions] builds for a
    pair: its transaction, the joined items of its order, no approval. *)
Definition requestFor (m : FinalMatch.t) (u : SaveTransaction.t) : Prop :=
  SaveTransaction.id u = FinalMatch.transactionId m /\
  SaveTransaction.approved u = false /\
  exists order,
    FinalMatch.order m = Some order /\
    SaveTransaction.memo u = JS.join ", " (Order.items order).

(** A pair the callback of [updateTransactions] can handle on a cache: it
    has an order and names a cached transaction. *)
Definition updatable (cache : JS.object TransactionDetail.t) (m : FinalMatch.t) : Prop :=
  FinalMatch.order m <> None /\ JS.get cache (FinalMatch.transactionId m) <> None.

(** The names of the members of [Object.prototype], which an object
    literal inherits: under one of them [o[k]] finds the member where [o]
    has no property of its own. *)
Definition objectPrototypeNames : list string :=
  ["constructor"; "__defineGetter__"; "__defineSetter__"; "hasOwnProperty";
   "__lookupGetter__"; "__lookupSetter__"; "isPrototypeOf"; "propertyIsEnumerable";
   "toString"; "valueOf"; "__proto__"; "toLocaleString"].

Definition inherited (k : string) : bool :=
  existsb (String.eqb k) objectPrototypeNames.

(** A string of decimal digits only. *)
Fixpoint allDigits (s : string) : bool :=
  match s with
  | EmptyString => true
  | String c s' => JS.isDigit c && allDigits s'
  end.

(** A string that starts with no decimal digit. *)
Definition startsWithNoDigit (s : string) : bool :=
  match s with
  | EmptyString => true
  | String c _ => negb (JS.isDigit c)
  end.

(* --------------------------------------------------------------------- *)
(** ** mail.ts and index.ts: the handlers of the running program          *)
(* --------------------------------------------------------------------- *)

(** What the handlers share: the array [orders] created in index.ts, the
    instance of [YNAB], and the console. *)
Module World.
Record t : Type := mk { orders : list Order.t; ynab : YNAB.t; console : list line }.
End World.

Section Program.

Variable YNAB_ACCEPTABLE_DOLLAR_DIFFERENCE : number.
Variable YNAB_ACCEPTABLE_DATE_DIFFERENCE : number.
Variable Date_parse : string -> number.
Variable cheerio_load : string -> list node.
Variable setHours0 : number -> number.
Variable toLocaleString_USD Intl_format : number -> string.

(** The loop of [watchInbox] over the messages read:
    [const order = scanEmail(email); if (order) orders.push(order)].
    What was pushed stays pushed if a call should throw. *)
Fixpoint scanEmails (emails : list Email.t) (orders : list Order.t) (console : list line)
  : completion unit * (list Order.t * list line) :=
  match emails with
  | [] => (Return tt, (orders, console))
  | email :: rest =>
      match scanEmail cheerio_load setHours0 toLocaleString_USD Intl_format
              email console with
      | (Throw e, console') => (Throw e, (orders, console'))
      | (Return None, console') => scanEmails rest orders console'
      | (Return (Some order), console') => scanEmails rest (orders ++ [order]) console'
      end
  end.

(** The text of an integer in a template literal. *)
Definition integerText (z : Z) : string := NilZero.string_of_int (Z.to_int z).

(** The handler of the [mail] event set up by [watchInbox].  [total] is
    [box.messages.total] when the event arrives, [fetchOrderEmails] what
    reading the range of messages gives, [send] the ledger's answer to an
    update.  The handler is taken as one step: it touches [orders] and
    the instance in one synchronous stretch, after the messages have
    arrived.  (As in the model of the class, the console output of the
    class is left out.) *)
Definition onMail (newEmailCount total : Z)
    (fetchOrderEmails : Z -> Z -> completion (list Email.t))
    (send : list SaveTransaction.t -> completion unit)
    (world : World.t) : World.t :=
  let console :=
    World.console world
    ++ [console_log (integerText newEmailCount ++ " new email(s), scanning contents...")%string] in
  let endIndex := total in
  let startIndex := (endIndex - (newEmailCount - 1))%Z in
  match fetchOrderEmails startIndex endIndex with
  | Throw e =>
      World.mk (World.orders world) (World.ynab world) (console ++ [console_error_exn e])
  | Return emails =>
      match scanEmails emails (World.orders world) console with
      | (Throw e, (orders, console')) =>
          World.mk orders (World.ynab world) (console' ++ [console_error_exn e])
      | (Return _, (orders, console')) =>
          match matchAndUpdate YNAB_ACCEPTABLE_DOLLAR_DIFFERENCE
                  YNAB_ACCEPTABLE_DATE_DIFFERENCE Date_parse send orders
                  (World.ynab world) with
          | (Throw e, ynab') => World.mk orders ynab' (console' ++ [console_error_exn e])
          | (Return _, ynab') => World.mk orders ynab' console'
          end
      end
  end.

(** The function run every minute by [setInterval] in index.ts:
    [fetchTransactions()], then [matchAndUpdate(orders)], any exception
    written on the console.  [reply] is the ledger's answer to the
    request for transactions.  The cache is written when the answer has
    arrived, and [matchAndUpdate] assigns the memos before it waits for
    the ledger, so the function too is taken as one step. *)
Definition onInterval (reply : completion TransactionsResponse.t)
    (send : list SaveTransaction.t -> completion unit)
    (world : World.t) : World.t :=
  match fetchTransactions reply (World.ynab world) with
  | (Throw e, ynab') =>
      World.mk (World.orders world) ynab' (World.console world ++ [console_error_exn e])
  | (Return _, ynab') =>
      match matchAndUpdate YNAB_ACCEPTABLE_DOLLAR_DIFFERENCE
              YNAB_ACCEPTABLE_DATE_DIFFERENCE Date_parse send (World.orders world)
              ynab' with
      | (Throw e, ynab'') =>
          World.mk (World.orders world) ynab'' (World.console world ++ [console_error_exn e])
      | (Return _, ynab'') => World.mk (World.orders world) ynab'' (World.console world)
      end
  end.

(** What happens to the running program. *)
Inductive event : Type :=
| Mail (newEmailCount total : Z)
       (fetchOrderEmails : Z -> Z -> completion (list Email.t))
       (send : list SaveTransaction.t -> completion unit)
| Interval (reply : completion TransactionsResponse.t)
           (send : list SaveTransaction.t -> completion unit).

Definition handle (world : World.t) (e : event) : World.t :=
  match e with
  | Mail newEmailCount total fetchOrderEmails send =>
      onMail newEmailCount total fetchOrderEmails send world
  | Interval reply send => onInterval reply send world
  end.

(** The program after a sequence of events. *)
Definition run (events : list event) (world : World.t) : World.t :=
  fold_left handle events world.

End Program.

(** An order as [scanEmail] makes them: at least one item, no empty item,
    a valid date. *)
Definition scanned (order : Order.t) : Prop :=
  Order.items order <> [] /\
  (forall item, In item (Order.items order) -> item <> EmptyString) /\
  is_nan (Order.date order) = false.

(** The comparator of [orders.sort] in [historicalSearch]:
    [new Date(a.date).getTime() - new Date(b.date).getTime()], of which
    the sort reads the sign ([NaN] counts as zero). *)
Definition compareDates (a b : Order.t) : Z :=
  let v := (Order.date a - Order.date b)%float in
  if (v <? 0)%float then (-1)%Z else if (0 <? v)%float then 1%Z else 0%Z.

(** [fetchTransactions(sinceDate)] with a date: the arguments of the
    request are evaluated in order, [this.budget!.id] and then
    [sinceDate.toISOString()], which throws on an invalid date. *)
Definition fetchTransactionsSince (sinceDate : number)
    (reply : completion TransactionsResponse.t) : method unit :=
  fun this =>
    match YNAB.budget this with
    | None => fetchTransactions reply this
    | Some _ =>
        if is_nan sinceDate then (Throw (RangeError "Invalid time value"), this)
        else fetchTransactions reply this
    end.

Section History.

Variable YNAB_ACCEPTABLE_DOLLAR_DIFFERENCE : number.
Variable YNAB_ACCEPTABLE_DATE_DIFFERENCE : number.
Variable Date_parse : string -> number.

(** The end of [historicalSearch], from the point where all scans of the
    old messages have settled and [orders] holds what they pushed: the
    orders are sorted by date, the ledger is asked for the transactions
    since the earliest, and the pairs found are sent.  An exception
    rejects the handler before [resolve()] is reached: the promise of
    [historicalSearch] then stays pending, and the program goes on to
    neither [watchInbox] nor [setInterval]. *)
Definition historicalSearchEnd
    (reply : completion TransactionsResponse.t)
    (send : list SaveTransaction.t -> completion unit)
    (world : World.t) : completion unit * World.t :=
  let console :=
    World.console world ++ [console_log "Finished scanning old emails successfully!"] in
  if (0 <? List.length (World.orders world))%nat then
    let orders := sort compareDates (World.orders world) in
    match orders with
    | [] =>
        (Throw (TypeError "Cannot read properties of undefined (reading 'date')"),
         World.mk orders (World.ynab world) console)
    | first :: _ =>
        let sinceDate := Order.date first in
        match fetchTransactionsSince sinceDate reply (World.ynab world) with
        | (Throw e, fetched) => (Throw e, World.mk orders fetched console)
        | (Return _, fetched) =>
            match matchTransactions YNAB_ACCEPTABLE_DOLLAR_DIFFERENCE
                    YNAB_ACCEPTABLE_DATE_DIFFERENCE Date_parse orders fetched with
            | (Throw e, matched) => (Throw e, World.mk orders matched console)
            | (Return matches, matched) =>
                let (result, updated) := updateTransactions send matches matched in
                (result, World.mk orders updated console)
            end
        end
    end
  else (Return tt, World.mk (World.orders world) (World.ynab world) console).

End History.

(** A candidate whose two differences are zero: the test before
    [continue orderLoop]. *)
Definition perfectMatch (m : Match.t) : bool :=
  isPerfect (Match.dateDifference m) (Match.priceDifference m).

(** A difference as the loops store it: an absolute value that passed
    the test against a tolerance. *)
Definition distance (d : number) : Prop :=
  exists x tolerance, d = abs x /\ (d <=? tolerance)%float = true.

Definition measured (m : Match.t) : Prop :=
  distance (Match.dateDifference m) /\ distance (Match.priceDifference m).

(* ===================================================================== *)
(** * Part II. Properties                                                 *)
(* ===================================================================== *)

(** ** Objects *)

Lemma insertByIndex_In {V} (p q : string * V) l :
  In q (JS.insertByIndex p l) <-> q = p \/ In q l.
Proof.
  induction l as [|r l IH]; simpl.
  - intuition congruence.
  - destruct (JS.indexOf (fst p) <=? JS.indexOf (fst r))%N; simpl.
    + intuition congruence.
    + rewrite IH. intuition congruence.
Qed.

Lemma sortByIndex_In {V} (q : string * V) l :
  In q (JS.sortByIndex l) <-> In q l.
Proof.
  induction l as [|p l IH]; simpl; [tauto|].
  rewrite insertByIndex_In, IH. intuition congruence.
Qed.

(** [Object.entries] lists exactly the own properties. *)
Lemma entries_In {V} (o : JS.object V) (q : string * V) :
  In q (JS.entries o) <-> In q o.
Proof.
  unfold JS.entries. rewrite in_app_iff, sortByIndex_In, !filter_In.
  destruct (JS.isArrayIndex (fst q)); simpl; intuition congruence.
Qed.

Lemma get_of_In {V} (o : JS.object V) k v :
  JS.wf o -> In (k, v) o -> JS.get o k = Some v.
Proof.
  unfold JS.wf, JS.get. induction o as [|[k' v'] o IH]; simpl; [tauto|].
  intros Hnd [Heq | Hin].
  - inversion Heq; subst. now rewrite String.eqb_refl.
  - inversion Hnd as [|? ? Hnotin Hnd']; subst.
    destruct (String.eqb k' k) eqn:E.
    + apply String.eqb_eq in E; subst. exfalso. apply Hnotin.
      now apply (in_map fst) in Hin.
    + now apply IH.
Qed.

Lemma get_In {V} (o : JS.object V) k v :
  JS.get o k = Some v -> In (k, v) o.
Proof.
  unfold JS.get. induction o as [|[k' v'] o IH]; simpl; [discriminate|].
  destruct (String.eqb k' k) eqn:E; simpl.
  - apply String.eqb_eq in E; subst. intros [= ->]. now left.
  - intros H. right. now apply IH.
Qed.

Lemma has_true_iff {V} (o : JS.object V) k :
  JS.has k o = true <-> In k (map fst o).
Proof.
  unfold JS.has. rewrite existsb_exists, in_map_iff. split.
  - intros [p [Hin E]]. apply String.eqb_eq in E. now exists p.
  - intros [p [E Hin]]. exists p. split; [assumption|]. now apply String.eqb_eq.
Qed.

Lemma set_keys_new {V} (o : JS.object V) k v :
  ~ In k (map fst o) -> map fst (JS.set o k v) = map fst o ++ [k].
Proof.
  induction o as [|[k' v'] o IH]; simpl; intros Hn; [reflexivity|].
  destruct (String.eqb k' k) eqn:E.
  - apply String.eqb_eq in E. tauto.
  - simpl. f_equal. apply IH. tauto.
Qed.

Lemma set_keys_old {V} (o : JS.object V) k v :
  In k (map fst o) -> map fst (JS.set o k v) = map fst o.
Proof.
  induction o as [|[k' v'] o IH]; simpl; [tauto|].
  destruct (String.eqb k' k) eqn:E; simpl; [reflexivity|].
  intros [Heq | Hin].
  - subst. now rewrite String.eqb_refl in E.
  - f_equal. now apply IH.
Qed.

Lemma set_wf {V} (o : JS.object V) k v : JS.wf o -> JS.wf (JS.set o k v).
Proof.
  unfold JS.wf. intros Hnd.
  destruct (in_dec string_dec k (map fst o)) as [Hin | Hnotin].
  - now rewrite set_keys_old.
  - rewrite set_keys_new by assumption.
    apply NoDup_app; [assumption | repeat constructor; simpl; tauto |].
    intros x Hx [<- | []]. contradiction.
Qed.

Lemma delete_wf {V} (o : JS.object V) k : JS.wf o -> JS.wf (JS.delete o k).
Proof.
  unfold JS.wf, JS.delete. induction o as [|[k' v'] o IH]; simpl; [trivial|].
  intros Hnd. inversion Hnd as [|? ? Hnotin Hnd']; subst.
  destruct (String.eqb k' k); simpl; [now apply IH|].
  constructor; [|now apply IH].
  rewrite in_map_iff. intros [[k2 v2] [E Hin]]. simpl in E; subst.
  apply filter_In in Hin. destruct Hin as [Hin _].
  apply Hnotin. now apply (in_map fst) in Hin.
Qed.

(** What [o[k] = v] leaves in the object. *)
Lemma set_In {V} (o : JS.object V) k v q :
  In q (JS.set o k v) -> q = (k, v) \/ In q o.
Proof.
  induction o as [|[k' v'] o IH]; simpl.
  - intros [<- | []]. now left.
  - destruct (String.eqb k' k) eqn:E.
    + apply String.eqb_eq in E; subst. simpl. intros [<- | Hin]; auto.
    + simpl. intros [<- | Hin]; auto. destruct (IH Hin); auto.
Qed.

Lemma set_In_new {V} (o : JS.object V) k v : In (k, v) (JS.set o k v).
Proof.
  induction o as [|[k' v'] o IH]; simpl; [now left|].
  destruct (String.eqb k' k) eqn:E.
  - apply String.eqb_eq in E; subst. now left.
  - now right.
Qed.

Lemma set_In_other {V} (o : JS.object V) k v q :
  In q o -> fst q <> k -> In q (JS.set o k v).
Proof.
  induction o as [|[k' v'] o IH]; simpl; [tauto|].
  intros [<- | Hin] Hk.
  - simpl in Hk. destruct (String.eqb k' k) eqn:E.
    + apply String.eqb_eq in E. contradiction.
    + now left.
  - destruct (String.eqb k' k); right; auto.
Qed.

Lemma delete_In {V} (o : JS.object V) k q :
  In q (JS.delete o k) <-> In q o /\ fst q <> k.
Proof.
  unfold JS.delete. rewrite filter_In, negb_true_iff.
  split; intros [H1 H2]; split; trivial.
  - intros E. apply String.eqb_eq in E. congruence.
  - destruct (String.eqb (fst q) k) eqn:E; trivial.
    apply String.eqb_eq in E. contradiction.
Qed.

(** ** The sort *)

Lemma sortInsert_perm {A} (cmp : A -> A -> Z) x l :
  Permutation (sortInsert cmp x l) (x :: l).
Proof.
  induction l as [|y l IH]; simpl; [reflexivity|].
  destruct (cmp x y <=? 0)%Z; [reflexivity|].
  rewrite IH. apply perm_swap.
Qed.

Lemma sort_perm {A} (cmp : A -> A -> Z) l : Permutation (sort cmp l) l.
Proof.
  induction l as [|x l IH]; simpl; [reflexivity|].
  unfold sort in *. simpl. rewrite sortInsert_perm. now constructor.
Qed.

Lemma sort_ext {A} (f g : A -> A -> Z) l :
  (forall a b, f a b = g a b) -> sort f l = sort g l.
Proof.
  intros Hfg. unfold sort. induction l as [|x l IH]; simpl; [reflexivity|].
  rewrite IH. generalize (fold_right (sortInsert g) [] l). intros s.
  induction s as [|y s IHs]; simpl; [reflexivity|].
  now rewrite Hfg, IHs.
Qed.

Lemma sort_In {A} (cmp : A -> A -> Z) l x : In x (sort cmp l) <-> In x l.
Proof.
  split; apply Permutation_in; [|symmetry]; apply sort_perm.
Qed.

(** ** The [while] loop of [matchTransactions] *)

Lemma shiftLoop_accepted orders l :
  shiftLoop orders l = map (finalOf orders) (accepted l).
Proof.
  funelim (accepted l); simp shiftLoop; [reflexivity|].
  simpl. unfold finalOf at 1. f_equal.
  match goal with IH : forall _, shiftLoop _ _ = _ |- _ => apply IH end.
Qed.

Lemma accepted_incl l x : In x (accepted l) -> In x l.
Proof.
  funelim (accepted l); simpl; [tauto|].
  intros [<- | Hin]; [now left|].
  right. match goal with IH : forall _, In _ _ -> In _ _ |- _ => apply IH in Hin end.
  now apply filter_In in Hin.
Qed.

Lemma compatible_transactionId m p :
  compatible m p = true -> Match.transactionId p <> Match.transactionId m.
Proof.
  unfold compatible. rewrite andb_true_iff, !negb_true_iff.
  intros [E _] Heq. rewrite Heq, String.eqb_refl in E. discriminate.
Qed.

Lemma compatible_orderIndex m p :
  compatible m p = true -> Match.orderIndex p <> Match.orderIndex m.
Proof.
  unfold compatible. rewrite andb_true_iff, !negb_true_iff.
  intros [_ E] Heq. rewrite Heq, Nat.eqb_refl in E. discriminate.
Qed.

(** No two rounds of the loop take candidates of the same transaction. *)
Lemma accepted_NoDup_transactionId l :
  NoDup (map Match.transactionId (accepted l)).
Proof.
  funelim (accepted l); simpl; constructor; [|assumption].
  rewrite in_map_iff. intros [p [Heq Hin]].
  apply accepted_incl, filter_In in Hin. destruct Hin as [_ Hc].
  now apply compatible_transactionId in Hc.
Qed.

(** No two rounds of the loop take candidates of the same order. *)
Lemma accepted_NoDup_orderIndex l :
  NoDup (map Match.orderIndex (accepted l)).
Proof.
  funelim (accepted l); simpl; constructor; [|assumption].
  rewrite in_map_iff. intros [p [Heq Hin]].
  apply accepted_incl, filter_In in Hin. destruct Hin as [_ Hc].
  now apply compatible_orderIndex in Hc.
Qed.

Lemma finalOf_transactionId orders l :
  map FinalMatch.transactionId (map (finalOf orders) l) = map Match.transactionId l.
Proof. rewrite map_map. reflexivity. Qed.

Section ReconcilerFacts.

Variable dollarTolerance dateTolerance : number.
Variable Date_parse : string -> number.

Local Abbreviation scan := (scanTransactions dollarTolerance dateTolerance Date_parse).
Local Abbreviation candidates := (orderLoop dollarTolerance dateTolerance Date_parse).
Local Abbreviation matching := (matchTransactions dollarTolerance dateTolerance Date_parse).
Local Abbreviation taken := (acceptedMatches dollarTolerance dateTolerance Date_parse).

Lemma matchTransactions_accepted orders this :
  matching orders this = (Return (map (finalOf orders) (taken orders this)), this).
Proof.
  unfold matchTransactions, acceptedMatches.
  destruct orders as [|o orders]; [reflexivity|].
  simpl List.length. simpl Nat.eqb. cbv iota.
  now rewrite shiftLoop_accepted.
Qed.

(** A candidate of the scan for one order names an entry without memo
    that is within tolerance of the order. *)
Lemma scan_In i order entries c :
  In c (scan i order entries) ->
  exists transaction,
    In (Match.transactionId c, transaction) entries /\
    hasMemo transaction = false /\
    withinTolerance dollarTolerance dateTolerance
      (dateDifferenceOf Date_parse order transaction)
      (priceDifferenceOf order transaction) = true /\
    c = Match.mk (dateDifferenceOf Date_parse order transaction)
                 (priceDifferenceOf order transaction) i (Match.transactionId c).
Proof.
  induction entries as [|[id t] entries IH]; simpl; [tauto|].
  destruct (hasMemo t) eqn:Hm.
  - intros Hin. destruct (IH Hin) as [t' [H1 H2]]. exists t'. tauto.
  - assert (Hhead :
      In c (if withinTolerance dollarTolerance dateTolerance
                 (dateDifferenceOf Date_parse order t) (priceDifferenceOf order t)
            then [Match.mk (dateDifferenceOf Date_parse order t)
                    (priceDifferenceOf order t) i id]
            else []) ->
      exists transaction,
        ((id, t) = (Match.transactionId c, transaction) \/
         In (Match.transactionId c, transaction) entries) /\
        hasMemo transaction = false /\
        withinTolerance dollarTolerance dateTolerance
          (dateDifferenceOf Date_parse order transaction)
          (priceDifferenceOf order transaction) = true /\
        c = Match.mk (dateDifferenceOf Date_parse order transaction)
              (priceDifferenceOf order transaction) i (Match.transactionId c)).
    { destruct (withinTolerance _ _ _ _) eqn:Hw; simpl; [|tauto].
      intros [<- | []]. simpl. exists t. auto. }
    destruct (isPerfect _ _); [exact Hhead|].
    rewrite in_app_iff. intros [Hin | Hin]; [now apply Hhead|].
    destruct (IH Hin) as [t' [H1 H2]]. exists t'. tauto.
Qed.

Lemma scan_orderIndex i order entries c :
  In c (scan i order entries) -> Match.orderIndex c = i.
Proof.
  intros Hin. apply scan_In in Hin. destruct Hin as [t [_ [_ [_ ->]]]]. reflexivity.
Qed.

(** A candidate of the outer loop comes from the scan of its order. *)
Lemma candidates_In k orders cache c :
  In c (candidates k orders cache) ->
  exists order,
    k <= Match.orderIndex c /\
    nth_error orders (Match.orderIndex c - k) = Some order /\
    In c (scan (Match.orderIndex c) order (JS.entries cache)).
Proof.
  revert k. induction orders as [|o orders IH]; simpl; intros k; [tauto|].
  rewrite in_app_iff. intros [Hin | Hin].
  - pose proof (scan_orderIndex _ _ _ _ Hin) as E. exists o.
    rewrite E, Nat.sub_diag. simpl. repeat split; trivial.
  - destruct (IH _ Hin) as [order [Hle [Hnth Hs]]]. exists order.
    split; [lia|]. split; [|assumption].
    replace (Match.orderIndex c - k) with (S (Match.orderIndex c - S k)) by lia.
    assumption.
Qed.

(** Every accepted candidate is a candidate of the outer loop. *)
Lemma acceptedMatches_candidates orders this c :
  In c (taken orders this) ->
  In c (candidates 0 orders (YNAB.transactions this)).
Proof.
  unfold acceptedMatches. intros Hin.
  now apply accepted_incl, sort_In in Hin.
Qed.

(** The transaction of an accepted candidate is cached and has no memo;
    its order is the one at its index. *)
Lemma acceptedMatches_sound orders this c :
  In c (taken orders this) ->
  exists order transaction,
    nth_error orders (Match.orderIndex c) = Some order /\
    In (Match.transactionId c, transaction) (YNAB.transactions this) /\
    hasMemo transaction = false /\
    withinTolerance dollarTolerance dateTolerance
      (dateDifferenceOf Date_parse order transaction)
      (priceDifferenceOf order transaction) = true.
Proof.
  intros Hin. apply acceptedMatches_candidates, candidates_In in Hin.
  destruct Hin as [order [_ [Hnth Hs]]]. rewrite Nat.sub_0_r in Hnth.
  apply scan_In in Hs. destruct Hs as [t [Ht [Hm [Hw _]]]].
  exists order, t. rewrite entries_In in Ht. auto.
Qed.

End ReconcilerFacts.

(** ** Claims on [matchTransactions] *)

(** C1. For every list of orders and every cache, [matchTransactions]
    completes with the list built from the candidates the [while] loop
    takes ([acceptedMatches]); no two of these candidates share a
    transaction id and no two share an order index, so no two elements of
    the result share a [transactionId] or come from the same order
    index. *)
Theorem matchTransactions_one_to_one :
  forall dollarTolerance dateTolerance Date_parse orders this,
    let taken := acceptedMatches dollarTolerance dateTolerance Date_parse orders this in
    matchTransactions dollarTolerance dateTolerance Date_parse orders this
    = (Return (map (finalOf orders) taken), this) /\
    NoDup (map Match.transactionId taken) /\
    NoDup (map Match.orderIndex taken) /\
    NoDup (map FinalMatch.transactionId (map (finalOf orders) taken)).
Proof.
  intros. subst taken. split; [apply matchTransactions_accepted|].
  rewrite finalOf_transactionId. unfold acceptedMatches.
  auto using accepted_NoDup_transactionId, accepted_NoDup_orderIndex.
Qed.

(** C5. On an instance whose cache is a well-formed object, every element
    of the result of [matchTransactions] names a cached transaction
    without memo; a cached transaction with a non-empty memo is named by
    no element of the result. *)
Theorem matchTransactions_skips_memo :
  forall dollarTolerance dateTolerance Date_parse orders this finalMatches,
    JS.wf (YNAB.transactions this) ->
    fst (matchTransactions dollarTolerance dateTolerance Date_parse orders this)
    = Return finalMatches ->
    (forall finalMatch, In finalMatch finalMatches ->
       exists transaction,
         JS.get (YNAB.transactions this) (FinalMatch.transactionId finalMatch)
         = Some transaction /\
         hasMemo transaction = false) /\
    (forall id transaction,
       JS.get (YNAB.transactions this) id = Some transaction ->
       hasMemo transaction = true ->
       ~ In id (map FinalMatch.transactionId finalMatches)).
Proof.
  intros dT tT dp orders this finalMatches Hwf Hres.
  rewrite matchTransactions_accepted in Hres. simpl in Hres.
  injection Hres as <-.
  assert (Hsound : forall finalMatch,
             In finalMatch (map (finalOf orders) (acceptedMatches dT tT dp orders this)) ->
             exists transaction,
               JS.get (YNAB.transactions this) (FinalMatch.transactionId finalMatch)
               = Some transaction /\ hasMemo transaction = false).
  { intros fm Hin. apply in_map_iff in Hin. destruct Hin as [c [<- Hc]].
    apply acceptedMatches_sound in Hc.
    destruct Hc as [order [t [_ [Hin [Hm _]]]]].
    exists t. split; [|assumption]. simpl. now apply get_of_In. }
  split; [exact Hsound|].
  intros id t Hget Hmemo Hin. apply in_map_iff in Hin.
  destruct Hin as [fm [<- Hfm]].
  destruct (Hsound fm Hfm) as [t' [Hget' Hm']]. congruence.
Qed.

(** The sample instance is a state of the class: [new YNAB()], [init],
    and one run of [fetchTransactions] whose reply also holds a
    transaction of another payee and one that already has a memo. *)
Example Sample_instance_reachable :
  reachable Sample.dollarTolerance Sample.dateTolerance Sample.Date_parse Sample.instance.
Proof.
  apply (reachable_step _ _ _ Sample.fresh).
  - apply (reachable_step _ _ _ YNAB.new); [constructor|].
    exact (step_init _ _ _ (Some "budget-1") YNAB.new).
  - exact (step_fetchTransactions _ _ _
             (Return (TransactionsResponse.mk
                        [Sample.transaction1;
                         TransactionDetail.mk "t-7" "2024-01-05" (-1500)%float None
                           (Some "Grocery Store") false;
                         TransactionDetail.mk "t-8" "2024-01-05" (-2500)%float
                           (Some "books") (Some "Amazon.com") false;
                         Sample.transaction2]
                        1200%float))
             Sample.fresh).
Qed.

(** [Object.entries] puts the array-index keys first, in numeric order. *)
Example entries_order :
  map fst (JS.entries [("b", 1); ("10", 2); ("2", 3); ("a", 4); ("01", 5);
                       ("4294967295", 6); ("0", 7)])
  = ["0"; "2"; "10"; "b"; "a"; "01"; "4294967295"].
Proof. reflexivity. Qed.

(** The cache of the sample instance has distinct keys. *)
Lemma Sample_instance_wf : JS.wf (YNAB.transactions Sample.instance).
Proof.
  unfold JS.wf. simpl. repeat constructor; simpl; intuition discriminate.
Defined.

(** On the sample instance the two orders are paired with [t-1] and
    [t-2]; the transaction named first is cached without memo. *)
Lemma matchTransactions_skips_memo_witness :
  exists transaction,
    JS.get (YNAB.transactions Sample.instance) "t-1" = Some transaction /\
    hasMemo transaction = false.
Proof.
  destruct (matchTransactions_skips_memo
              Sample.dollarTolerance Sample.dateTolerance Sample.Date_parse
              [Sample.order1; Sample.order2] Sample.instance
              [FinalMatch.mk "t-1" (Some Sample.order1);
               FinalMatch.mk "t-2" (Some Sample.order2)]
              Sample_instance_wf eq_refl) as [H _].
  apply (H (FinalMatch.mk "t-1" (Some Sample.order1))). simpl. auto.
Defined.

(** C8. The comparator of the source returns, on every pair of
    candidates, what the two-key ascending comparator returns: its fifth
    and sixth tests repeat the third and fourth, which have failed when
    they are reached, also when a difference is [NaN]. *)
Theorem compareMatches_is_compareAscending :
  (forall a b, compareMatches a b = compareAscending a b) /\
  (forall candidates, sort compareMatches candidates = sort compareAscending candidates).
Proof.
  assert (Hpoint : forall a b, compareMatches a b = compareAscending a b).
  { intros a b. unfold compareMatches, compareAscending.
    destruct (Match.dateDifference a <? Match.dateDifference b)%float; [reflexivity|].
    destruct (Match.dateDifference b <? Match.dateDifference a)%float; [reflexivity|].
    destruct (Match.priceDifference a <? Match.priceDifference b)%float eqn:Hlt;
      [reflexivity|].
    destruct (Match.priceDifference b <? Match.priceDifference a)%float eqn:Hgt;
      reflexivity. }
  split; [exact Hpoint|].
  intros candidates. now apply sort_ext.
Qed.

(** ** Candidate generation and the perfect match *)

Lemma filter_all {A} (f : A -> bool) l :
  (forall x, In x l -> f x = true) -> filter f l = l.
Proof.
  induction l as [|x l IH]; simpl; intros H; [reflexivity|].
  rewrite (H x) by now left. f_equal. apply IH. intros y Hy. apply H. now right.
Qed.

Lemma filter_none {A} (f : A -> bool) l :
  (forall x, In x l -> f x = false) -> filter f l = [].
Proof.
  induction l as [|x l IH]; simpl; intros H; [reflexivity|].
  rewrite (H x) by now left. apply IH. intros y Hy. apply H. now right.
Qed.

Section CandidateFacts.

Variable dollarTolerance dateTolerance : number.
Variable Date_parse : string -> number.

Local Abbreviation scan := (scanTransactions dollarTolerance dateTolerance Date_parse).
Local Abbreviation candidates := (orderLoop dollarTolerance dateTolerance Date_parse).
Local Abbreviation within := (withinTolerance dollarTolerance dateTolerance).
Local Abbreviation dateDiff := (dateDifferenceOf Date_parse).

(** After a perfect match the entries that follow are not read. *)
Lemma scan_stops i order pre id transaction post :
  hasMemo transaction = false ->
  isPerfect (dateDiff order transaction) (priceDifferenceOf order transaction) = true ->
  scan i order (pre ++ (id, transaction) :: post)
  = scan i order (pre ++ [(id, transaction)]).
Proof.
  intros Hm Hp. induction pre as [|[id' t'] pre IH]; simpl.
  - rewrite Hm, Hp. reflexivity.
  - rewrite IH. reflexivity.
Qed.

(** An entry without memo that is within tolerance becomes a candidate
    when no perfect match stops the scan before it. *)
Lemma scan_reaches i order pre id transaction post :
  (forall p, In p pre ->
     hasMemo (snd p) = true \/
     isPerfect (dateDiff order (snd p)) (priceDifferenceOf order (snd p)) = false) ->
  hasMemo transaction = false ->
  within (dateDiff order transaction) (priceDifferenceOf order transaction) = true ->
  In (Match.mk (dateDiff order transaction) (priceDifferenceOf order transaction) i id)
     (scan i order (pre ++ (id, transaction) :: post)).
Proof.
  intros Hpre Hm Hw. induction pre as [|[id' t'] pre IH]; simpl.
  - rewrite Hm, Hw. destruct (isPerfect _ _); simpl; auto.
  - assert (IH' := IH (fun p Hp => Hpre p (or_intror Hp))).
    destruct (Hpre (id', t') (or_introl eq_refl)) as [Hm' | Hp']; simpl in *.
    + now rewrite Hm'.
    + destruct (hasMemo t'); [assumption|].
      rewrite Hp'. apply in_or_app. now right.
Qed.

(** The candidates of the outer loop that carry the index [i] are the
    scan of the order at [i]: what is pushed for one order does not
    depend on the other orders. *)
Lemma candidates_of_index k orders cache i :
  filter (fun c => (Match.orderIndex c =? i)%nat) (candidates k orders cache)
  = if (k <=? i)%nat
    then match nth_error orders (i - k) with
         | Some order => scan i order (JS.entries cache)
         | None => []
         end
    else [].
Proof.
  revert k. induction orders as [|o orders IH]; intros k; simpl.
  - destruct (k <=? i)%nat; [|reflexivity]. now destruct (i - k).
  - rewrite filter_app, IH.
    destruct (Nat.eq_dec k i) as [-> | Hne].
    + rewrite Nat.leb_refl, Nat.sub_diag.
      replace (S i <=? i)%nat with false by (symmetry; apply Nat.leb_gt; lia).
      cbn [nth_error]. rewrite app_nil_r. apply filter_all.
      intros c Hc. apply Nat.eqb_eq. eapply scan_orderIndex; eassumption.
    + rewrite (filter_none _ (scan k o (JS.entries cache))).
      2:{ intros c Hc. apply Nat.eqb_neq.
          erewrite scan_orderIndex by eassumption. assumption. }
      cbn [app]. destruct (k <=? i)%nat eqn:Hk.
      * apply Nat.leb_le in Hk.
        replace (S k <=? i)%nat with true by (symmetry; apply Nat.leb_le; lia).
        replace (i - k) with (S (i - S k)) by lia. reflexivity.
      * apply Nat.leb_gt in Hk.
        replace (S k <=? i)%nat with false by (symmetry; apply Nat.leb_gt; lia).
        reflexivity.
Qed.

End CandidateFacts.

(** C6. Let the entries of the cache be [pre], then a transaction without
    memo that matches the order at index [i] perfectly, then [post].  The
    candidates pushed for index [i] are those of the scan of [pre] and of
    that transaction: nothing of [post] is read for it.  The candidates
    pushed for any other index are the scan of all the entries, this
    transaction included: it is a candidate for another order as soon as
    it is within tolerance of that order and no perfect match of that
    order stands before it.  Only the [while] loop settles the conflict:
    the candidates it takes have pairwise distinct transactions. *)
Theorem perfect_match_stops_only_its_own_scan :
  forall dollarTolerance dateTolerance Date_parse orders this
         i order pre id transaction post,
    JS.entries (YNAB.transactions this) = pre ++ (id, transaction) :: post ->
    nth_error orders i = Some order ->
    hasMemo transaction = false ->
    isPerfect (dateDifferenceOf Date_parse order transaction)
              (priceDifferenceOf order transaction) = true ->
    let candidates :=
      orderLoop dollarTolerance dateTolerance Date_parse 0 orders (YNAB.transactions this) in
    filter (fun c => (Match.orderIndex c =? i)%nat) candidates
    = scanTransactions dollarTolerance dateTolerance Date_parse i order
        (pre ++ [(id, transaction)]) /\
    (forall j other,
       j <> i -> nth_error orders j = Some other ->
       filter (fun c => (Match.orderIndex c =? j)%nat) candidates
       = scanTransactions dollarTolerance dateTolerance Date_parse j other
           (pre ++ (id, transaction) :: post) /\
       ((forall p, In p pre ->
           hasMemo (snd p) = true \/
           isPerfect (dateDifferenceOf Date_parse other (snd p))
                     (priceDifferenceOf other (snd p)) = false) ->
        withinTolerance dollarTolerance dateTolerance
          (dateDifferenceOf Date_parse other transaction)
          (priceDifferenceOf other transaction) = true ->
        In (Match.mk (dateDifferenceOf Date_parse other transaction)
                     (priceDifferenceOf other transaction) j id)
           candidates)) /\
    NoDup (map Match.transactionId
             (acceptedMatches dollarTolerance dateTolerance Date_parse orders this)).
Proof.
  intros dT tT dp orders this i order pre id t post Hentries Hnth Hm Hp candidates.
  subst candidates. split; [|split].
  - rewrite candidates_of_index. simpl. rewrite Nat.sub_0_r, Hnth, Hentries.
    now apply scan_stops.
  - intros j other Hj Hother.
    assert (Hj' : filter (fun c => (Match.orderIndex c =? j)%nat)
                    (orderLoop dT tT dp 0 orders (YNAB.transactions this))
                  = scanTransactions dT tT dp j other (pre ++ (id, t) :: post)).
    { rewrite candidates_of_index. simpl. now rewrite Nat.sub_0_r, Hother, Hentries. }
    split; [exact Hj'|].
    intros Hpre Hw.
    assert (Hin : In (Match.mk (dateDifferenceOf dp other t) (priceDifferenceOf other t) j id)
                     (scanTransactions dT tT dp j other (pre ++ (id, t) :: post))).
    { now apply scan_reaches. }
    rewrite <- Hj' in Hin. now apply filter_In in Hin.
  - unfold acceptedMatches. apply accepted_NoDup_transactionId.
Qed.

(** On the sample instance the first order matches [t-1] perfectly: its
    only candidate is that one, although [t-2] is within tolerance of it
    too, and [t-1] is still a candidate of the second order. *)
Lemma perfect_match_stops_only_its_own_scan_witness :
  let candidates :=
    orderLoop Sample.dollarTolerance Sample.dateTolerance Sample.Date_parse 0
      [Sample.order1; Sample.order2] (YNAB.transactions Sample.instance) in
  filter (fun c => (Match.orderIndex c =? 0)%nat) candidates
  = [Match.mk 0%float 0%float 0 "t-1"] /\
  In (Match.mk 86400000%float 100%float 1 "t-1") candidates.
Proof.
  destruct (perfect_match_stops_only_its_own_scan
              Sample.dollarTolerance Sample.dateTolerance Sample.Date_parse
              [Sample.order1; Sample.order2] Sample.instance
              0 Sample.order1 [] "t-1" Sample.transaction1 [("t-2", Sample.transaction2)]
              eq_refl eq_refl eq_refl eq_refl) as [Hown [Hother _]].
  split.
  - exact Hown.
  - destruct (Hother 1 Sample.order2) as [_ Hin]; [discriminate | reflexivity |].
    apply Hin; [intros p [] | reflexivity].
Defined.

(** ** Claims on the cache *)

(** C4 (the code departs from the claim).  A transaction the ledger
    reports as deleted, with an Amazon payee and no memo, that is not yet
    in the cache, is stored by [fetchTransactions] and then paired with an
    order by [matchTransactions]; and a cached transaction that comes back
    deleted with a memo stays in the cache. *)
Theorem fetchTransactions_keeps_deleted :
  let reply := Return (TransactionsResponse.mk [Sample.deletedTransaction] 7%float) in
  let this' := snd (fetchTransactions reply Sample.fresh) in
  TransactionDetail.deleted Sample.deletedTransaction = true /\
  JS.get (YNAB.transactions this') "t-9" = Some Sample.deletedTransaction /\
  fst (matchTransactions Sample.dollarTolerance Sample.dateTolerance Sample.Date_parse
         [Sample.order1] this')
  = Return [FinalMatch.mk "t-9" (Some Sample.order1)] /\
  let reply1 := Return (TransactionsResponse.mk [Sample.deletedTransaction1] 8%float) in
  TransactionDetail.deleted Sample.deletedTransaction1 = true /\
  JS.get (YNAB.transactions (snd (fetchTransactions reply1 Sample.instance))) "t-1"
  = Some Sample.transaction1.
Proof.
  cbv zeta. repeat split; reflexivity.
Qed.

Lemma fetchFilter_true (t : TransactionDetail.t) :
  fetchFilter t = true <->
  (exists payee, TransactionDetail.payee_name t = Some payee /\
                 JS.includes (JS.toLowerCase payee) "amazon" = true) /\
  (TransactionDetail.memo t = None \/ TransactionDetail.memo t = Some EmptyString).
Proof.
  unfold fetchFilter. rewrite andb_true_iff. split.
  - intros [Hp Hm]. split.
    + destruct (TransactionDetail.payee_name t) as [p|]; [|discriminate]. now exists p.
    + destruct (TransactionDetail.memo t) as [m|]; [|now left].
      right. destruct m; [reflexivity|discriminate].
  - intros [[p [-> Hp]] [-> | ->]]; auto.
Qed.

Lemma cacheTransaction_In cache t q :
  In q (cacheTransaction cache t) -> In q cache \/ q = (TransactionDetail.id t, t).
Proof.
  unfold cacheTransaction.
  destruct (TransactionDetail.deleted t && JS.has (TransactionDetail.id t) cache).
  - rewrite delete_In. tauto.
  - intros H. apply set_In in H. tauto.
Qed.

Lemma fold_cacheTransaction_In ts cache q :
  In q (fold_left cacheTransaction ts cache) ->
  In q cache \/ exists t, In t ts /\ q = (TransactionDetail.id t, t).
Proof.
  revert cache. induction ts as [|t ts IH]; simpl; intros cache H; [now left|].
  apply IH in H. destruct H as [H | [t' [Hin ->]]].
  - apply cacheTransaction_In in H. destruct H as [H | ->]; [now left|].
    right. exists t. auto.
  - right. exists t'. auto.
Qed.

Lemma cacheTransaction_wf cache t : JS.wf cache -> JS.wf (cacheTransaction cache t).
Proof.
  unfold cacheTransaction. intros H.
  destruct (TransactionDetail.deleted t && JS.has (TransactionDetail.id t) cache);
    [now apply delete_wf | now apply set_wf].
Qed.

(** What one run of [fetchTransactions] leaves in the cache: what was
    there, and transactions of the reply that pass the filter, under
    their own id. *)
Lemma fetchTransactions_In reply this k t :
  In (k, t) (YNAB.transactions (snd (fetchTransactions reply this))) ->
  In (k, t) (YNAB.transactions this) \/
  exists data, reply = Return data /\
               In t (TransactionsResponse.transactions data) /\
               fetchFilter t = true /\ k = TransactionDetail.id t.
Proof.
  unfold fetchTransactions.
  destruct (YNAB.budget this); [|now left].
  destruct reply as [data | e]; [|now left].
  simpl. intros H. apply fold_cacheTransaction_In in H.
  destruct H as [H | [t' [Hin Heq]]]; [now left|].
  injection Heq as -> ->. right. exists data.
  apply filter_In in Hin. tauto.
Qed.

Lemma Forall2_In_r {A B} (R : A -> B -> Prop) l l' y :
  Forall2 R l l' -> In y l' -> exists x, In x l /\ R x y.
Proof.
  induction 1 as [|x y' l l' HR HF IH]; simpl; [tauto|].
  intros [<- | Hin].
  - exists x. auto.
  - destruct (IH Hin) as [x' [H1 H2]]. exists x'. auto.
Qed.

Lemma Forall2_refl_on {A} (R : A -> A -> Prop) l :
  (forall x, R x x) -> Forall2 R l l.
Proof. intros HR. induction l; constructor; auto. Qed.

Lemma Forall2_trans_on {A} (R : A -> A -> Prop) l1 l2 l3 :
  (forall x y z, R x y -> R y z -> R x z) ->
  Forall2 R l1 l2 -> Forall2 R l2 l3 -> Forall2 R l1 l3.
Proof.
  intros HR H12. revert l3. induction H12 as [|x y l1 l2 Hxy H12 IH]; intros l3 H23.
  - inversion H23. constructor.
  - inversion H23 as [|? z ? l3' Hyz H23']; subst. constructor; eauto.
Qed.

Lemma sameButMemo_refl t : TransactionDetail.sameButMemo t t.
Proof. unfold TransactionDetail.sameButMemo. tauto. Qed.

Lemma sameButMemo_trans a b c :
  TransactionDetail.sameButMemo a b -> TransactionDetail.sameButMemo b c ->
  TransactionDetail.sameButMemo a c.
Proof. unfold TransactionDetail.sameButMemo. intuition congruence. Qed.

Lemma sameButMemo_set_memo t m :
  TransactionDetail.sameButMemo t (TransactionDetail.set_memo t m).
Proof. unfold TransactionDetail.sameButMemo. simpl. tauto. Qed.

Lemma sameButMemos_refl cache : sameButMemos cache cache.
Proof.
  apply Forall2_refl_on. intros p. split; [reflexivity | apply sameButMemo_refl].
Qed.

Lemma sameButMemos_trans a b c :
  sameButMemos a b -> sameButMemos b c -> sameButMemos a c.
Proof.
  apply Forall2_trans_on. intros x y z [E1 S1] [E2 S2].
  split; [congruence | eapply sameButMemo_trans; eassumption].
Qed.

(** Assigning the memo of a cached transaction keeps the keys, their
    order and every other field. *)
Lemma set_memo_sameButMemos cache id t memo :
  JS.get cache id = Some t ->
  sameButMemos cache (JS.set cache id (TransactionDetail.set_memo t memo)).
Proof.
  unfold sameButMemos, JS.get.
  induction cache as [|[k v] cache IH]; simpl; [discriminate|].
  destruct (String.eqb k id) eqn:E; simpl.
  - intros [= ->]. constructor.
    + simpl. split; [reflexivity | apply sameButMemo_set_memo].
    + apply sameButMemos_refl.
  - intros H. constructor; [|now apply IH].
    simpl. split; [reflexivity | apply sameButMemo_refl].
Qed.

(** What one call of the [map] callback does to the instance. *)
Lemma memoTransaction_state m this :
  snd (memoTransaction m this) = this \/
  exists order transaction,
    FinalMatch.order m = Some order /\
    JS.get (YNAB.transactions this) (FinalMatch.transactionId m) = Some transaction /\
    snd (memoTransaction m this)
    = YNAB.with_transactions this
        (JS.set (YNAB.transactions this) (FinalMatch.transactionId m)
           (TransactionDetail.set_memo transaction (JS.join ", " (Order.items order)))).
Proof.
  unfold memoTransaction.
  destruct (FinalMatch.order m) as [order|]; [|now left].
  destruct (JS.get (YNAB.transactions this) (FinalMatch.transactionId m)) as [t|] eqn:Hget;
    [|now left].
  right. exists order, t. auto.
Qed.

Lemma updateFrame_refl matches this : updateFrame matches this this.
Proof.
  unfold updateFrame. repeat split; auto using sameButMemos_refl.
Qed.

Lemma memoTransaction_frame m this :
  updateFrame [m] this (snd (memoTransaction m this)).
Proof.
  destruct (memoTransaction_state m this) as [-> | [order [t [Ho [Hget ->]]]]];
    [apply updateFrame_refl|].
  unfold updateFrame, YNAB.with_transactions. simpl. repeat split.
  - now apply set_memo_sameButMemos.
  - intros k t0 Hin Hk. apply set_In_other; [assumption|]. simpl.
    intros E. apply Hk. left. now symmetry.
  - intros k t' Hin. apply set_In in Hin. destruct Hin as [Heq | Hin]; [|now left].
    injection Heq as -> ->. right. exists m, order. simpl. auto.
Qed.

Lemma updateFrame_trans ms1 ms2 a b c :
  updateFrame ms1 a b -> updateFrame ms2 b c -> updateFrame (ms1 ++ ms2) a c.
Proof.
  unfold updateFrame.
  intros [B1 [K1 [S1 [U1 C1]]]] [B2 [K2 [S2 [U2 C2]]]].
  split; [congruence|]. split; [congruence|].
  split; [eapply sameButMemos_trans; eassumption|]. split.
  - intros k t Hin Hk. rewrite map_app, in_app_iff in Hk. apply U2; [apply U1|]; tauto.
  - intros k t' Hin. destruct (C2 _ _ Hin) as [Hb | [m [o [Hm H]]]].
    + destruct (C1 _ _ Hb) as [Ha | [m [o [Hm H]]]]; [now left|].
      right. exists m, o. rewrite in_app_iff. tauto.
    + right. exists m, o. rewrite in_app_iff. tauto.
Qed.

Lemma mapMatches_frame matches this :
  updateFrame matches this (snd (mapMatches matches this)).
Proof.
  revert this. induction matches as [|m rest IH]; intros this; simpl.
  - apply updateFrame_refl.
  - pose proof (memoTransaction_frame m this) as Hm.
    destruct (memoTransaction m this) as [[u | e] this1]; simpl in *.
    + specialize (IH this1).
      destruct (mapMatches rest this1) as [[us | e] this2]; simpl in *;
        apply (updateFrame_trans [m] rest _ _ _ Hm IH).
    + apply (updateFrame_trans [m] rest _ this1 _ Hm). apply updateFrame_refl.
Qed.

Lemma updateTransactions_frame send matches this :
  updateFrame matches this (snd (updateTransactions send matches this)).
Proof.
  unfold updateTransactions.
  destruct (List.length matches =? 0)%nat; [apply updateFrame_refl|].
  destruct (YNAB.budget this); [|apply updateFrame_refl].
  pose proof (mapMatches_frame matches this) as H.
  destruct (mapMatches matches this) as [[request | e] this']; exact H.
Qed.

Lemma sameButMemos_keys old new :
  sameButMemos old new -> map fst new = map fst old.
Proof.
  induction 1 as [|p q old new [E _] _ IH]; simpl; [reflexivity|]. now rewrite E, IH.
Qed.

Lemma matchTransactions_state dollarTolerance dateTolerance Date_parse orders this :
  snd (matchTransactions dollarTolerance dateTolerance Date_parse orders this) = this.
Proof. now rewrite matchTransactions_accepted. Qed.

(** A step of the instance either leaves the cache as it is, or is a
    run of [fetchTransactions], or assigns memos. *)
Lemma step_cases dollarTolerance dateTolerance Date_parse this this' :
  step dollarTolerance dateTolerance Date_parse this this' ->
  YNAB.transactions this' = YNAB.transactions this \/
  (exists reply, this' = snd (fetchTransactions reply this)) \/
  (exists matches, updateFrame matches this this').
Proof.
  intros [found s | reply s | orders s | send matches s | send orders s].
  - left. unfold init. now destruct found.
  - right. left. now exists reply.
  - left. now rewrite matchTransactions_state.
  - right. right. exists matches. apply updateTransactions_frame.
  - unfold matchAndUpdate. rewrite matchTransactions_accepted.
    destruct (0 <? List.length _)%nat; [|now left].
    right. right. eexists. apply updateTransactions_frame.
Qed.

Lemma fetchTransactions_wf reply this :
  JS.wf (YNAB.transactions this) ->
  JS.wf (YNAB.transactions (snd (fetchTransactions reply this))).
Proof.
  unfold fetchTransactions. intros Hwf.
  destruct (YNAB.budget this); [|assumption].
  destruct reply as [data | e]; [|assumption]. simpl.
  generalize (filter fetchFilter (TransactionsResponse.transactions data)).
  intros ts. revert Hwf. generalize (YNAB.transactions this).
  induction ts as [|t ts IH]; simpl; intros cache Hwf; [assumption|].
  apply IH. now apply cacheTransaction_wf.
Qed.

(** The cache of an instance is a well-formed object at all times. *)
Lemma reachable_wf dollarTolerance dateTolerance Date_parse this :
  reachable dollarTolerance dateTolerance Date_parse this ->
  JS.wf (YNAB.transactions this).
Proof.
  induction 1 as [|this this' _ IH Hstep]; [constructor|].
  apply step_cases in Hstep.
  destruct Hstep as [E | [[reply ->] | [matches [_ [_ [Hs _]]]]]].
  - now rewrite E.
  - now apply fetchTransactions_wf.
  - unfold JS.wf. now rewrite (sameButMemos_keys _ _ Hs).
Qed.

Lemma reachable_payee dollarTolerance dateTolerance Date_parse this :
  reachable dollarTolerance dateTolerance Date_parse this ->
  forall k t, In (k, t) (YNAB.transactions this) -> payeeIsAmazon t.
Proof.
  induction 1 as [|this this' _ IH Hstep]; [intros k t []|].
  intros k t Hin. apply step_cases in Hstep.
  destruct Hstep as [E | [[reply ->] | [matches [_ [_ [Hs _]]]]]].
  - rewrite E in Hin. eauto.
  - apply fetchTransactions_In in Hin.
    destruct Hin as [Hin | [data [_ [_ [Hf _]]]]]; [eauto|].
    now apply fetchFilter_true in Hf.
  - destruct (Forall2_In_r _ _ _ _ Hs Hin) as [[k0 t0] [Hin0 [_ Hsame]]].
    simpl in Hsame. destruct (IH _ _ Hin0) as [payee [Hp Hinc]].
    exists payee. split; [|assumption].
    destruct Hsame as [_ [_ [_ [E _]]]]. congruence.
Qed.



(** C10.  A run of [fetchTransactions] leaves in the cache what was there
    and transactions of the reply that passed the filter: payee
    containing [amazon] once in lower case, memo absent or empty.  So
    every transaction of the cache of an instance, at any time, has such
    a payee, and [matchTransactions] only names cached transactions:
    a transaction that fails the filter is not stored and not paired. *)
Theorem cache_holds_filtered_transactions :
  (forall reply this k t,
     In (k, t) (YNAB.transactions (snd (fetchTransactions reply this))) ->
     In (k, t) (YNAB.transactions this) \/
     exists data,
       reply = Return data /\
       In t (TransactionsResponse.transactions data) /\
       k = TransactionDetail.id t /\
       payeeIsAmazon t /\
       (TransactionDetail.memo t = None \/ TransactionDetail.memo t = Some EmptyString)) /\
  (forall dollarTolerance dateTolerance Date_parse this,
     reachable dollarTolerance dateTolerance Date_parse this ->
     (forall k t, In (k, t) (YNAB.transactions this) -> payeeIsAmazon t) /\
     (forall orders finalMatches finalMatch,
        fst (matchTransactions dollarTolerance dateTolerance Date_parse orders this)
        = Return finalMatches ->
        In finalMatch finalMatches ->
        exists t,
          JS.get (YNAB.transactions this) (FinalMatch.transactionId finalMatch) = Some t /\
          payeeIsAmazon t)).
Proof.
  split.
  - intros reply this k t Hin. apply fetchTransactions_In in Hin.
    destruct Hin as [Hin | [data [E [Hin [Hf Hk]]]]]; [now left|].
    right. exists data. apply fetchFilter_true in Hf. tauto.
  - intros dT tT dp this Hreach.
    pose proof (reachable_payee _ _ _ _ Hreach) as Hpayee.
    split; [exact Hpayee|].
    intros orders finalMatches fm Hres Hin.
    rewrite matchTransactions_accepted in Hres. simpl in Hres. injection Hres as <-.
    apply in_map_iff in Hin. destruct Hin as [c [<- Hc]].
    apply acceptedMatches_sound in Hc. destruct Hc as [order [t [_ [Hin _]]]].
    exists t. split; [|eauto]. simpl.
    apply get_of_In; [|assumption]. eapply reachable_wf; eassumption.
Qed.


(** ** Claims on [scanEmail] *)

Lemma totalFromTables_first before table after m :
  (forall t, In t before ->
     JS.includes (Cheerio.textContent t) "Total" = false \/
     matchDollarAmount (Cheerio.textContent t) = None) ->
  JS.includes (Cheerio.textContent table) "Total" = true ->
  matchDollarAmount (Cheerio.textContent table) = Some m ->
  totalFromTables (before ++ table :: after) = parseFloat m.
Proof.
  intros Hbefore Htotal Hmatch. induction before as [|t before IH]; simpl.
  - now rewrite Htotal, Hmatch.
  - assert (IH' := IH (fun t' H => Hbefore t' (or_intror H))).
    destruct (Hbefore t (or_introl eq_refl)) as [-> | H]; [assumption|].
    rewrite H. destruct (JS.includes (Cheerio.textContent t) "Total"); exact IH'.
Qed.

Section ExtractorFacts.

Variable cheerio_load : string -> list node.
Variable setHours0 : number -> number.
Variable toLocaleString_USD Intl_format : number -> string.

Local Abbreviation scanning :=
  (scanEmail cheerio_load setHours0 toLocaleString_USD Intl_format).
Local Abbreviation scanningDocument :=
  (scanDocument setHours0 toLocaleString_USD Intl_format).

(** The [try] block completes with an order or with nothing, or throws
    the [RangeError] of the date formatter; it writes at most the line
    that announces the order. *)
Lemma scanDocument_cases doc attributes_date console :
  (exists order line,
      scanningDocument doc attributes_date console
      = (Return (Some order), console ++ [console_info line])) \/
  scanningDocument doc attributes_date console = (Return None, console) \/
  (is_nan (setHours0 attributes_date) = true /\
   scanningDocument doc attributes_date console
   = (Throw (RangeError "Invalid time value"), console)).
Proof.
  unfold scanDocument.
  destruct (_ =? 0)%float; [now (right; left)|].
  destruct (List.length _ =? 0)%nat; [now (right; left)|].
  unfold bind, dateFormat.
  destruct (is_nan (setHours0 attributes_date)) eqn:Hnan.
  - right. right. split; reflexivity.
  - left. simpl. eexists. eexists. reflexivity.
Qed.

(** [scanEmail] on a message that passes the sender test: the [try]
    block with its [catch]. *)
Lemma scanEmail_amazon email console :
  isAmazonEmail email = true ->
  scanning email console
  = match scanningDocument (cheerio_load (replaceQuoteX 0 (Email.body email)))
            (Email.attributes_date email) console with
    | (Return r, console') => (Return r, console')
    | (Throw e, console') =>
        (Return None,
         console' ++ [console_error_exn e;
                      console_error
                        ("This failed on email with subject: " ++ Email.subject email)%string])
    end.
Proof.
  intros H. unfold scanEmail, try_catch. rewrite H. cbv beta iota delta [negb].
  destruct (scanDocument _ _ _ _ _ _) as [[r | e] console']; [reflexivity|].
  unfold bind, write, ret. simpl. now rewrite <- app_assoc.
Qed.

Lemma scanEmail_other email console :
  isAmazonEmail email = false ->
  scanning email console
  = (Return None,
     console ++ [console_log "Ignoring... not an Amazon order email (subject or body mismatch)"]).
Proof.
  intros H. unfold scanEmail. rewrite H. reflexivity.
Qed.

End ExtractorFacts.

(** C3 (as the code has it).  A message whose sender does not contain
    the address of the order confirmations yields no order, whatever its
    body and whatever the parser would make of it: the one line written
    is the notice that the message is ignored, and neither the body nor
    [cheerio.load] take part in the result. *)
Theorem scanEmail_skips_other_senders :
  forall cheerio_load setHours0 toLocaleString_USD Intl_format email console,
    JS.includes (Email.from email) "auto-confirm@amazon.com" = false ->
    scanEmail cheerio_load setHours0 toLocaleString_USD Intl_format email console
    = (Return None,
       console ++ [console_log "Ignoring... not an Amazon order email (subject or body mismatch)"]).
Proof.
  intros. now apply scanEmail_other.
Qed.

(** A message of the shipment notices is ignored. *)
Lemma scanEmail_skips_other_senders_witness :
  JS.includes (Email.from (Sample.email "ship-confirm@amazon.com"))
    "auto-confirm@amazon.com" = false /\
  scanEmail Sample.cheerio_load42 Sample.setHours0 Sample.toLocaleString_USD
    Sample.Intl_format (Sample.email "ship-confirm@amazon.com") []
  = (Return None,
     [console_log "Ignoring... not an Amazon order email (subject or body mismatch)"]).
Proof.
  split; [reflexivity|].
  apply (scanEmail_skips_other_senders Sample.cheerio_load42 Sample.setHours0
           Sample.toLocaleString_USD Sample.Intl_format
           (Sample.email "ship-confirm@amazon.com") []).
  reflexivity.
Defined.

(** C3 (the claim as stated fails).  The sender test is containment, not
    equality: a sender that carries a display name before the address is
    not the address itself, and its message is read and yields an
    order. *)
Lemma scanEmail_reads_sender_with_display_name :
  Email.from (Sample.email "Amazon.com <auto-confirm@amazon.com>")
  <> "auto-confirm@amazon.com" /\
  fst (scanEmail Sample.cheerio_load42 Sample.setHours0 Sample.toLocaleString_USD
         Sample.Intl_format (Sample.email "Amazon.com <auto-confirm@amazon.com>") [])
  = Return (Some (Order.mk 1704412800000%float (-42100)%float ["Widget A"; "Widget B"])).
Proof.
  split; [discriminate | reflexivity].
Qed.

(** The fixture of C2, as the code has it.  Take a message that passes
    the sender test, whose first table with [Total] and a dollar amount in
    its text gives [42.10], whose links give the items [Widget A] and
    [Widget B], and whose date is valid.  [scanEmail] returns the order
    with these items and the amount [-42100].  The amount is computed in
    binary64: [parseFloat] gives the float nearest to 42.10 and the
    product by 1000 rounds to 42100. *)
Theorem scanEmail_fixture :
  forall cheerio_load setHours0 toLocaleString_USD Intl_format
         email console before table after,
    isAmazonEmail email = true ->
    let doc := cheerio_load (replaceQuoteX 0 (Email.body email)) in
    Cheerio.select doc "table" = before ++ table :: after ->
    (forall t, In t before ->
       JS.includes (Cheerio.textContent t) "Total" = false \/
       matchDollarAmount (Cheerio.textContent t) = None) ->
    JS.includes (Cheerio.textContent table) "Total" = true ->
    matchDollarAmount (Cheerio.textContent table) = Some "42.10" ->
    flat_map itemOfLink (Cheerio.select doc "a") = ["Widget A"; "Widget B"] ->
    is_nan (setHours0 (Email.attributes_date email)) = false ->
    fst (scanEmail cheerio_load setHours0 toLocaleString_USD Intl_format email console)
    = Return (Some (Order.mk (setHours0 (Email.attributes_date email))
                      (-42100)%float ["Widget A"; "Widget B"])) /\
    parseFloat "42.10" = 42.100000000000001%float /\
    (- (parseFloat "42.10" * 1000))%float = (-42100)%float.
Proof.
  intros load tz usd fmt email console before table after Hfrom doc
         Htables Hbefore Htotal Hmatch Hitems Hdate.
  assert (Hparse : parseFloat "42.10" = 42.100000000000001%float) by reflexivity.
  split; [|split; [exact Hparse | reflexivity]].
  rewrite scanEmail_amazon by assumption. fold doc.
  unfold scanDocument. rewrite Htables.
  rewrite (totalFromTables_first before table after "42.10") by assumption.
  rewrite Hparse, Hitems.
  change (42.100000000000001 =? 0)%float with false. cbv iota.
  change (List.length ["Widget A"; "Widget B"] =? 0)%nat with false. cbv iota.
  unfold bind, dateFormat. rewrite Hdate. reflexivity.
Qed.

(** The sample message with a total of $42.10, on a host in UTC. *)
Lemma scanEmail_fixture_witness :
  isAmazonEmail (Sample.email "auto-confirm@amazon.com") = true /\
  fst (scanEmail Sample.cheerio_load42 Sample.setHours0 Sample.toLocaleString_USD
         Sample.Intl_format (Sample.email "auto-confirm@amazon.com") [])
  = Return (Some (Order.mk (Sample.setHours0 Sample.received)
                    (-42100)%float ["Widget A"; "Widget B"])).
Proof.
  split; [reflexivity|].
  refine (proj1 (scanEmail_fixture Sample.cheerio_load42 Sample.setHours0
                   Sample.toLocaleString_USD Sample.Intl_format
                   (Sample.email "auto-confirm@amazon.com") []
                   [Element "table" [("id", "header")]
                      [Element "tr" []
                         [Element "td" [] [Text "Hello, thank you for shopping with us."]]]]
                   (Element "table" [("id", "summary")]
                      [Element "tr" []
                         [Element "td" [] [Text "Order Total:"];
                          Element "td" [] [Text "$42.10"]]])
                   [] eq_refl eq_refl _ eq_refl eq_refl eq_refl eq_refl)).
  intros t [<- | []]. left. reflexivity.
Defined.

(** C2 (the code departs from the claim).  The amount is not kept in
    integer milli-units.  [scanEmail] converts the total to milli-units by
    [-(amount * 1000)] on the binary64 that [parseFloat] returns, and
    never rounds the product: for a total of [$32.05] the float nearest
    to 32.05 times 1000 rounds below 32050, so the order carries the
    amount -32049.999999999996, which is no integer and differs from
    -32050.  Against a transaction of the same day and of amount -32050
    the price difference is then not zero and the pair is no perfect
    match; and against a transaction of amount -32550, which is half a
    dollar away, the tolerance of half a dollar is missed and nothing is
    paired, where the amount -32050 is paired. *)
Theorem scanEmail_amount_is_floating_point :
  map Cheerio.textContent (Cheerio.select (Sample.document "$32.05") "table")
  = ["Hello, thank you for shopping with us."; "Order Total:$32.05"] /\
  matchDollarAmount "Order Total:$32.05" = Some "32.05" /\
  parseFloat "32.05" = 32.049999999999997%float /\
  (- (parseFloat "32.05" * 1000))%float = (-32049.999999999996)%float /\
  exists order,
    fst (scanEmail Sample.cheerio_load32 Sample.setHours0 Sample.toLocaleString_USD
           Sample.Intl_format (Sample.email "auto-confirm@amazon.com") [])
    = Return (Some order) /\
    Order.amount order = (-32049.999999999996)%float /\
    (Order.amount order =? -32050)%float = false /\
    Sample.integerOf (Order.amount order) = None /\
    isPerfect
      (dateDifferenceOf Sample.Date_parse order
         (TransactionDetail.mk "t-3" "2024-01-05" (-32050)%float None (Some "Amazon") false))
      (priceDifferenceOf order
         (TransactionDetail.mk "t-3" "2024-01-05" (-32050)%float None (Some "Amazon") false))
    = false /\
    let ledger :=
      YNAB.mk (Some "budget-1") None
        [("t-4", TransactionDetail.mk "t-4" "2024-01-05" (-32550)%float None
                   (Some "Amazon") false)] in
    let exact := Order.mk (Order.date order) (-32050)%float (Order.items order) in
    fst (matchTransactions Sample.dollarTolerance Sample.dateTolerance Sample.Date_parse
           [order] ledger)
    = Return [] /\
    fst (matchTransactions Sample.dollarTolerance Sample.dateTolerance Sample.Date_parse
           [exact] ledger)
    = Return [FinalMatch.mk "t-4" (Some exact)].
Proof.
  split; [reflexivity|]. split; [reflexivity|].
  split; [reflexivity|]. split; [reflexivity|].
  eexists. split; [reflexivity|]. repeat split; reflexivity.
Qed.

(** C7.  [scanEmail] completes normally on every message, with an order
    or with nothing.  When the [try] block throws, the exception is
    caught: the result is [undefined], as for a skipped message, and the
    console receives the exception and then the line that names the
    subject of the message. *)
Theorem scanEmail_never_throws :
  forall cheerio_load setHours0 toLocaleString_USD Intl_format email console,
    (exists result console',
        scanEmail cheerio_load setHours0 toLocaleString_USD Intl_format email console
        = (Return result, console')) /\
    (forall e console',
        isAmazonEmail email = true ->
        scanDocument setHours0 toLocaleString_USD Intl_format
          (cheerio_load (replaceQuoteX 0 (Email.body email)))
          (Email.attributes_date email) console
        = (Throw e, console') ->
        scanEmail cheerio_load setHours0 toLocaleString_USD Intl_format email console
        = (Return None,
           console' ++ [console_error_exn e;
                        console_error
                          ("This failed on email with subject: " ++ Email.subject email)%string])).
Proof.
  intros load tz usd fmt email console. split.
  - destruct (isAmazonEmail email) eqn:Hfrom.
    + rewrite scanEmail_amazon by assumption.
      destruct (scanDocument _ _ _ _ _ _) as [[r | e] console']; eauto.
    + rewrite scanEmail_other by assumption. eauto.
  - intros e console' Hfrom Hthrow.
    rewrite scanEmail_amazon by assumption. now rewrite Hthrow.
Qed.

(** The [catch] is reached: a message whose date is invalid makes the
    date formatter throw while the line for the order is built. *)
Example scanEmail_invalid_date :
  scanEmail Sample.cheerio_load42 Sample.setHours0 Sample.toLocaleString_USD
    Sample.Intl_format
    (Email.mk "auto-confirm@amazon.com" "Your order" "<html>...</html>" nan) []
  = (Return None,
     [console_error_exn (RangeError "Invalid time value");
      console_error "This failed on email with subject: Your order"]).
Proof. reflexivity. Qed.

(* ===================================================================== *)
(** * Part III. Further properties of the code                            *)
(* ===================================================================== *)

(** ** [matchTransactions]: what the result holds *)

Lemma accepted_nil l : accepted l = [] <-> l = [].
Proof.
  split; [|intros ->; reflexivity].
  destruct l as [|m rest]; [reflexivity|]. simp accepted. discriminate.
Qed.

(** Every candidate of the list meets a candidate the loop takes: one of
    the same transaction or of the same order (itself, when it is
    taken). *)
Lemma accepted_maximal l c :
  In c l ->
  exists a, In a (accepted l) /\
            (Match.transactionId a = Match.transactionId c \/
             Match.orderIndex a = Match.orderIndex c).
Proof.
  funelim (accepted l); simpl; [tauto|].
  intros [<- | Hin].
  - exists m. auto.
  - destruct (compatible m c) eqn:Hc.
    + match goal with
      | IH : forall c, In c (filter _ _) -> _ |- _ =>
          destruct (IH c) as [a [Ha Hconf]]; [apply filter_In; auto|]
      end.
      exists a. auto.
    + exists m. split; [now left|].
      unfold compatible in Hc. apply andb_false_iff in Hc.
      destruct Hc as [Hc | Hc]; apply negb_false_iff in Hc.
      * left. apply String.eqb_eq in Hc. auto.
      * right. apply Nat.eqb_eq in Hc. auto.
Qed.

Lemma sort_nil {A} (cmp : A -> A -> Z) l : sort cmp l = [] <-> l = [].
Proof.
  split; [|intros ->; reflexivity].
  intros H. apply Permutation_nil. rewrite <- H at 1. apply sort_perm.
Qed.

Lemma NoDup_incl_le {A} (l l' : list A) :
  NoDup l -> incl l l' -> List.length l <= List.length l'.
Proof. intros. now apply NoDup_incl_length. Qed.

Section MatchingFacts.

Variable dollarTolerance dateTolerance : number.
Variable Date_parse : string -> number.

Local Abbreviation candidates := (orderLoop dollarTolerance dateTolerance Date_parse).
Local Abbreviation taken := (acceptedMatches dollarTolerance dateTolerance Date_parse).

Lemma acceptedMatches_length_orders orders this :
  List.length (taken orders this) <= List.length orders.
Proof.
  assert (H : List.length (map Match.orderIndex (taken orders this))
              <= List.length (seq 0 (List.length orders))).
  2:{ now rewrite length_map, length_seq in H. }
  apply NoDup_incl_le; [apply accepted_NoDup_orderIndex|].
  intros i Hi. apply in_map_iff in Hi. destruct Hi as [c [<- Hc]].
  apply acceptedMatches_sound in Hc. destruct Hc as [order [t [Hnth _]]].
  apply in_seq. split; [lia|]. simpl. apply nth_error_Some. congruence.
Qed.

Lemma acceptedMatches_length_cache orders this :
  List.length (taken orders this) <= List.length (YNAB.transactions this).
Proof.
  assert (H : List.length (map Match.transactionId (taken orders this))
              <= List.length (map fst (YNAB.transactions this))).
  2:{ now rewrite !length_map in H. }
  apply NoDup_incl_le; [apply accepted_NoDup_transactionId|].
  intros k Hk. apply in_map_iff in Hk. destruct Hk as [c [<- Hc]].
  apply acceptedMatches_sound in Hc. destruct Hc as [order [t [_ [Hin _]]]].
  now apply (in_map fst) in Hin.
Qed.

End MatchingFacts.

(** X1.  Every pair [matchTransactions] returns holds an order of the
    input (never [undefined]) and names a cached transaction without
    memo whose date and amount are within the two tolerances of that
    order. *)
Theorem matchTransactions_pairs_within_tolerance :
  forall dollarTolerance dateTolerance Date_parse orders this finalMatches finalMatch,
    fst (matchTransactions dollarTolerance dateTolerance Date_parse orders this)
    = Return finalMatches ->
    In finalMatch finalMatches ->
    exists i order transaction,
      nth_error orders i = Some order /\
      FinalMatch.order finalMatch = Some order /\
      In (FinalMatch.transactionId finalMatch, transaction) (YNAB.transactions this) /\
      hasMemo transaction = false /\
      (dateDifferenceOf Date_parse order transaction
       <=? dateTolerance * 86400 * 1000)%float = true /\
      (priceDifferenceOf order transaction <=? dollarTolerance * 1000)%float = true.
Proof.
  intros dT tT dp orders this finalMatches fm Hres Hin.
  rewrite matchTransactions_accepted in Hres. simpl in Hres. injection Hres as <-.
  apply in_map_iff in Hin. destruct Hin as [c [<- Hc]].
  apply acceptedMatches_sound in Hc.
  destruct Hc as [order [t [Hnth [Hin [Hm Hw]]]]].
  unfold withinTolerance in Hw. apply andb_true_iff in Hw.
  exists (Match.orderIndex c), order, t. simpl. tauto.
Qed.

(** The first pair of the sample run: the first order with [t-1]. *)
Lemma matchTransactions_pairs_within_tolerance_witness :
  exists i order transaction,
    nth_error [Sample.order1; Sample.order2] i = Some order /\
    Some Sample.order1 = Some order /\
    In ("t-1", transaction) (YNAB.transactions Sample.instance) /\
    hasMemo transaction = false /\
    (dateDifferenceOf Sample.Date_parse order transaction
     <=? Sample.dateTolerance * 86400 * 1000)%float = true /\
    (priceDifferenceOf order transaction <=? Sample.dollarTolerance * 1000)%float = true.
Proof.
  apply (matchTransactions_pairs_within_tolerance
           Sample.dollarTolerance Sample.dateTolerance Sample.Date_parse
           [Sample.order1; Sample.order2] Sample.instance
           [FinalMatch.mk "t-1" (Some Sample.order1);
            FinalMatch.mk "t-2" (Some Sample.order2)]
           (FinalMatch.mk "t-1" (Some Sample.order1))).
  - reflexivity.
  - simpl. auto.
Defined.

(** X2.  The assignment cannot be extended: whenever the scan of an
    order pushes a candidate, the loop takes a candidate of the same
    transaction or of the same order.  No order and transaction that were
    a candidate pair are both left unpaired. *)
Theorem matchTransactions_maximal :
  forall dollarTolerance dateTolerance Date_parse orders this candidate,
    In candidate
       (orderLoop dollarTolerance dateTolerance Date_parse 0 orders (YNAB.transactions this)) ->
    exists a,
      In a (acceptedMatches dollarTolerance dateTolerance Date_parse orders this) /\
      In (finalOf orders a)
         (match fst (matchTransactions dollarTolerance dateTolerance Date_parse orders this) with
          | Return finalMatches => finalMatches
          | Throw _ => []
          end) /\
      (Match.transactionId a = Match.transactionId candidate \/
       Match.orderIndex a = Match.orderIndex candidate).
Proof.
  intros dT tT dp orders this c Hin.
  destruct (accepted_maximal
              (sort compareMatches (orderLoop dT tT dp 0 orders (YNAB.transactions this))) c)
    as [a [Ha Hconf]]; [now apply sort_In|].
  exists a. split; [exact Ha|]. split; [|exact Hconf].
  rewrite matchTransactions_accepted. simpl. now apply in_map.
Qed.

(** On the sample instance [t-1] is a candidate of the second order; it
    goes to the first order, and the second order is paired too. *)
Lemma matchTransactions_maximal_witness :
  exists a,
    In a (acceptedMatches Sample.dollarTolerance Sample.dateTolerance Sample.Date_parse
            [Sample.order1; Sample.order2] Sample.instance) /\
    In (finalOf [Sample.order1; Sample.order2] a)
       [FinalMatch.mk "t-1" (Some Sample.order1);
        FinalMatch.mk "t-2" (Some Sample.order2)] /\
    (Match.transactionId a = "t-1" \/ Match.orderIndex a = 1).
Proof.
  apply (matchTransactions_maximal
           Sample.dollarTolerance Sample.dateTolerance Sample.Date_parse
           [Sample.order1; Sample.order2] Sample.instance
           (Match.mk 86400000%float 100%float 1 "t-1")).
  simpl. auto.
Defined.

(** X3.  [matchTransactions] returns at most one pair per order and at
    most one pair per cached transaction: its result is no longer than
    the list of orders and no longer than the cache. *)
Theorem matchTransactions_length :
  forall dollarTolerance dateTolerance Date_parse orders this,
    exists finalMatches,
      fst (matchTransactions dollarTolerance dateTolerance Date_parse orders this)
      = Return finalMatches /\
      List.length finalMatches <= List.length orders /\
      List.length finalMatches <= List.length (YNAB.transactions this).
Proof.
  intros dT tT dp orders this. rewrite matchTransactions_accepted. simpl.
  eexists. split; [reflexivity|]. rewrite length_map.
  split; [apply acceptedMatches_length_orders | apply acceptedMatches_length_cache].
Qed.

(** X4.  [matchTransactions] returns the empty list exactly when the
    scans push no candidate at all: as soon as one order is within
    tolerance of one transaction its scan reaches, something is
    paired. *)
Theorem matchTransactions_empty_iff :
  forall dollarTolerance dateTolerance Date_parse orders this,
    fst (matchTransactions dollarTolerance dateTolerance Date_parse orders this) = Return []
    <->
    orderLoop dollarTolerance dateTolerance Date_parse 0 orders (YNAB.transactions this) = [].
Proof.
  intros dT tT dp orders this. rewrite matchTransactions_accepted. simpl.
  unfold acceptedMatches. split.
  - intros H. injection H as H. apply map_eq_nil in H.
    apply (proj1 (accepted_nil _)) in H. now apply (proj1 (sort_nil _ _)) in H.
  - intros ->. reflexivity.
Qed.

(** ** [fetchTransactions]: what a run does to one id *)

Lemma get_set_same {V} (o : JS.object V) k v : JS.get (JS.set o k v) k = Some v.
Proof.
  unfold JS.get. induction o as [|[k' v'] o IH]; simpl.
  - now rewrite String.eqb_refl.
  - destruct (String.eqb k' k) eqn:E; simpl; rewrite E; [reflexivity | exact IH].
Qed.

Lemma get_set_other {V} (o : JS.object V) k v k' :
  k' <> k -> JS.get (JS.set o k v) k' = JS.get o k'.
Proof.
  intros Hne. unfold JS.get. induction o as [|[k0 v0] o IH]; simpl.
  - destruct (String.eqb k k') eqn:E; [|reflexivity].
    apply String.eqb_eq in E. congruence.
  - destruct (String.eqb k0 k) eqn:E; simpl.
    + apply String.eqb_eq in E. subst k0.
      destruct (String.eqb k k') eqn:E'; [|reflexivity].
      apply String.eqb_eq in E'. congruence.
    + destruct (String.eqb k0 k'); [reflexivity | exact IH].
Qed.

Lemma get_delete_same {V} (o : JS.object V) k : JS.get (JS.delete o k) k = None.
Proof.
  unfold JS.get, JS.delete. induction o as [|[k' v'] o IH]; simpl; [reflexivity|].
  destruct (String.eqb k' k) eqn:E; simpl; [exact IH|]. now rewrite E.
Qed.

Lemma get_delete_other {V} (o : JS.object V) k k' :
  k' <> k -> JS.get (JS.delete o k) k' = JS.get o k'.
Proof.
  intros Hne. unfold JS.get, JS.delete.
  induction o as [|[k0 v0] o IH]; simpl; [reflexivity|].
  destruct (String.eqb k0 k) eqn:E; simpl.
  - apply String.eqb_eq in E. subst k0.
    destruct (String.eqb k k') eqn:E'; [|exact IH].
    apply String.eqb_eq in E'. congruence.
  - destruct (String.eqb k0 k'); [reflexivity | exact IH].
Qed.

Lemma has_get {V} (o : JS.object V) k :
  JS.has k o = true <-> JS.get o k <> None.
Proof.
  unfold JS.has, JS.get. induction o as [|[k' v'] o IH]; simpl.
  - split; [discriminate | congruence].
  - destruct (String.eqb k' k); simpl; [split; [discriminate | reflexivity] | exact IH].
Qed.

(** What the body of the [forEach] does at the id of its transaction and
    at the other ids. *)
Lemma cacheTransaction_get_same cache t :
  JS.get (cacheTransaction cache t) (TransactionDetail.id t)
  = if TransactionDetail.deleted t && JS.has (TransactionDetail.id t) cache
    then None else Some t.
Proof.
  unfold cacheTransaction.
  destruct (TransactionDetail.deleted t && JS.has (TransactionDetail.id t) cache).
  - apply get_delete_same.
  - apply get_set_same.
Qed.

Lemma cacheTransaction_get_other cache t k :
  k <> TransactionDetail.id t ->
  JS.get (cacheTransaction cache t) k = JS.get cache k.
Proof.
  intros Hne. unfold cacheTransaction.
  destruct (TransactionDetail.deleted t && JS.has (TransactionDetail.id t) cache).
  - now apply get_delete_other.
  - now apply get_set_other.
Qed.

Lemma fold_cacheTransaction_get_other ts cache k :
  (forall t, In t ts -> TransactionDetail.id t <> k) ->
  JS.get (fold_left cacheTransaction ts cache) k = JS.get cache k.
Proof.
  revert cache. induction ts as [|t ts IH]; simpl; intros cache H; [reflexivity|].
  rewrite IH by (intros t' Ht'; apply H; now right).
  apply cacheTransaction_get_other. intros E. now apply (H t (or_introl eq_refl)).
Qed.

(** A run of [fetchTransactions] that goes through, on a reply cut at
    one of its transactions. *)
Lemma fetchTransactions_split budget knowledge cache data pre t post :
  TransactionsResponse.transactions data = pre ++ t :: post ->
  fetchFilter t = true ->
  YNAB.transactions
    (snd (fetchTransactions (Return data) (YNAB.mk (Some budget) knowledge cache)))
  = fold_left cacheTransaction (filter fetchFilter post)
      (cacheTransaction (fold_left cacheTransaction (filter fetchFilter pre) cache) t).
Proof.
  intros Hsplit Hf. simpl. rewrite Hsplit, filter_app. simpl. rewrite Hf.
  now rewrite fold_left_app.
Qed.

Lemma filter_id_other (ts : list TransactionDetail.t) k :
  (forall t, In t ts -> fetchFilter t = true -> TransactionDetail.id t <> k) ->
  forall t, In t (filter fetchFilter ts) -> TransactionDetail.id t <> k.
Proof.
  intros H t Ht. apply filter_In in Ht. destruct Ht. auto.
Qed.

(** X5.  A transaction of the reply that passes the filter and is not
    deleted is in the cache after the run, under its id, unless a later
    transaction of the reply with the same id passes the filter too: the
    last one wins, and what was cached under that id before is
    replaced. *)
Theorem fetchTransactions_stores :
  forall budget knowledge cache data pre t post,
    TransactionsResponse.transactions data = pre ++ t :: post ->
    fetchFilter t = true ->
    TransactionDetail.deleted t = false ->
    (forall t', In t' post -> fetchFilter t' = true ->
                TransactionDetail.id t' <> TransactionDetail.id t) ->
    JS.get
      (YNAB.transactions
         (snd (fetchTransactions (Return data) (YNAB.mk (Some budget) knowledge cache))))
      (TransactionDetail.id t)
    = Some t.
Proof.
  intros budget knowledge cache data pre t post Hsplit Hf Hdel Hpost.
  rewrite (fetchTransactions_split _ _ _ _ _ _ _ Hsplit Hf).
  rewrite fold_cacheTransaction_get_other by now apply filter_id_other.
  rewrite cacheTransaction_get_same, Hdel. reflexivity.
Qed.



(** The first reply stores the second sample transaction under its id. *)
Lemma fetchTransactions_stores_witness :
  JS.get
    (YNAB.transactions
       (snd (fetchTransactions (Return Case.firstReply) (YNAB.mk (Some "budget-1") None []))))
    "t-2"
  = Some Sample.transaction2.
Proof.
  apply (fetchTransactions_stores "budget-1" None [] Case.firstReply
           [Sample.transaction1; Case.groceries; Case.annotated] Sample.transaction2 []).
  - reflexivity.
  - reflexivity.
  - reflexivity.
  - intros t' [].
Defined.


(** ** [updateTransactions] and [matchAndUpdate] *)

Lemma memoTransaction_keeps_keys m this k :
  JS.get (YNAB.transactions (snd (memoTransaction m this))) k <> None <->
  JS.get (YNAB.transactions this) k <> None.
Proof.
  destruct (memoTransaction_state m this) as [-> | [order [t [_ [Hget ->]]]]];
    [tauto|].
  simpl. destruct (string_dec k (FinalMatch.transactionId m)) as [-> | Hne].
  - rewrite get_set_same, Hget. split; discriminate.
  - now rewrite get_set_other.
Qed.

Lemma memoTransaction_ok m this :
  updatable (YNAB.transactions this) m ->
  exists u order t,
    requestFor m u /\
    FinalMatch.order m = Some order /\
    JS.get (YNAB.transactions this) (FinalMatch.transactionId m) = Some t /\
    memoTransaction m this
    = (Return u,
       YNAB.with_transactions this
         (JS.set (YNAB.transactions this) (FinalMatch.transactionId m)
            (TransactionDetail.set_memo t (JS.join ", " (Order.items order))))).
Proof.
  unfold updatable, memoTransaction. intros [Ho Hg].
  destruct (FinalMatch.order m) as [order|] eqn:Eo; [|congruence].
  destruct (JS.get (YNAB.transactions this) (FinalMatch.transactionId m)) as [t|];
    [|congruence].
  exists (SaveTransaction.mk (FinalMatch.transactionId m)
            (JS.join ", " (Order.items order)) false), order, t.
  repeat split. exists order. auto.
Qed.

Lemma memoTransaction_bad m this :
  ~ updatable (YNAB.transactions this) m ->
  exists message, memoTransaction m this = (Throw (TypeError message), this).
Proof.
  unfold updatable, memoTransaction. intros H.
  destruct (FinalMatch.order m) as [order|]; [|eexists; reflexivity].
  destruct (JS.get (YNAB.transactions this) (FinalMatch.transactionId m)) as [t|];
    [|eexists; reflexivity].
  exfalso. apply H. split; discriminate.
Qed.

Lemma updatable_dec cache m : updatable cache m \/ ~ updatable cache m.
Proof.
  unfold updatable.
  destruct (FinalMatch.order m); destruct (JS.get cache (FinalMatch.transactionId m));
    (left; split; discriminate) || (right; intros [? ?]; congruence).
Qed.

(** The [map] goes through when every pair can be handled, and builds
    one element per pair, in order. *)
Lemma mapMatches_ok matches this :
  (forall m, In m matches -> updatable (YNAB.transactions this) m) ->
  exists request,
    fst (mapMatches matches this) = Return request /\
    Forall2 requestFor matches request.
Proof.
  revert this. induction matches as [|m rest IH]; intros this Hall; simpl.
  - exists []. split; [reflexivity | constructor].
  - destruct (memoTransaction_ok m this) as [u [order [t [Hu [_ [_ Heq]]]]]];
      [apply Hall; now left|].
    pose proof (memoTransaction_keeps_keys m this) as Hkeys.
    rewrite Heq in *. simpl in Hkeys.
    match goal with
    | |- context [mapMatches rest ?s] =>
        destruct (IH s) as [request [Hr HF]]
    end.
    { intros m' Hm'. destruct (Hall m' (or_intror Hm')) as [Ho Hg].
      split; [exact Ho|]. now apply Hkeys. }
    match goal with
    | |- context [mapMatches rest ?s] => destruct (mapMatches rest s) as [[us | e] s']
    end; simpl in Hr; [|discriminate].
    injection Hr as ->. exists (u :: request). split; [reflexivity|].
    now constructor.
Qed.

(** The [map] throws a [TypeError] as soon as one pair cannot be
    handled. *)
Lemma mapMatches_bad matches this :
  (exists m, In m matches /\ ~ updatable (YNAB.transactions this) m) ->
  exists message, fst (mapMatches matches this) = Throw (TypeError message).
Proof.
  revert this. induction matches as [|m rest IH]; intros this [m0 [Hin Hbad]]; simpl.
  - destruct Hin.
  - destruct (updatable_dec (YNAB.transactions this) m) as [Hok | Hno].
    + destruct (memoTransaction_ok m this) as [u [order [t [_ [_ [_ Heq]]]]]];
        [exact Hok|].
      pose proof (memoTransaction_keeps_keys m this) as Hkeys.
      rewrite Heq in *. simpl in Hkeys.
      destruct Hin as [-> | Hin]; [contradiction|].
      match goal with
      | |- context [mapMatches rest ?s] => destruct (IH s) as [message Hm]
      end.
      { exists m0. split; [exact Hin|]. intros [Ho Hg]. apply Hbad.
        split; [exact Ho|]. now apply Hkeys. }
      match goal with
      | |- context [mapMatches rest ?s] => destruct (mapMatches rest s) as [[us | e] s']
      end; simpl in Hm; [discriminate|].
      exists message. simpl. exact Hm.
    + destruct (memoTransaction_bad m this Hno) as [message ->].
      exists message. reflexivity.
Qed.

Lemma mapMatches_get_other matches this k :
  ~ In k (map FinalMatch.transactionId matches) ->
  JS.get (YNAB.transactions (snd (mapMatches matches this))) k
  = JS.get (YNAB.transactions this) k.
Proof.
  revert this. induction matches as [|m rest IH]; intros this Hk; simpl; [reflexivity|].
  simpl in Hk.
  assert (Hm : JS.get (YNAB.transactions (snd (memoTransaction m this))) k
               = JS.get (YNAB.transactions this) k).
  { destruct (memoTransaction_state m this) as [-> | [order [t [_ [_ ->]]]]];
      [reflexivity|].
    simpl. apply get_set_other. intros E. apply Hk. left. now symmetry. }
  specialize (IH (snd (memoTransaction m this))).
  destruct (memoTransaction m this) as [[u | e] this1]; simpl in *; [|exact Hm].
  rewrite <- Hm, <- IH by tauto.
  now destruct (mapMatches rest this1) as [[us | e] this2].
Qed.

(** After a [map] over pairs of distinct transactions that can all be
    handled, the transaction of each pair carries the joined items of its
    order and is otherwise as it was. *)
Lemma mapMatches_get_memo matches this m :
  NoDup (map FinalMatch.transactionId matches) ->
  (forall m', In m' matches -> updatable (YNAB.transactions this) m') ->
  In m matches ->
  exists order t,
    FinalMatch.order m = Some order /\
    JS.get (YNAB.transactions this) (FinalMatch.transactionId m) = Some t /\
    JS.get (YNAB.transactions (snd (mapMatches matches this))) (FinalMatch.transactionId m)
    = Some (TransactionDetail.set_memo t (JS.join ", " (Order.items order))).
Proof.
  revert this. induction matches as [|m0 rest IH]; intros this Hnd Hall Hin; [destruct Hin|].
  simpl in Hnd. inversion Hnd as [|? ? Hnotin Hnd']; subst.
  destruct (memoTransaction_ok m0 this) as [u [order0 [t0 [_ [Ho0 [Hg0 Heq]]]]]];
    [apply Hall; now left|].
  pose proof (memoTransaction_keeps_keys m0 this) as Hkeys.
  pose proof (mapMatches_get_other rest (snd (memoTransaction m0 this))) as Hother.
  specialize (IH (snd (memoTransaction m0 this)) Hnd').
  simpl. rewrite Heq in *. simpl in *.
  match goal with
  | |- context [mapMatches rest ?s] => set (this1 := s) in *
  end.
  assert (Hsnd : snd (match mapMatches rest this1 with
                      | (Return us, this'') => (Return (u :: us), this'')
                      | (Throw e, this'') => (Throw e, this'')
                      end) = snd (mapMatches rest this1)).
  { now destruct (mapMatches rest this1) as [[us | e] this2]. }
  rewrite Hsnd. destruct Hin as [<- | Hin].
  - exists order0, t0. repeat split; trivial.
    rewrite Hother by assumption. subst this1. simpl. apply get_set_same.
  - destruct IH as [order [t [Ho [Hg Hfinal]]]]; trivial.
    { intros m' Hm'. destruct (Hall m' (or_intror Hm')) as [Ho' Hg'].
      split; [exact Ho'|]. now apply Hkeys. }
    exists order, t. repeat split; trivial.
    rewrite <- Hg. subst this1. simpl. symmetry. apply get_set_other.
    intros E. apply Hnotin. rewrite <- E. now apply in_map.
Qed.

Lemma In_get {V} (o : JS.object V) k v : In (k, v) o -> JS.get o k <> None.
Proof.
  intros Hin. apply has_get. apply has_true_iff. now apply (in_map fst) in Hin.
Qed.

Lemma mapMatches_snd_cons m rest this :
  snd (mapMatches (m :: rest) this)
  = match memoTransaction m this with
    | (Return _, this1) => snd (mapMatches rest this1)
    | (Throw _, this1) => this1
    end.
Proof.
  simpl. destruct (memoTransaction m this) as [[u | e] this1]; [|reflexivity].
  now destruct (mapMatches rest this1) as [[us | e] this2].
Qed.

(** [updateTransactions] on an instance with a budget and pairs that can
    all be handled: the request is built and handed to the ledger. *)
Lemma updateTransactions_ok send matches this budget :
  YNAB.budget this = Some budget ->
  matches <> [] ->
  (forall m, In m matches -> updatable (YNAB.transactions this) m) ->
  exists request,
    Forall2 requestFor matches request /\
    updateTransactions send matches this = (send request, snd (mapMatches matches this)).
Proof.
  intros Hb Hne Hall. unfold updateTransactions.
  destruct matches as [|m rest]; [congruence|].
  change (List.length (m :: rest) =? 0)%nat with false. cbv iota. rewrite Hb.
  destruct (mapMatches_ok (m :: rest) this Hall) as [request [Hr HF]].
  exists request. split; [exact HF|].
  destruct (mapMatches (m :: rest) this) as [[r | e] this']; simpl in Hr;
    [|discriminate].
  now injection Hr as ->.
Qed.

(** X8.  On an instance with a budget, [updateTransactions] applied to
    pairs that all have an order and name cached transactions sends one
    request: one element per pair, in the order of the pairs, with the
    id of the transaction, the items of the order joined by a comma and a
    space, and [approved: false]; its completion is the ledger's answer.
    When the pairs name distinct transactions, each of them is cached
    afterwards with that memo and its other fields as before, and every
    transaction named by no pair is cached as before. *)
Theorem updateTransactions_request :
  forall send matches this budget,
    YNAB.budget this = Some budget ->
    matches <> [] ->
    (forall m, In m matches -> updatable (YNAB.transactions this) m) ->
    exists request,
      Forall2 requestFor matches request /\
      fst (updateTransactions send matches this) = send request /\
      let cache' := YNAB.transactions (snd (updateTransactions send matches this)) in
      (forall k, ~ In k (map FinalMatch.transactionId matches) ->
                 JS.get cache' k = JS.get (YNAB.transactions this) k) /\
      (NoDup (map FinalMatch.transactionId matches) ->
       forall m, In m matches ->
         exists order t,
           FinalMatch.order m = Some order /\
           JS.get (YNAB.transactions this) (FinalMatch.transactionId m) = Some t /\
           JS.get cache' (FinalMatch.transactionId m)
           = Some (TransactionDetail.set_memo t (JS.join ", " (Order.items order)))).
Proof.
  intros send matches this budget Hb Hne Hall.
  destruct (updateTransactions_ok send matches this budget Hb Hne Hall)
    as [request [HF Heq]].
  exists request. rewrite Heq. simpl. repeat split; trivial.
  - intros k Hk. now apply mapMatches_get_other.
  - intros Hnd m Hm. now apply mapMatches_get_memo.
Qed.

(** The pair of the first sample order with [t-1], on the sample
    instance, with a ledger that accepts. *)
Lemma updateTransactions_request_witness :
  exists request,
    Forall2 requestFor [FinalMatch.mk "t-1" (Some Sample.order1)] request /\
    fst (updateTransactions Sample.accept [FinalMatch.mk "t-1" (Some Sample.order1)]
           Sample.instance)
    = Sample.accept request.
Proof.
  destruct (updateTransactions_request Sample.accept
              [FinalMatch.mk "t-1" (Some Sample.order1)] Sample.instance "budget-1")
    as [request [HF [Hsend _]]].
  - reflexivity.
  - discriminate.
  - intros m [<- | []]. split; discriminate.
  - exists request. auto.
Defined.

(** X9.  [updateTransactions] on a non-empty list of pairs throws a
    [TypeError], whatever the ledger would answer, when the instance has
    no budget, or when a pair has no order or names a transaction that is
    not cached: the request is not sent.  For the pairs this is said of
    ids that are no name of a member of [Object.prototype]: under such a
    name [this.transactions[id]] finds the inherited member, and the
    assignment of the memo goes through. *)
Theorem updateTransactions_throws :
  forall matches this,
    matches <> [] ->
    YNAB.budget this = None \/
    ((forall m, In m matches -> inherited (FinalMatch.transactionId m) = false) /\
     exists m, In m matches /\ ~ updatable (YNAB.transactions this) m) ->
    exists message,
      forall send,
        fst (updateTransactions send matches this) = Throw (TypeError message).
Proof.
  intros matches this Hne Hbad. unfold updateTransactions.
  destruct matches as [|m0 rest]; [congruence|].
  change (List.length (m0 :: rest) =? 0)%nat with false. cbv iota.
  destruct (YNAB.budget this) as [b|]; [|eexists; intros; reflexivity].
  destruct Hbad as [Hb | [_ Hbad]]; [discriminate|].
  destruct (mapMatches_bad (m0 :: rest) this Hbad) as [message Hm].
  exists message. intros send.
  destruct (mapMatches (m0 :: rest) this) as [[r | e] this']; simpl in Hm;
    [discriminate|].
  simpl. now injection Hm as ->.
Qed.

(** A pair that names a transaction the sample instance does not hold. *)
Lemma updateTransactions_throws_witness :
  exists message,
    forall send,
      fst (updateTransactions send [FinalMatch.mk "t-0" (Some Sample.order1)]
             Sample.instance)
      = Throw (TypeError message).
Proof.
  apply (updateTransactions_throws [FinalMatch.mk "t-0" (Some Sample.order1)]
           Sample.instance).
  - discriminate.
  - right. split.
    + intros m [<- | []]. reflexivity.
    + exists (FinalMatch.mk "t-0" (Some Sample.order1)).
      split; [now left|]. intros [_ H]. apply H. reflexivity.
Defined.

Section MatchAndUpdateFacts.

Variable dollarTolerance dateTolerance : number.
Variable Date_parse : string -> number.

Local Abbreviation taken := (acceptedMatches dollarTolerance dateTolerance Date_parse).
Local Abbreviation matchAndUpdating :=
  (matchAndUpdate dollarTolerance dateTolerance Date_parse).

(** The pairs [matchTransactions] returns can all be handled by
    [updateTransactions] on the same instance. *)
Lemma finalOf_updatable orders this m :
  In m (map (finalOf orders) (taken orders this)) ->
  updatable (YNAB.transactions this) m.
Proof.
  intros Hin. apply in_map_iff in Hin. destruct Hin as [a [<- Ha]].
  apply acceptedMatches_sound in Ha. destruct Ha as [order [t [Hnth [Hin _]]]].
  split; simpl; [congruence | now apply In_get with t].
Qed.

Lemma matchAndUpdate_unfold send orders this :
  matchAndUpdating send orders this
  = if (0 <? List.length (taken orders this))%nat
    then updateTransactions send (map (finalOf orders) (taken orders this)) this
    else (Return tt, this).
Proof.
  unfold matchAndUpdate. rewrite matchTransactions_accepted. now rewrite length_map.
Qed.

Lemma matchAndUpdate_state send orders this budget :
  YNAB.budget this = Some budget ->
  snd (matchAndUpdating send orders this)
  = snd (mapMatches (map (finalOf orders) (taken orders this)) this).
Proof.
  intros Hb. rewrite matchAndUpdate_unfold.
  destruct (taken orders this) as [|a rest] eqn:E; [reflexivity|].
  change (0 <? List.length (a :: rest))%nat with true. cbv iota.
  destruct (updateTransactions_ok send (map (finalOf orders) (a :: rest)) this budget)
    as [request [_ ->]]; trivial.
  - discriminate.
  - intros m Hm. apply (finalOf_updatable orders this). now rewrite E.
Qed.

End MatchAndUpdateFacts.

(** X10.  On an instance with a budget, [matchAndUpdate] never throws on
    its own account.  When no pair is found it completes without a
    request and leaves the instance as it was.  Otherwise it sends one
    request with an element per pair found, in the order the pairs were
    taken, and completes as the ledger answers; afterwards the
    transaction of each pair is cached with the joined items of its order
    as memo, and the other transactions are cached as before. *)
Theorem matchAndUpdate_behaviour :
  forall dollarTolerance dateTolerance Date_parse send orders this budget,
    YNAB.budget this = Some budget ->
    let taken := acceptedMatches dollarTolerance dateTolerance Date_parse orders this in
    let result := matchAndUpdate dollarTolerance dateTolerance Date_parse send orders this in
    (taken = [] -> result = (Return tt, this)) /\
    (taken <> [] ->
     exists request,
       Forall2 requestFor (map (finalOf orders) taken) request /\
       fst result = send request) /\
    (forall a, In a taken ->
       exists order t,
         nth_error orders (Match.orderIndex a) = Some order /\
         JS.get (YNAB.transactions this) (Match.transactionId a) = Some t /\
         JS.get (YNAB.transactions (snd result)) (Match.transactionId a)
         = Some (TransactionDetail.set_memo t (JS.join ", " (Order.items order)))) /\
    (forall k, ~ In k (map Match.transactionId taken) ->
               JS.get (YNAB.transactions (snd result)) k
               = JS.get (YNAB.transactions this) k).
Proof.
  intros dT tT dp send orders this budget Hb taken result.
  assert (Hstate := matchAndUpdate_state dT tT dp send orders this budget Hb).
  fold taken in Hstate. fold result in Hstate.
  assert (Hall : forall m, In m (map (finalOf orders) taken) ->
                           updatable (YNAB.transactions this) m).
  { intros m Hm. now apply (finalOf_updatable dT tT dp orders this). }
  split; [|split; [|split]].
  - intros E. subst result. rewrite matchAndUpdate_unfold. fold taken. now rewrite E.
  - intros Hne. subst result. rewrite matchAndUpdate_unfold. fold taken.
    destruct taken as [|a rest] eqn:E; [congruence|].
    change (0 <? List.length (a :: rest))%nat with true. cbv iota.
    destruct (updateTransactions_ok send (map (finalOf orders) (a :: rest)) this budget)
      as [request [HF ->]]; trivial; [discriminate|].
    exists request. auto.
  - intros a Ha. rewrite Hstate.
    destruct (mapMatches_get_memo (map (finalOf orders) taken) this (finalOf orders a))
      as [order [t [Ho [Hg Hfinal]]]]; trivial.
    + rewrite finalOf_transactionId. apply accepted_NoDup_transactionId.
    + now apply in_map.
    + exists order, t. simpl in *. auto.
  - intros k Hk. rewrite Hstate. apply mapMatches_get_other.
    now rewrite finalOf_transactionId.
Qed.

(** On the sample instance both orders are paired and the ledger is
    handed a request. *)
Lemma matchAndUpdate_behaviour_witness :
  exists request,
    Forall2 requestFor
      (map (finalOf [Sample.order1; Sample.order2])
         (acceptedMatches Sample.dollarTolerance Sample.dateTolerance Sample.Date_parse
            [Sample.order1; Sample.order2] Sample.instance))
      request /\
    fst (matchAndUpdate Sample.dollarTolerance Sample.dateTolerance Sample.Date_parse
           Sample.accept [Sample.order1; Sample.order2] Sample.instance)
    = Sample.accept request.
Proof.
  destruct (matchAndUpdate_behaviour
              Sample.dollarTolerance Sample.dateTolerance Sample.Date_parse
              Sample.accept [Sample.order1; Sample.order2] Sample.instance "budget-1"
              eq_refl) as [_ [H _]].
  apply H. vm_compute. discriminate.
Defined.

Lemma hasMemo_set_memo t memo :
  hasMemo (TransactionDetail.set_memo t memo) = negb (String.eqb memo EmptyString).
Proof. unfold hasMemo. simpl. now destruct memo. Qed.

Lemma mapMatches_wf matches this :
  JS.wf (YNAB.transactions this) ->
  JS.wf (YNAB.transactions (snd (mapMatches matches this))).
Proof.
  intros Hwf. destruct (mapMatches_frame matches this) as [_ [_ [Hs _]]].
  unfold JS.wf. now rewrite (sameButMemos_keys _ _ Hs).
Qed.

(** X11.  A transaction that [matchAndUpdate] paired with an order whose
    joined items are not empty is never paired again: on the instance as
    the run leaves it, [matchTransactions] names it for no list of
    orders, whatever the tolerances.  (The order itself stays in the list
    and may be paired with another transaction.) *)
Theorem matchAndUpdate_retires_transaction :
  forall dollarTolerance dateTolerance Date_parse send orders this budget a order,
    YNAB.budget this = Some budget ->
    JS.wf (YNAB.transactions this) ->
    In a (acceptedMatches dollarTolerance dateTolerance Date_parse orders this) ->
    nth_error orders (Match.orderIndex a) = Some order ->
    JS.join ", " (Order.items order) <> EmptyString ->
    forall dollarTolerance' dateTolerance' Date_parse' orders' finalMatches,
      fst (matchTransactions dollarTolerance' dateTolerance' Date_parse' orders'
             (snd (matchAndUpdate dollarTolerance dateTolerance Date_parse send orders this)))
      = Return finalMatches ->
      ~ In (Match.transactionId a) (map FinalMatch.transactionId finalMatches).
Proof.
  intros dT tT dp send orders this budget a order Hb Hwf Ha Hnth Hjoin
         dT' tT' dp' orders' finalMatches Hres Hin.
  rewrite (matchAndUpdate_state dT tT dp send orders this budget Hb) in Hres.
  set (this' := snd (mapMatches (map (finalOf orders) (acceptedMatches dT tT dp orders this))
                       this)) in *.
  assert (Hwf' : JS.wf (YNAB.transactions this')) by now apply mapMatches_wf.
  destruct (mapMatches_get_memo
              (map (finalOf orders) (acceptedMatches dT tT dp orders this)) this
              (finalOf orders a)) as [order0 [t [Ho [Hg Hfinal]]]].
  - rewrite finalOf_transactionId. apply accepted_NoDup_transactionId.
  - intros m Hm. now apply (finalOf_updatable dT tT dp orders this).
  - now apply in_map.
  - simpl in Ho, Hfinal. fold this' in Hfinal.
    assert (order0 = order) by congruence. subst order0.
    rewrite matchTransactions_accepted in Hres. simpl in Hres. injection Hres as <-.
    rewrite finalOf_transactionId in Hin. apply in_map_iff in Hin.
    destruct Hin as [c [Hc Hin]].
    apply acceptedMatches_sound in Hin.
    destruct Hin as [_ [t' [_ [Hin' [Hm' _]]]]].
    rewrite Hc in Hin'. apply (get_of_In _ _ _ Hwf') in Hin'.
    rewrite Hfinal in Hin'. injection Hin' as <-.
    rewrite hasMemo_set_memo in Hm'. apply negb_false_iff, String.eqb_eq in Hm'.
    contradiction.
Qed.

(** After the sample run, [t-1] is not paired with the first order
    again. *)
Lemma matchAndUpdate_retires_transaction_witness :
  ~ In "t-1"
      (map FinalMatch.transactionId [FinalMatch.mk "t-2" (Some Sample.order1)]).
Proof.
  apply (matchAndUpdate_retires_transaction
           Sample.dollarTolerance Sample.dateTolerance Sample.Date_parse Sample.accept
           [Sample.order1] Sample.instance "budget-1"
           (Match.mk 0%float 0%float 0 "t-1") Sample.order1
           eq_refl Sample_instance_wf (or_introl eq_refl) eq_refl
           ltac:(discriminate)
           Sample.dollarTolerance Sample.dateTolerance Sample.Date_parse [Sample.order1]).
  reflexivity.
Defined.

(** ** Strings *)

Lemma str_app_nil_r (s : string) : (s ++ "")%string = s.
Proof. induction s as [|c s IH]; simpl; [reflexivity | now rewrite IH]. Qed.

Lemma str_app_assoc (a b c : string) : ((a ++ b) ++ c)%string = (a ++ (b ++ c))%string.
Proof. induction a as [|x a IH]; simpl; [reflexivity | now rewrite IH]. Qed.

Lemma str_length_app (a b : string) :
  String.length (a ++ b) = String.length a + String.length b.
Proof. induction a as [|x a IH]; simpl; [reflexivity | now rewrite IH]. Qed.

Lemma str_app_not_empty_r (a b : string) : b <> EmptyString -> (a ++ b)%string <> EmptyString.
Proof. destruct a; simpl; [trivial | discriminate]. Qed.

Lemma substring_0_length (s : string) : String.substring 0 (String.length s) s = s.
Proof. induction s as [|c s IH]; simpl; [reflexivity | now rewrite IH]. Qed.

Lemma substring_app_skip (a b : string) m :
  String.substring (String.length a) m (a ++ b) = String.substring 0 m b.
Proof. induction a as [|c a IH]; simpl; [reflexivity | exact IH]. Qed.

Lemma prefix_app (p s : string) : String.prefix p (p ++ s) = true.
Proof.
  induction p as [|c p IH]; simpl; [now destruct s|].
  destruct (ascii_dec c c); [exact IH | congruence].
Qed.

Lemma prefix_split (p s : string) :
  String.prefix p s = true -> exists rest, s = (p ++ rest)%string.
Proof.
  revert s. induction p as [|c p IH]; intros s H.
  - exists s. reflexivity.
  - destruct s as [|d s]; simpl in H; [discriminate|].
    destruct (ascii_dec c d) as [<- | ]; [|discriminate].
    destruct (IH s H) as [rest ->]. now exists rest.
Qed.

Lemma endsWith_app (a p : string) : JS.endsWith (a ++ p) p = true.
Proof.
  unfold JS.endsWith. rewrite str_length_app.
  replace (String.length a + String.length p - String.length p) with (String.length a) by lia.
  rewrite substring_app_skip, substring_0_length, String.eqb_refl.
  rewrite andb_true_r. apply Nat.leb_le. lia.
Qed.

Lemma includes_cons c s p :
  JS.includes (String c s) p = String.prefix p (String c s) || JS.includes s p.
Proof. reflexivity. Qed.

Lemma includes_app (a p b : string) : JS.includes (a ++ p ++ b) p = true.
Proof.
  induction a as [|c a IH].
  - simpl. destruct (p ++ b)%string eqn:E.
    + destruct p; [reflexivity | discriminate].
    + rewrite includes_cons, <- E, prefix_app. reflexivity.
  - change (String c a ++ p ++ b)%string with (String c (a ++ p ++ b)).
    rewrite includes_cons, IH. apply orb_true_r.
Qed.

Lemma join_not_empty sep x l :
  x <> EmptyString -> JS.join sep (x :: l) <> EmptyString.
Proof.
  intros Hx. unfold JS.join. simpl. destruct l; [exact Hx|].
  destruct x; [congruence | discriminate].
Qed.

(** ** [scanEmail]: what a returned order holds *)

Lemma cleanTitle_not_empty title : title <> EmptyString -> cleanTitle title <> EmptyString.
Proof.
  intros H. unfold cleanTitle. destruct (JS.endsWith title "..."); [|exact H].
  apply str_app_not_empty_r. discriminate.
Qed.

Lemma length_pos_not_empty (s : string) :
  (0 <? String.length s)%nat = true -> s <> EmptyString.
Proof. destruct s; [discriminate | discriminate]. Qed.

Lemma itemOfLink_not_empty link item : In item (itemOfLink link) -> item <> EmptyString.
Proof.
  unfold itemOfLink.
  destruct (_ && (0 <? String.length (JS.trim (Cheerio.textContent link)))%nat && _)
    eqn:Hc; [|intros []].
  destruct (negb _); [|intros []].
  intros [<- | []]. apply cleanTitle_not_empty, length_pos_not_empty.
  apply andb_true_iff in Hc. destruct Hc as [Hc _].
  apply andb_true_iff in Hc. now destruct Hc.
Qed.

Lemma itemOfRow_not_empty row item : In item (itemOfRow row) -> item <> EmptyString.
Proof.
  unfold itemOfRow.
  destruct (String.length _ =? 0)%nat eqn:E; [intros []|].
  intros [<- | []]. intros Hempty. rewrite Hempty in E. discriminate.
Qed.

Lemma flat_map_not_empty {A} (f : A -> list string) l item :
  (forall a x, In x (f a) -> x <> EmptyString) ->
  In item (flat_map f l) -> item <> EmptyString.
Proof.
  intros H Hin. apply in_flat_map in Hin. destruct Hin as [a [_ Hx]]. eauto.
Qed.

Section OrderFacts.

Variable cheerio_load : string -> list node.
Variable setHours0 : number -> number.
Variable toLocaleString_USD Intl_format : number -> string.

(** What the [try] block has established when it returns an order. *)
Lemma scanDocument_order doc attributes_date console order console' :
  scanDocument setHours0 toLocaleString_USD Intl_format doc attributes_date console
  = (Return (Some order), console') ->
  (exists amount,
      (amount =? 0)%float = false /\
      Order.amount order = (- (amount * 1000))%float) /\
  Order.items order <> [] /\
  (forall item, In item (Order.items order) -> item <> EmptyString) /\
  Order.date order = setHours0 attributes_date /\
  is_nan (Order.date order) = false /\
  exists message, console' = console ++ [console_info message].
Proof.
  unfold scanDocument.
  set (amount := if (totalFromTables (Cheerio.select doc "table") =? 0)%float
                 then totalFromCostBreakdown doc (totalFromTables (Cheerio.select doc "table"))
                 else totalFromTables (Cheerio.select doc "table")).
  set (items := if (List.length (flat_map itemOfLink (Cheerio.select doc "a")) =? 0)%nat
                then flat_map itemOfRow (Cheerio.selectInTable doc "itemDetails" "tr")
                else flat_map itemOfLink (Cheerio.select doc "a")).
  destruct (amount =? 0)%float eqn:Ha; [discriminate|].
  destruct (List.length items =? 0)%nat eqn:Hi; [discriminate|].
  unfold bind, dateFormat.
  destruct (is_nan (setHours0 attributes_date)) eqn:Hnan; [discriminate|].
  simpl. intros H. injection H as <- <-. simpl.
  split; [exists amount; auto|].
  split; [intros E; rewrite E in Hi; discriminate|].
  split; [|split; [reflexivity | split; [exact Hnan | eexists; reflexivity]]].
  intros item. subst items.
  destruct (List.length (flat_map itemOfLink (Cheerio.select doc "a")) =? 0)%nat.
  - apply flat_map_not_empty. exact itemOfRow_not_empty.
  - apply flat_map_not_empty. exact itemOfLink_not_empty.
Qed.

End OrderFacts.

(** What [scanEmail] has established when it returns an order. *)
Lemma scanEmail_order_facts
    cheerio_load setHours0 toLocaleString_USD Intl_format email console order console' :
  scanEmail cheerio_load setHours0 toLocaleString_USD Intl_format email console
  = (Return (Some order), console') ->
  JS.includes (Email.from email) "auto-confirm@amazon.com" = true /\
  (exists amount,
      (amount =? 0)%float = false /\
      Order.amount order = (- (amount * 1000))%float) /\
  Order.items order <> [] /\
  (forall item, In item (Order.items order) -> item <> EmptyString) /\
  JS.join ", " (Order.items order) <> EmptyString /\
  Order.date order = setHours0 (Email.attributes_date email) /\
  is_nan (Order.date order) = false /\
  exists message, console' = console ++ [console_info message].
Proof.
  intros H.
  destruct (isAmazonEmail email) eqn:Hfrom.
  2:{ rewrite scanEmail_other in H by assumption. discriminate. }
  split; [exact Hfrom|].
  rewrite scanEmail_amazon in H by assumption.
  destruct (scanDocument setHours0 toLocaleString_USD Intl_format
              (cheerio_load (replaceQuoteX 0 (Email.body email)))
              (Email.attributes_date email) console) as [[r | e] c] eqn:Hdoc;
    [|discriminate].
  injection H as -> ->.
  destruct (scanDocument_order _ _ _ _ _ _ _ _ Hdoc)
    as [Hamount [Hitems [Hitem [Hdate [Hnan Hline]]]]].
  repeat split; trivial.
  destruct (Order.items order) as [|x l]; [congruence|].
  apply join_not_empty. apply Hitem. now left.
Qed.

(** [scanEmail] completes normally, and writes one line or, from the
    [catch], two. *)
Lemma scanEmail_completes
    cheerio_load setHours0 toLocaleString_USD Intl_format email console :
  exists result written,
    scanEmail cheerio_load setHours0 toLocaleString_USD Intl_format email console
    = (Return result, console ++ written) /\
    (result <> None -> isAmazonEmail email = true).
Proof.
  destruct (isAmazonEmail email) eqn:Hfrom.
  - rewrite scanEmail_amazon by assumption.
    destruct (scanDocument_cases setHours0 toLocaleString_USD Intl_format
                (cheerio_load (replaceQuoteX 0 (Email.body email)))
                (Email.attributes_date email) console)
      as [[order [l ->]] | [-> | [_ ->]]].
    + eexists. eexists. split; [reflexivity | trivial].
    + exists None, []. rewrite app_nil_r. split; [reflexivity | trivial].
    + eexists. eexists. split; [reflexivity | trivial].
  - rewrite scanEmail_other by assumption.
    eexists. eexists. split; [reflexivity | congruence].
Qed.

(** X12.  An order returned by [scanEmail] comes from a message whose
    sender contains the address of the order confirmations; it has at
    least one item and no empty item, so its items joined for the memo
    are not empty; its date is the valid date [setHours] returned; its
    amount is the opposite of 1000 times an amount that is not zero; and
    exactly one line, the announcement of the order, was written on the
    console. *)
Theorem scanEmail_order :
  forall cheerio_load setHours0 toLocaleString_USD Intl_format email console order console',
    scanEmail cheerio_load setHours0 toLocaleString_USD Intl_format email console
    = (Return (Some order), console') ->
    JS.includes (Email.from email) "auto-confirm@amazon.com" = true /\
    (exists amount,
        (amount =? 0)%float = false /\
        Order.amount order = (- (amount * 1000))%float) /\
    Order.items order <> [] /\
    (forall item, In item (Order.items order) -> item <> EmptyString) /\
    JS.join ", " (Order.items order) <> EmptyString /\
    Order.date order = setHours0 (Email.attributes_date email) /\
    is_nan (Order.date order) = false /\
    exists message, console' = console ++ [console_info message].
Proof.
  intros load tz usd fmt email console order console' H.
  exact (scanEmail_order_facts load tz usd fmt email console order console' H).
Qed.

(** The order of the sample message. *)
Lemma scanEmail_order_witness :
  Order.items (Order.mk 1704412800000%float (-42100)%float ["Widget A"; "Widget B"]) <> [] /\
  JS.join ", " ["Widget A"; "Widget B"] <> EmptyString.
Proof.
  destruct (scanEmail_order Sample.cheerio_load42 Sample.setHours0
              Sample.toLocaleString_USD Sample.Intl_format
              (Sample.email "auto-confirm@amazon.com") []
              (Order.mk 1704412800000%float (-42100)%float ["Widget A"; "Widget B"])
              [console_info "Found $# order on MM/DD/YYYY of 2 item(s): Widget A, Widget B"]
              eq_refl)
    as [_ [_ [H1 [_ [H2 _]]]]].
  split; assumption.
Defined.

(** ** The amount of the first method *)

Lemma takeDigits_spec s :
  s = (fst (takeDigits s) ++ snd (takeDigits s))%string /\
  allDigits (fst (takeDigits s)) = true /\
  startsWithNoDigit (snd (takeDigits s)) = true.
Proof.
  induction s as [|c s IH]; simpl; [auto|].
  destruct (JS.isDigit c) eqn:Hc.
  - destruct (takeDigits s) as [ds rest]. simpl in *.
    destruct IH as [IH1 [IH2 IH3]]. rewrite Hc, IH2. repeat split; trivial.
    now rewrite <- IH1.
  - simpl. rewrite Hc. auto.
Qed.

Lemma takeDigits_app ds rest :
  allDigits ds = true -> startsWithNoDigit rest = true ->
  takeDigits (ds ++ rest) = (ds, rest).
Proof.
  intros Hds Hrest. induction ds as [|c ds IH]; simpl in *.
  - destruct rest as [|d rest]; [reflexivity|]. simpl in Hrest.
    apply negb_true_iff in Hrest. simpl. now rewrite Hrest.
  - apply andb_true_iff in Hds. destruct Hds as [Hc Hds].
    now rewrite Hc, (IH Hds).
Qed.

Lemma allDigits_app a b : allDigits (a ++ b) = allDigits a && allDigits b.
Proof.
  induction a as [|c a IH]; simpl; [reflexivity|]. now rewrite IH, andb_assoc.
Qed.

Lemma digitsValue_allDigits s acc :
  allDigits s = true -> exists n, JS.digitsValue acc s = Some n.
Proof.
  revert acc. induction s as [|c s IH]; simpl; intros acc H; [eauto|].
  apply andb_true_iff in H. destruct H as [Hc Hs]. rewrite Hc. now apply IH.
Qed.

(** A decimal digit is no white space, no sign, no dot and not the
    first letter of [Infinity]. *)
Lemma digit_is_plain c :
  JS.isDigit c = true ->
  JS.isWhiteSpace c = false /\ Ascii.eqb c "-" = false /\ Ascii.eqb c "+" = false /\
  Ascii.eqb c "." = false /\ Ascii.eqb c "I" = false.
Proof.
  destruct c as [[] [] [] [] [] [] [] []]; intros H;
    try discriminate H; repeat split; reflexivity.
Qed.

Lemma dollarAmountAt_spec s m :
  dollarAmountAt s = Some m ->
  exists ds d1 d2 rest,
    s = (m ++ rest)%string /\
    m = (ds ++ String "." (String d1 (String d2 EmptyString)))%string /\
    ds <> EmptyString /\ allDigits ds = true /\
    JS.isDigit d1 = true /\ JS.isDigit d2 = true.
Proof.
  unfold dollarAmountAt. destruct (takeDigits_spec s) as [Hs [Hds _]].
  destruct (takeDigits s) as [ds rest]. simpl in *.
  destruct ds as [|c ds]; [discriminate|].
  destruct rest as [|dot [|d1 [|d2 rest]]]; try discriminate.
  destruct (Ascii.eqb dot "." && JS.isDigit d1 && JS.isDigit d2) eqn:Hc; [|discriminate].
  intros H. injection H as <-.
  apply andb_true_iff in Hc. destruct Hc as [Hc H2].
  apply andb_true_iff in Hc. destruct Hc as [Hdot H1].
  apply Ascii.eqb_eq in Hdot. subst dot.
  exists (String c ds), d1, d2, rest. repeat split; trivial; [|discriminate].
  rewrite Hs at 1. simpl. f_equal. now rewrite str_app_assoc.
Qed.

Lemma matchDollarAmount_spec text m :
  matchDollarAmount text = Some m ->
  exists before ds d1 d2 after,
    text = (before ++ String "$" (m ++ after))%string /\
    m = (ds ++ String "." (String d1 (String d2 EmptyString)))%string /\
    ds <> EmptyString /\ allDigits ds = true /\
    JS.isDigit d1 = true /\ JS.isDigit d2 = true.
Proof.
  induction text as [|c text IH]; simpl; [discriminate|].
  assert (Hrec : matchDollarAmount text = Some m ->
                 exists before ds d1 d2 after,
                   String c text = (before ++ String "$" (m ++ after))%string /\
                   m = (ds ++ String "." (String d1 (String d2 EmptyString)))%string /\
                   ds <> EmptyString /\ allDigits ds = true /\
                   JS.isDigit d1 = true /\ JS.isDigit d2 = true).
  { intros H. destruct (IH H) as [before [ds [d1 [d2 [after [-> Hm]]]]]].
    exists (String c before), ds, d1, d2, after. split; [reflexivity | exact Hm]. }
  destruct (Ascii.eqb c "$") eqn:Hc; [|exact Hrec].
  apply Ascii.eqb_eq in Hc. subst c.
  destruct (dollarAmountAt text) as [m'|] eqn:Hat; [|exact Hrec].
  intros H. injection H as ->.
  destruct (dollarAmountAt_spec _ _ Hat) as [ds [d1 [d2 [rest [-> Hm]]]]].
  exists EmptyString, ds, d1, d2, rest. split; [reflexivity | exact Hm].
Qed.

(** [parseFloat] reads all of a string of digits, a dot and two digits. *)
Lemma parseFloat_two_decimals ds d1 d2 :
  ds <> EmptyString -> allDigits ds = true ->
  JS.isDigit d1 = true -> JS.isDigit d2 = true ->
  exists n,
    JS.digitsValue 0 (ds ++ String d1 (String d2 EmptyString)) = Some n /\
    parseFloat (ds ++ String "." (String d1 (String d2 EmptyString)))
    = roundDecimal false n (-2).
Proof.
  intros Hne Hds H1 H2.
  assert (Hall : allDigits (ds ++ String d1 (String d2 EmptyString)) = true).
  { rewrite allDigits_app, Hds. simpl. now rewrite H1, H2. }
  destruct (digitsValue_allDigits _ 0%N Hall) as [n Hn].
  exists n. split; [exact Hn|].
  destruct ds as [|c ds]; [congruence|].
  simpl in Hds. apply andb_true_iff in Hds. destruct Hds as [Hc Hds].
  destruct (digit_is_plain c Hc) as [Hws [Hminus [Hplus [_ HI]]]].
  unfold parseFloat.
  change ((String c ds ++ String "." (String d1 (String d2 EmptyString)))%string)
    with (String c (ds ++ String "." (String d1 (String d2 EmptyString)))).
  cbn [JS.trimStart]. rewrite Hws, Hminus, Hplus.
  assert (Hinf : String.prefix "Infinity"
                   (String c (ds ++ String "." (String d1 (String d2 EmptyString)))) = false).
  { change (String.prefix "Infinity"
              (String c (ds ++ String "." (String d1 (String d2 EmptyString)))))
      with (if ascii_dec "I" c
            then String.prefix "nfinity"
                   (ds ++ String "." (String d1 (String d2 EmptyString)))
            else false).
    destruct (ascii_dec "I" c) as [<- | _]; [discriminate HI | reflexivity]. }
  rewrite Hinf.
  change (String c (ds ++ String "." (String d1 (String d2 EmptyString))))
    with ((String c ds ++ String "." (String d1 (String d2 EmptyString)))%string).
  rewrite takeDigits_app; [| simpl; now rewrite Hc, Hds | reflexivity].
  cbn [Ascii.eqb Bool.eqb]. cbv iota.
  assert (Hfrac : takeDigits (String d1 (String d2 EmptyString))
                  = (String d1 (String d2 EmptyString), EmptyString)).
  { apply (takeDigits_app (String d1 (String d2 EmptyString)) EmptyString);
      [simpl; now rewrite H1, H2 | reflexivity]. }
  change (Ascii.eqb "." ".") with true. cbv iota. rewrite Hfrac.
  change ((String c ds ++ String d1 (String d2 EmptyString))%string)
    with (String c (ds ++ String d1 (String d2 EmptyString))) in *.
  cbv iota. rewrite Hn. reflexivity.
Qed.

(** X13.  When the pattern for the total matches, what it captures is
    written in the text right after a dollar sign and is made of one or
    more digits, a dot and two digits; [parseFloat] then reads all of it:
    the amount is the binary64 nearest to the number of cents written,
    divided by 100. *)
Theorem matchDollarAmount_parse :
  forall text m,
    matchDollarAmount text = Some m ->
    exists before ds d1 d2 after cents,
      text = (before ++ String "$" (m ++ after))%string /\
      m = (ds ++ String "." (String d1 (String d2 EmptyString)))%string /\
      ds <> EmptyString /\
      allDigits (ds ++ String d1 (String d2 EmptyString)) = true /\
      JS.digitsValue 0 (ds ++ String d1 (String d2 EmptyString)) = Some cents /\
      parseFloat m = roundDecimal false cents (-2).
Proof.
  intros text m H.
  destruct (matchDollarAmount_spec _ _ H)
    as [before [ds [d1 [d2 [after [Htext [Hm [Hne [Hds [H1 H2]]]]]]]]]].
  destruct (parseFloat_two_decimals ds d1 d2 Hne Hds H1 H2) as [cents [Hn Hparse]].
  exists before, ds, d1, d2, after, cents. rewrite <- Hm in Hparse.
  repeat split; trivial.
  rewrite allDigits_app, Hds. simpl. now rewrite H1, H2.
Qed.

(** The text of the summary table of the sample message. *)
Lemma matchDollarAmount_parse_witness :
  exists before ds d1 d2 after cents,
    "Order Total:$42.10" = (before ++ String "$" ("42.10" ++ after))%string /\
    "42.10" = (ds ++ String "." (String d1 (String d2 EmptyString)))%string /\
    ds <> EmptyString /\
    allDigits (ds ++ String d1 (String d2 EmptyString)) = true /\
    JS.digitsValue 0 (ds ++ String d1 (String d2 EmptyString)) = Some cents /\
    parseFloat "42.10" = roundDecimal false cents (-2).
Proof.
  apply (matchDollarAmount_parse "Order Total:$42.10" "42.10"). reflexivity.
Defined.

(** ** The clean-up of the markup and of the titles *)

Lemma prefix_cons a p c s :
  String.prefix (String a p) (String c s)
  = if ascii_dec a c then String.prefix p s else false.
Proof. reflexivity. Qed.

Lemma prefix_nil s : String.prefix EmptyString s = true.
Proof. now destruct s. Qed.

Lemma replaceQuoteX_length skip s :
  String.length (replaceQuoteX skip s) <= String.length s.
Proof.
  revert skip. induction s as [|c s IH]; intros skip; simpl; [lia|].
  destruct skip as [|k].
  - destruct (Ascii.eqb c dquote && String.prefix "x_" s); simpl;
      [specialize (IH 2) | specialize (IH 0)]; lia.
  - specialize (IH k). lia.
Qed.

Lemma replaceQuoteX_step c s :
  (Ascii.eqb c dquote && String.prefix "x_" s)
  = String.prefix (String dquote "x_") (String c s).
Proof.
  rewrite prefix_cons. destruct (ascii_dec dquote c) as [<- | Hne].
  - reflexivity.
  - destruct (Ascii.eqb c dquote) eqn:E; [|reflexivity].
    apply Ascii.eqb_eq in E. congruence.
Qed.

(** The four equations of the clean-up determine it. *)
Lemma replaceQuoteX_unique (f : string -> string) :
  f EmptyString = EmptyString ->
  (forall c s, String.prefix (String dquote "x_") (String c s) = false ->
               f (String c s) = String c (f s)) ->
  (forall s, f (String dquote ("x_" ++ s)) = String dquote (f s)) ->
  forall s, f s = replaceQuoteX 0 s.
Proof.
  intros Hnil Hkeep Hdrop s.
  assert (H : forall n s, String.length s <= n -> f s = replaceQuoteX 0 s).
  { clear s. induction n as [|n IH]; intros s Hlen.
    - destruct s; [exact Hnil | simpl in Hlen; lia].
    - destruct s as [|c s]; [exact Hnil|].
      destruct (String.prefix (String dquote "x_") (String c s)) eqn:Hp.
      + apply prefix_split in Hp. destruct Hp as [rest Hp].
        change ((String dquote "x_" ++ rest)%string)
          with (String dquote ("x_" ++ rest)) in Hp.
        rewrite Hp, Hdrop. cbn [replaceQuoteX]. rewrite replaceQuoteX_step.
        change (String dquote ("x_" ++ rest)) with ((String dquote "x_") ++ rest)%string.
        rewrite prefix_app.
        change (replaceQuoteX 2 ("x_" ++ rest)) with (replaceQuoteX 0 rest).
        rewrite IH; [reflexivity|].
        injection Hp as _ Hs. rewrite Hs in Hlen. simpl in Hlen. lia.
      + rewrite (Hkeep _ _ Hp). cbn [replaceQuoteX]. rewrite replaceQuoteX_step, Hp.
        rewrite IH; [reflexivity | simpl in Hlen; lia]. }
  now apply (H (String.length s)).
Qed.

(** X14.  The clean-up of the markup goes through the body from left to
    right: where the body goes on with a double quote followed by [x_] it
    keeps the double quote, drops the two characters and goes on after
    them; anywhere else, also at a double quote that is followed by
    something else, it keeps the character and goes on with the next.
    These equations determine the clean-up.  So it leaves alone a body in
    which no double quote is followed by [x_] and every stretch without
    double quote, and the result is never longer than the body. *)
Theorem replaceQuoteX_spec :
  replaceQuoteX 0 EmptyString = EmptyString /\
  (forall c s, String.prefix (String dquote "x_") (String c s) = false ->
               replaceQuoteX 0 (String c s) = String c (replaceQuoteX 0 s)) /\
  (forall s, replaceQuoteX 0 (String dquote ("x_" ++ s))
             = String dquote (replaceQuoteX 0 s)) /\
  (forall f : string -> string,
      f EmptyString = EmptyString ->
      (forall c s, String.prefix (String dquote "x_") (String c s) = false ->
                   f (String c s) = String c (f s)) ->
      (forall s, f (String dquote ("x_" ++ s)) = String dquote (f s)) ->
      forall s, f s = replaceQuoteX 0 s) /\
  (forall s, JS.includes s (String dquote "x_") = false -> replaceQuoteX 0 s = s) /\
  (forall a s, JS.includes a (String dquote EmptyString) = false ->
               replaceQuoteX 0 (a ++ s) = (a ++ replaceQuoteX 0 s)%string) /\
  (forall s, String.length (replaceQuoteX 0 s) <= String.length s).
Proof.
  split; [reflexivity|].
  split; [intros c s Hp; cbn [replaceQuoteX]; now rewrite replaceQuoteX_step, Hp|].
  split.
  { intros s. cbn [replaceQuoteX]. rewrite replaceQuoteX_step.
    change (String dquote ("x_" ++ s)) with ((String dquote "x_") ++ s)%string.
    rewrite prefix_app. reflexivity. }
  split; [exact replaceQuoteX_unique|].
  split; [|split].
  - induction s as [|c s IH]; [reflexivity|].
    rewrite includes_cons. intros H. apply orb_false_iff in H. destruct H as [Hp Hs].
    cbn [replaceQuoteX]. rewrite replaceQuoteX_step, Hp. now rewrite IH.
  - induction a as [|c a IH]; intros s H; [reflexivity|].
    rewrite includes_cons in H. apply orb_false_iff in H. destruct H as [Hp Ha].
    change ((String c a ++ s)%string) with (String c (a ++ s)).
    cbn [replaceQuoteX].
    assert (Hc : Ascii.eqb c dquote = false).
    { rewrite prefix_cons in Hp. destruct (Ascii.eqb c dquote) eqn:E; [|reflexivity].
      apply Ascii.eqb_eq in E. subst c.
      destruct (ascii_dec dquote dquote); [|congruence].
      now rewrite prefix_nil in Hp. }
    rewrite Hc. simpl. now rewrite IH.
  - intros s. apply replaceQuoteX_length.
Qed.

(** A tag with a plain attribute before the marked one: the double
    quotes of the first attribute are kept and the clean-up goes on to
    the second. *)
Example replaceQuoteX_after_plain_quote :
  let q := String dquote EmptyString in
  replaceQuoteX 0 ("<td class=" ++ q ++ "a" ++ q ++ " id=" ++ q ++ "x_b" ++ q ++ ">")
  = ("<td class=" ++ q ++ "a" ++ q ++ " id=" ++ q ++ "b" ++ q ++ ">")%string.
Proof. reflexivity. Qed.

Lemma split_space_not_nil s : JS.split_space s <> [].
Proof.
  destruct s as [|c s]; simpl; [discriminate|].
  destruct (Ascii.eqb c " "); [discriminate|].
  destruct (JS.split_space s); discriminate.
Qed.

(** Splitting at the spaces and joining with a space gives the string
    back. *)
Lemma join_split_space s : JS.join " " (JS.split_space s) = s.
Proof.
  unfold JS.join. induction s as [|c s IH]; [reflexivity|].
  simpl. destruct (Ascii.eqb c " ") eqn:E.
  - apply Ascii.eqb_eq in E. subst c.
    pose proof (split_space_not_nil s) as Hne.
    destruct (JS.split_space s) as [|w ws]; [congruence|].
    simpl in *. now rewrite IH.
  - destruct (JS.split_space s) as [|w ws] eqn:Hs.
    + now destruct (split_space_not_nil s).
    + simpl in *. destruct ws; simpl in *; now rewrite IH.
Qed.

Lemma space_prefix c s : String.prefix " " (String c s) = Ascii.eqb c " ".
Proof.
  rewrite prefix_cons, prefix_nil.
  destruct (ascii_dec " " c) as [<- | Hne]; [reflexivity|].
  symmetry. apply Ascii.eqb_neq. congruence.
Qed.

Lemma split_space_no_space s :
  JS.includes s " " = false -> JS.split_space s = [s].
Proof.
  induction s as [|c s IH]; [reflexivity|].
  rewrite includes_cons, space_prefix. intros H.
  apply orb_false_iff in H. destruct H as [Hc Hs].
  simpl. rewrite Hc, (IH Hs). reflexivity.
Qed.

Lemma split_space_app head tail :
  JS.includes tail " " = false ->
  JS.split_space (head ++ String " " tail) = JS.split_space head ++ [tail].
Proof.
  intros Ht. induction head as [|c head IH]; simpl.
  - now rewrite (split_space_no_space tail Ht).
  - rewrite IH. destruct (Ascii.eqb c " "); [reflexivity|].
    pose proof (split_space_not_nil head) as Hne.
    destruct (JS.split_space head) as [|w ws]; [congruence | reflexivity].
Qed.

Lemma no_space_app a b :
  JS.includes a " " = false -> JS.includes b " " = false ->
  JS.includes (a ++ b) " " = false.
Proof.
  intros Ha Hb. induction a as [|c a IH]; [exact Hb|].
  rewrite includes_cons, space_prefix in Ha.
  apply orb_false_iff in Ha. destruct Ha as [Hc Ha].
  change ((String c a ++ b)%string) with (String c (a ++ b)).
  rewrite includes_cons, space_prefix, Hc. simpl. now apply IH.
Qed.

Lemma substring_0_app (a b : string) : String.substring 0 (String.length a) (a ++ b) = a.
Proof.
  induction a as [|c a IH]; simpl; [now destruct b | now rewrite IH].
Qed.

Lemma slice_0_minus1_app a c :
  JS.slice_0_minus1 (a ++ String c EmptyString) = a.
Proof.
  unfold JS.slice_0_minus1. rewrite str_length_app. simpl.
  replace (String.length a + 1 - 1) with (String.length a) by lia.
  apply substring_0_app.
Qed.

(** The title with its last word cut off. *)
Lemma cleanTitle_cut head tail :
  JS.includes tail " " = false ->
  cleanTitle (head ++ String " " (tail ++ "..."))
  = ((if JS.endsWith head "," then JS.slice_0_minus1 head else head) ++ "..")%string.
Proof.
  intros Ht. unfold cleanTitle.
  assert (He : JS.endsWith (head ++ String " " (tail ++ "...")) "..." = true).
  { replace (head ++ String " " (tail ++ "..."))%string
      with ((head ++ String " " tail) ++ "...")%string
      by (rewrite str_app_assoc; reflexivity).
    apply endsWith_app. }
  rewrite He, split_space_app, removelast_last, join_split_space; [reflexivity|].
  apply no_space_app; [exact Ht | reflexivity].
Qed.

(** X15.  The clean-up of a title leaves alone a title that does not end
    in three dots.  Of a title that ends in three dots it drops the last
    word (what follows the last space) with its space, then one comma if
    the rest ends in a comma, and appends two dots; a title of one word
    becomes the two dots alone. *)
Theorem cleanTitle_spec :
  (forall title, JS.endsWith title "..." = false -> cleanTitle title = title) /\
  (forall head tail,
     JS.includes tail " " = false -> JS.endsWith head "," = false ->
     cleanTitle (head ++ " " ++ tail ++ "...") = (head ++ "..")%string) /\
  (forall head tail,
     JS.includes tail " " = false ->
     cleanTitle (head ++ ", " ++ tail ++ "...") = (head ++ "..")%string) /\
  (forall tail,
     JS.includes tail " " = false -> cleanTitle (tail ++ "...") = "..").
Proof.
  split; [|split; [|split]].
  - intros title H. unfold cleanTitle. now rewrite H.
  - intros head tail Ht Hh.
    change (head ++ " " ++ tail ++ "...")%string
      with (head ++ String " " (tail ++ "..."))%string.
    now rewrite cleanTitle_cut, Hh.
  - intros head tail Ht.
    replace (head ++ ", " ++ tail ++ "...")%string
      with ((head ++ ",") ++ String " " (tail ++ "..."))%string
      by (rewrite str_app_assoc; reflexivity).
    now rewrite cleanTitle_cut, endsWith_app, slice_0_minus1_app.
  - intros tail Ht. unfold cleanTitle. rewrite endsWith_app.
    rewrite split_space_no_space by (apply no_space_app; [exact Ht | reflexivity]).
    reflexivity.
Qed.

(** ** The handlers of the running program *)

Lemma fetchTransactions_budget reply this :
  YNAB.budget (snd (fetchTransactions reply this)) = YNAB.budget this.
Proof.
  unfold fetchTransactions. destruct (YNAB.budget this) eqn:E; [|exact E].
  destruct reply; [reflexivity | exact E].
Qed.

Section ProgramFacts.

Variable dollarTolerance dateTolerance : number.
Variable Date_parse : string -> number.
Variable cheerio_load : string -> list node.
Variable setHours0 : number -> number.
Variable toLocaleString_USD Intl_format : number -> string.

Local Abbreviation scanningAll :=
  (scanEmails cheerio_load setHours0 toLocaleString_USD Intl_format).
Local Abbreviation mail :=
  (onMail dollarTolerance dateTolerance Date_parse
     cheerio_load setHours0 toLocaleString_USD Intl_format).
Local Abbreviation interval := (onInterval dollarTolerance dateTolerance Date_parse).
Local Abbreviation reach := (reachable dollarTolerance dateTolerance Date_parse).

(** The loop over the messages never throws; it appends the orders of
    the messages that yield one, in the order of the messages. *)
Lemma scanEmails_spec emails orders console :
  exists added written,
    scanningAll emails orders console
    = (Return tt, (orders ++ added, console ++ written)) /\
    Forall scanned added /\
    List.length added <= List.length (filter isAmazonEmail emails).
Proof.
  revert orders console. induction emails as [|email rest IH]; intros orders console.
  - exists [], []. simpl. rewrite !app_nil_r. repeat split; [constructor | lia].
  - simpl.
    destruct (scanEmail_completes cheerio_load setHours0 toLocaleString_USD Intl_format
                email console) as [result [written [Heq Hfrom]]].
    pose proof (scanEmail_order_facts cheerio_load setHours0 toLocaleString_USD
                  Intl_format email console) as Hfacts.
    rewrite Heq in *.
    destruct result as [order|].
    + destruct (IH (orders ++ [order]) (console ++ written))
        as [added [written' [-> [Hall Hlen]]]].
      exists (order :: added), (written ++ written').
      rewrite <- !app_assoc. simpl. split; [reflexivity|].
      rewrite Hfrom by discriminate. simpl. split; [|lia].
      constructor; [|exact Hall].
      destruct (Hfacts order (console ++ written) eq_refl)
        as [_ [_ [Hi [Hitem [_ [_ [Hnan _]]]]]]].
      repeat split; assumption.
    + destruct (IH orders (console ++ written)) as [added [written' [-> [Hall Hlen]]]].
      exists added, (written ++ written'). rewrite <- app_assoc.
      split; [reflexivity|]. split; [exact Hall|].
      destruct (isAmazonEmail email); simpl; lia.
Qed.

Lemma matchAndUpdate_frame send orders this :
  exists matches,
    updateFrame matches this
      (snd (matchAndUpdate dollarTolerance dateTolerance Date_parse send orders this)).
Proof.
  rewrite matchAndUpdate_unfold.
  destruct (0 <? List.length _)%nat.
  - eexists. apply updateTransactions_frame.
  - exists []. apply updateFrame_refl.
Qed.

Lemma matchAndUpdate_reachable send orders this :
  reach this ->
  reach (snd (matchAndUpdate dollarTolerance dateTolerance Date_parse send orders this)).
Proof.
  intros H. eapply reachable_step; [exact H|]. apply step_matchAndUpdate.
Qed.

Lemma onMail_ynab n total fetchOrderEmails send world :
  World.ynab (mail n total fetchOrderEmails send world) = World.ynab world \/
  exists orders,
    World.ynab (mail n total fetchOrderEmails send world)
    = snd (matchAndUpdate dollarTolerance dateTolerance Date_parse send orders
             (World.ynab world)).
Proof.
  unfold onMail. destruct (fetchOrderEmails _ _) as [emails | e]; [|now left].
  destruct (scanEmails _ _ _ _ _ _ _) as [[[] | e] [orders console']]; [|now left].
  right. exists orders.
  now destruct (matchAndUpdate _ _ _ _ _ _) as [[[] | e] ynab'].
Qed.

Lemma onMail_orders n total fetchOrderEmails send world :
  exists added,
    World.orders (mail n total fetchOrderEmails send world) = World.orders world ++ added /\
    Forall scanned added /\
    match fetchOrderEmails (total - (n - 1))%Z total with
    | Return emails => List.length added <= List.length (filter isAmazonEmail emails)
    | Throw _ => added = [] /\ World.ynab (mail n total fetchOrderEmails send world)
                               = World.ynab world
    end.
Proof.
  unfold onMail. destruct (fetchOrderEmails _ _) as [emails | e].
  - match goal with
    | |- context [scanEmails _ _ _ _ emails ?o ?c] =>
        destruct (scanEmails_spec emails o c) as [added [written [-> [Hall Hlen]]]]
    end.
    exists added. split; [|split; assumption].
    now destruct (matchAndUpdate _ _ _ _ _ _) as [[[] | e] ynab'].
  - exists []. simpl. rewrite app_nil_r. repeat split. constructor.
Qed.

Lemma onInterval_orders reply send world :
  World.orders (interval reply send world) = World.orders world.
Proof.
  unfold onInterval.
  destruct (fetchTransactions reply (World.ynab world)) as [[[] | e] ynab']; [|reflexivity].
  now destruct (matchAndUpdate _ _ _ _ _ _) as [[[] | e] ynab''].
Qed.

Lemma onInterval_reachable reply send world :
  reach (World.ynab world) -> reach (World.ynab (interval reply send world)).
Proof.
  intros H. unfold onInterval.
  assert (Hf : reach (snd (fetchTransactions reply (World.ynab world)))).
  { eapply reachable_step; [exact H|]. apply step_fetchTransactions. }
  destruct (fetchTransactions reply (World.ynab world)) as [[[] | e] ynab'];
    simpl in Hf; [|exact Hf].
  pose proof (matchAndUpdate_reachable send (World.orders world) ynab' Hf) as Hm.
  now destruct (matchAndUpdate _ _ _ _ _ _) as [[[] | e] ynab''].
Qed.

Lemma onMail_reachable n total fetchOrderEmails send world :
  reach (World.ynab world) ->
  reach (World.ynab (mail n total fetchOrderEmails send world)).
Proof.
  intros H. destruct (onMail_ynab n total fetchOrderEmails send world)
    as [-> | [orders ->]]; [exact H | now apply matchAndUpdate_reachable].
Qed.

Lemma handle_budget world e :
  YNAB.budget
    (World.ynab
       (handle dollarTolerance dateTolerance Date_parse
          cheerio_load setHours0 toLocaleString_USD Intl_format world e))
  = YNAB.budget (World.ynab world).
Proof.
  destruct e as [n total fetch send | reply send]; simpl.
  - destruct (onMail_ynab n total fetch send world) as [-> | [orders ->]]; [reflexivity|].
    now destruct (matchAndUpdate_frame send orders (World.ynab world)) as [ms [Hb _]].
  - unfold onInterval.
    pose proof (fetchTransactions_budget reply (World.ynab world)) as Hf.
    destruct (fetchTransactions reply (World.ynab world)) as [[[] | e] fetched];
      simpl in Hf; [|exact Hf].
    destruct (matchAndUpdate_frame send (World.orders world) fetched) as [ms [Hb _]].
    destruct (matchAndUpdate _ _ _ _ _ _) as [[[] | e] updated]; simpl in *; congruence.
Qed.

End ProgramFacts.

(** X16.  The handler of new mail only appends to the list of orders:
    the orders of before stay, in place, and what is appended are orders
    as [scanEmail] makes them (at least one item, no empty item, a valid
    date), at most one per message of the batch whose sender passes the
    test.  When the messages cannot be read, nothing is appended and the
    instance is left alone.  In every case the instance keeps its budget
    and its sync cursor, and its cache keeps its keys and all fields but
    memos. *)
Theorem onMail_appends :
  forall dollarTolerance dateTolerance Date_parse
         cheerio_load setHours0 toLocaleString_USD Intl_format
         newEmailCount total fetchOrderEmails send world,
    let world' :=
      onMail dollarTolerance dateTolerance Date_parse
        cheerio_load setHours0 toLocaleString_USD Intl_format
        newEmailCount total fetchOrderEmails send world in
    (exists added,
        World.orders world' = World.orders world ++ added /\
        Forall scanned added /\
        match fetchOrderEmails (total - (newEmailCount - 1))%Z total with
        | Return emails => List.length added <= List.length (filter isAmazonEmail emails)
        | Throw _ => added = [] /\ World.ynab world' = World.ynab world
        end) /\
    YNAB.budget (World.ynab world') = YNAB.budget (World.ynab world) /\
    YNAB.transactionsServerKnowledge (World.ynab world')
    = YNAB.transactionsServerKnowledge (World.ynab world) /\
    sameButMemos (YNAB.transactions (World.ynab world))
                 (YNAB.transactions (World.ynab world')).
Proof.
  intros dT tT dp load tz usd fmt n total fetch send world world'.
  split; [apply onMail_orders|].
  subst world'.
  destruct (onMail_ynab dT tT dp load tz usd fmt n total fetch send world)
    as [-> | [orders ->]].
  - repeat split. apply sameButMemos_refl.
  - destruct (matchAndUpdate_frame dT tT dp send orders (World.ynab world))
      as [matches [Hb [Hk [Hs _]]]].
    auto.
Qed.

(** X17.  Whatever mail and timer events the running program handles,
    the list of orders only grows at its end, by orders as [scanEmail]
    makes them, so that it holds only such orders if it did at the start;
    the instance keeps its budget; and the instance goes through states
    of the class only: its cache stays a well-formed object and holds only
    transactions whose payee contains [amazon]. *)
Theorem run_invariants :
  forall dollarTolerance dateTolerance Date_parse
         cheerio_load setHours0 toLocaleString_USD Intl_format events world,
    let world' :=
      run dollarTolerance dateTolerance Date_parse
        cheerio_load setHours0 toLocaleString_USD Intl_format events world in
    (exists added,
        World.orders world' = World.orders world ++ added /\ Forall scanned added) /\
    (Forall scanned (World.orders world) -> Forall scanned (World.orders world')) /\
    YNAB.budget (World.ynab world') = YNAB.budget (World.ynab world) /\
    (reachable dollarTolerance dateTolerance Date_parse (World.ynab world) ->
     reachable dollarTolerance dateTolerance Date_parse (World.ynab world') /\
     JS.wf (YNAB.transactions (World.ynab world')) /\
     forall k t, In (k, t) (YNAB.transactions (World.ynab world')) -> payeeIsAmazon t).
Proof.
  intros dT tT dp load tz usd fmt events world world'.
  subst world'.
  assert (Horders : forall world, exists added,
             World.orders (run dT tT dp load tz usd fmt events world)
             = World.orders world ++ added /\ Forall scanned added).
  { clear world. unfold run.
    induction events as [|e events IH]; intros world; simpl.
    - exists []. rewrite app_nil_r. split; [reflexivity | constructor].
    - destruct (IH (handle dT tT dp load tz usd fmt world e)) as [added [-> Hall]].
      destruct e as [n total fetch send | reply send]; simpl.
      + destruct (onMail_orders dT tT dp load tz usd fmt n total fetch send world)
          as [added0 [-> [Hall0 _]]].
        exists (added0 ++ added). rewrite app_assoc. split; [reflexivity|].
        apply Forall_app. auto.
      + rewrite onInterval_orders. exists added. auto. }
  split; [apply Horders|]. split.
  - intros Hstart. destruct (Horders world) as [added [-> Hall]]. apply Forall_app. auto.
  - split.
    { clear Horders. unfold run. revert world.
      induction events as [|e events IH]; intros world; simpl; [reflexivity|].
      rewrite IH. apply handle_budget. }
    intros Hreach.
    assert (Hreach' : reachable dT tT dp
                        (World.ynab (run dT tT dp load tz usd fmt events world))).
    { clear Horders. unfold run. revert world Hreach.
      induction events as [|e events IH]; intros world Hreach; simpl; [exact Hreach|].
      apply IH. destruct e as [n total fetch send | reply send]; simpl.
      - now apply onMail_reachable.
      - now apply onInterval_reachable. }
    split; [exact Hreach'|]. split.
    + eapply reachable_wf; eassumption.
    + eapply reachable_payee; eassumption.
Qed.

(** ** Perfect matches come first *)

(** Against a zero, a difference is never smaller, and is larger unless
    it is a zero itself. *)
Lemma distance_zero d z :
  distance d -> (z =? 0)%float = true ->
  (d <? z)%float = false /\ (z <? d)%float = negb (d =? 0)%float.
Proof.
  intros [x [t [-> Hle]]] Hz.
  rewrite leb_spec in Hle. rewrite eqb_spec in Hz.
  rewrite !ltb_spec, eqb_spec. rewrite abs_spec in *.
  change (Prim2SF 0) with (S754_zero false) in *.
  destruct (Prim2SF x) as [sx | sx | | sx mx ex];
    destruct (Prim2SF z) as [[] | [] | | [] mz ez];
    try discriminate Hz;
    try (destruct (Prim2SF t) as [| [] | |]; discriminate Hle);
    split; reflexivity.
Qed.

Lemma compareMatches_perfect_left x y :
  perfectMatch x = true -> measured y -> (compareMatches x y <=? 0)%Z = true.
Proof.
  unfold perfectMatch, isPerfect. intros Hx [Hd Hp].
  apply andb_true_iff in Hx. destruct Hx as [Hxd Hxp].
  destruct (distance_zero _ _ Hd Hxd) as [Hd1 _].
  destruct (distance_zero _ _ Hp Hxp) as [Hp1 _].
  unfold compareMatches. rewrite Hd1, Hp1.
  destruct (Match.dateDifference x <? Match.dateDifference y)%float; [reflexivity|].
  destruct (Match.priceDifference x <? Match.priceDifference y)%float; reflexivity.
Qed.

Lemma compareMatches_perfect_right x y :
  measured x -> perfectMatch x = false -> perfectMatch y = true ->
  (compareMatches x y <=? 0)%Z = false.
Proof.
  unfold perfectMatch, isPerfect. intros [Hd Hp] Hx Hy.
  apply andb_true_iff in Hy. destruct Hy as [Hyd Hyp].
  destruct (distance_zero _ _ Hd Hyd) as [Hd1 Hd2].
  destruct (distance_zero _ _ Hp Hyp) as [Hp1 Hp2].
  unfold compareMatches. rewrite Hd1, Hd2, Hp1, Hp2.
  destruct (Match.dateDifference x =? 0)%float; [|reflexivity].
  simpl in Hx. rewrite Hx. reflexivity.
Qed.

Lemma sortInsert_perfect x l :
  perfectMatch x = true -> Forall measured l ->
  sortInsert compareMatches x l = x :: l.
Proof.
  intros Hx Hl. destruct l as [|y l]; [reflexivity|]. simpl.
  inversion Hl; subst. now rewrite compareMatches_perfect_left.
Qed.

Lemma sortInsert_plain x ps ns :
  measured x -> perfectMatch x = false ->
  Forall (fun p => perfectMatch p = true) ps ->
  sortInsert compareMatches x (ps ++ ns) = ps ++ sortInsert compareMatches x ns.
Proof.
  intros Hm Hx Hps. induction Hps as [|p ps Hp Hps IH]; [reflexivity|].
  simpl. rewrite compareMatches_perfect_right by assumption. now rewrite IH.
Qed.

Lemma Forall_sort {A} (P : A -> Prop) cmp l : Forall P l -> Forall P (sort cmp l).
Proof.
  rewrite !Forall_forall. intros H x Hin. apply H. now apply sort_In in Hin.
Qed.

(** The stable sort puts the perfect candidates first, in the order in
    which the loops pushed them. *)
Lemma sort_perfect l :
  Forall measured l ->
  sort compareMatches l
  = filter perfectMatch l
    ++ sort compareMatches (filter (fun m => negb (perfectMatch m)) l).
Proof.
  induction 1 as [|x l Hx Hl IH]; [reflexivity|].
  change (sort compareMatches (x :: l))
    with (sortInsert compareMatches x (sort compareMatches l)).
  simpl filter. destruct (perfectMatch x) eqn:Hp; simpl negb; cbv iota.
  - rewrite sortInsert_perfect by (trivial; now apply Forall_sort).
    now rewrite IH.
  - rewrite IH. rewrite sortInsert_plain; trivial.
    apply Forall_forall. intros p Hin. now apply filter_In in Hin.
Qed.

(** The rounds of the [while] loop on a list that starts with [ps]: each
    element of [ps] is taken, or gives way to an element of [ps]. *)
Lemma accepted_prefix n : forall ps ns c,
  List.length ps <= n -> In c ps ->
  exists a, In a (accepted (ps ++ ns)) /\ In a ps /\
            (Match.transactionId a = Match.transactionId c \/
             Match.orderIndex a = Match.orderIndex c).
Proof.
  induction n as [|n IH]; intros ps ns c Hlen Hin.
  - destruct ps; [destruct Hin | simpl in Hlen; lia].
  - destruct ps as [|m ps]; [destruct Hin|].
    simpl app. rewrite accepted_equation_2, filter_app.
    destruct Hin as [<- | Hin]; [exists m; simpl; auto|].
    destruct (compatible m c) eqn:Hc.
    + destruct (IH (filter (compatible m) ps) (filter (compatible m) ns) c)
        as [a [Ha [Hps Hconf]]].
      * pose proof (filter_length_le (compatible m) ps). simpl in Hlen. lia.
      * apply filter_In. auto.
      * exists a. apply filter_In in Hps. simpl. tauto.
    + exists m. split; [now left|]. split; [now left|].
      unfold compatible in Hc. apply andb_false_iff in Hc.
      destruct Hc as [Hc | Hc]; apply negb_false_iff in Hc.
      * left. apply String.eqb_eq in Hc. auto.
      * right. apply Nat.eqb_eq in Hc. auto.
Qed.

Section PerfectFacts.

Variable dollarTolerance dateTolerance : number.
Variable Date_parse : string -> number.

(** What the loops push are differences. *)
Lemma candidates_measured k orders cache :
  Forall measured (orderLoop dollarTolerance dateTolerance Date_parse k orders cache).
Proof.
  apply Forall_forall. intros c Hin.
  apply candidates_In in Hin. destruct Hin as [order [_ [_ Hs]]].
  apply scan_In in Hs. destruct Hs as [t [_ [_ [Hw ->]]]].
  unfold withinTolerance in Hw. apply andb_true_iff in Hw. destruct Hw as [Hd Hp].
  split; simpl.
  - eexists _, _. split; [reflexivity | exact Hd].
  - eexists _, _. split; [reflexivity | exact Hp].
Qed.

Lemma acceptedMatches_perfect orders this c :
  In c (orderLoop dollarTolerance dateTolerance Date_parse 0 orders (YNAB.transactions this)) ->
  perfectMatch c = true ->
  exists a,
    In a (acceptedMatches dollarTolerance dateTolerance Date_parse orders this) /\
    perfectMatch a = true /\
    (Match.transactionId a = Match.transactionId c \/
     Match.orderIndex a = Match.orderIndex c).
Proof.
  intros Hin Hp. unfold acceptedMatches.
  rewrite sort_perfect by apply candidates_measured.
  edestruct accepted_prefix as [a [Ha [Hps Hconf]]];
    [apply Nat.le_refl | apply filter_In; split; [exact Hin | exact Hp] |].
  exists a. split; [exact Ha|]. split; [|exact Hconf].
  now apply filter_In in Hps.
Qed.

End PerfectFacts.

(** X18.  Perfect matches come first.  The sort puts the candidates whose
    two differences are zero before all others, in the order in which the
    loops pushed them; and a perfect candidate is paired, or its order or
    its transaction is paired by another perfect candidate: a near match
    never takes an order or a transaction from a perfect one. *)
Theorem matchTransactions_perfect_first :
  forall dollarTolerance dateTolerance Date_parse orders this,
    let candidates :=
      orderLoop dollarTolerance dateTolerance Date_parse 0 orders (YNAB.transactions this) in
    sort compareMatches candidates
    = filter perfectMatch candidates
      ++ sort compareMatches (filter (fun m => negb (perfectMatch m)) candidates) /\
    forall candidate,
      In candidate candidates -> perfectMatch candidate = true ->
      exists a,
        In a (acceptedMatches dollarTolerance dateTolerance Date_parse orders this) /\
        perfectMatch a = true /\
        In (finalOf orders a)
           (match fst (matchTransactions dollarTolerance dateTolerance Date_parse
                         orders this) with
            | Return finalMatches => finalMatches
            | Throw _ => []
            end) /\
        (Match.transactionId a = Match.transactionId candidate \/
         Match.orderIndex a = Match.orderIndex candidate).
Proof.
  intros dT tT dp orders this candidates. split.
  - apply sort_perfect, candidates_measured.
  - intros c Hin Hp.
    destruct (acceptedMatches_perfect dT tT dp orders this c Hin Hp)
      as [a [Ha [Hpa Hconf]]].
    exists a. split; [exact Ha|]. split; [exact Hpa|]. split; [|exact Hconf].
    rewrite matchTransactions_accepted. simpl. now apply in_map.
Qed.

(** ** The end of the historical search *)

Lemma fetchTransactionsSince_cases sinceDate reply this :
  fetchTransactionsSince sinceDate reply this = fetchTransactions reply this \/
  exists e, fetchTransactionsSince sinceDate reply this = (Throw e, this).
Proof.
  unfold fetchTransactionsSince. destruct (YNAB.budget this); [|now left].
  destruct (is_nan sinceDate); [right; eauto | now left].
Qed.

Lemma fetchTransactionsSince_valid sinceDate reply this :
  is_nan sinceDate = false ->
  fetchTransactionsSince sinceDate reply this = fetchTransactions reply this.
Proof.
  unfold fetchTransactionsSince. intros ->. now destruct (YNAB.budget this).
Qed.

Lemma Forall2_length_nil {A B} (R : A -> B -> Prop) l :
  Forall2 R l [] -> l = [].
Proof.
  now inversion 1.
Qed.

Section HistoryFacts.

Variable dollarTolerance dateTolerance : number.
Variable Date_parse : string -> number.

Local Abbreviation ending := (historicalSearchEnd dollarTolerance dateTolerance Date_parse).
Local Abbreviation reach := (reachable dollarTolerance dateTolerance Date_parse).

Lemma historicalSearchEnd_orders reply send world :
  World.orders (snd (ending reply send world))
  = sort compareDates (World.orders world).
Proof.
  unfold historicalSearchEnd.
  destruct (World.orders world) as [|o os] eqn:E; [reflexivity|].
  change (0 <? List.length (o :: os))%nat with true. cbv iota zeta.
  destruct (sort compareDates (o :: os)) as [|first rest]; [reflexivity|].
  destruct (fetchTransactionsSince _ _ _) as [[[] | e] fetched]; [|reflexivity].
  rewrite matchTransactions_accepted.
  now destruct (updateTransactions _ _ _).
Qed.

(** The instance after the end of the search: as it was, or after
    [fetchTransactions], or after [fetchTransactions] and
    [updateTransactions]. *)
Lemma historicalSearchEnd_ynab reply send world :
  World.ynab (snd (ending reply send world)) = World.ynab world \/
  World.ynab (snd (ending reply send world))
  = snd (fetchTransactions reply (World.ynab world)) \/
  exists matches,
    World.ynab (snd (ending reply send world))
    = snd (updateTransactions send matches
             (snd (fetchTransactions reply (World.ynab world)))).
Proof.
  unfold historicalSearchEnd.
  destruct (0 <? List.length (World.orders world))%nat; [|now left]. cbv zeta.
  destruct (sort compareDates (World.orders world)) as [|first rest]; [now left|].
  destruct (fetchTransactionsSince_cases (Order.date first) reply (World.ynab world))
    as [-> | [e ->]]; [|now left].
  destruct (fetchTransactions reply (World.ynab world)) as [[[] | e] fetched];
    [|right; now left].
  rewrite matchTransactions_accepted. right. right.
  match goal with
  | |- context [updateTransactions send ?ms fetched] => exists ms
  end.
  simpl. now destruct (updateTransactions _ _ _).
Qed.

Lemma historicalSearchEnd_resolves reply send world budget data :
  Forall scanned (World.orders world) ->
  YNAB.budget (World.ynab world) = Some budget ->
  reply = Return data ->
  fst (ending reply send world) = Return tt \/
  exists request, request <> [] /\ fst (ending reply send world) = send request.
Proof.
  intros Hall Hb ->. unfold historicalSearchEnd.
  destruct (0 <? List.length (World.orders world))%nat eqn:Hlen; [|now left]. cbv zeta.
  pose proof (Forall_sort scanned compareDates _ Hall) as Hsorted.
  destruct (sort compareDates (World.orders world)) as [|first rest] eqn:Es.
  { apply (proj1 (sort_nil _ _)) in Es. now rewrite Es in Hlen. }
  rewrite fetchTransactionsSince_valid
    by (inversion Hsorted as [|? ? [_ [_ Hnan]] _]; exact Hnan).
  pose proof (fetchTransactions_budget (Return data) (World.ynab world)) as Hb'.
  rewrite Hb in Hb'.
  unfold fetchTransactions in *. rewrite Hb in *. simpl in Hb'.
  match goal with
  | |- context [matchTransactions _ _ _ ?o ?y] =>
      rewrite (matchTransactions_accepted dollarTolerance dateTolerance Date_parse o y);
      set (orders := o) in *; set (fetched := y) in *
  end.
  destruct (acceptedMatches dollarTolerance dateTolerance Date_parse orders fetched)
    as [|a taken] eqn:Et.
  - left. reflexivity.
  - right.
    destruct (updateTransactions_ok send
                (map (finalOf orders) (a :: taken)) fetched budget)
      as [request [Hreq ->]].
    + exact Hb'.
    + discriminate.
    + intros m Hm. apply (finalOf_updatable dollarTolerance dateTolerance Date_parse
                            orders fetched). now rewrite Et.
    + exists request. split; [|reflexivity].
      intros ->. apply Forall2_length_nil in Hreq. discriminate.
Qed.

End HistoryFacts.

(** X19.  The end of the historical search keeps the orders that the
    scans pushed, each as often as before, and leaves the budget of the
    instance alone; with no order it asks the ledger nothing and
    resolves; and it takes the instance through states of the class
    only. *)
Theorem historicalSearchEnd_frame :
  forall dollarTolerance dateTolerance Date_parse reply send world,
    let result := historicalSearchEnd dollarTolerance dateTolerance Date_parse
                    reply send world in
    Permutation (World.orders (snd result)) (World.orders world) /\
    (World.orders world = [] ->
     fst result = Return tt /\ World.ynab (snd result) = World.ynab world) /\
    YNAB.budget (World.ynab (snd result)) = YNAB.budget (World.ynab world) /\
    (reachable dollarTolerance dateTolerance Date_parse (World.ynab world) ->
     reachable dollarTolerance dateTolerance Date_parse (World.ynab (snd result))).
Proof.
  intros dT tT dp reply send world result. subst result.
  split; [rewrite historicalSearchEnd_orders; apply sort_perm|].
  split; [intros E; unfold historicalSearchEnd; rewrite E; simpl; auto|].
  destruct (historicalSearchEnd_ynab dT tT dp reply send world)
    as [-> | [-> | [matches ->]]].
  - auto.
  - split; [apply fetchTransactions_budget|].
    intros H. eapply reachable_step; [exact H | apply step_fetchTransactions].
  - split.
    + destruct (updateTransactions_frame send matches
                  (snd (fetchTransactions reply (World.ynab world)))) as [-> _].
      apply fetchTransactions_budget.
    + intros H. eapply reachable_step; [|apply step_updateTransactions].
      eapply reachable_step; [exact H | apply step_fetchTransactions].
Qed.

(** X20.  When every order has a valid date, as the orders made by
    [scanEmail] have, the instance has a budget and the ledger answers
    the request for transactions, the end of the historical search fails
    only if the ledger rejects the update: it resolves, or completes as
    the ledger answers the one request it sends. *)
Theorem historicalSearchEnd_resolves_or_rejected :
  forall dollarTolerance dateTolerance Date_parse reply send world budget data,
    Forall scanned (World.orders world) ->
    YNAB.budget (World.ynab world) = Some budget ->
    reply = Return data ->
    let result := historicalSearchEnd dollarTolerance dateTolerance Date_parse
                    reply send world in
    fst result = Return tt \/
    exists request, request <> [] /\ fst result = send request.
Proof.
  intros dT tT dp reply send world budget data Hall Hb Hr result.
  exact (historicalSearchEnd_resolves dT tT dp reply send world budget data Hall Hb Hr).
Qed.

(** On the sample orders, found in the other order, with a ledger that
    rejects updates. *)
Lemma historicalSearchEnd_resolves_or_rejected_witness :
  let result :=
    historicalSearchEnd Sample.dollarTolerance Sample.dateTolerance Sample.Date_parse
      (Return Case.firstReply) Sample.reject
      (World.mk [Sample.order2; Sample.order1] Sample.fresh []) in
  fst result = Return tt \/
  exists request, request <> [] /\ fst result = Sample.reject request.
Proof.
  apply (historicalSearchEnd_resolves_or_rejected
           Sample.dollarTolerance Sample.dateTolerance Sample.Date_parse
           (Return Case.firstReply) Sample.reject
           (World.mk [Sample.order2; Sample.order1] Sample.fresh [])
           "budget-1" Case.firstReply).
  - repeat constructor; simpl; try discriminate;
      intros item [<- | [<- | []]] || intros item [<- | []]; discriminate.
  - reflexivity.
  - reflexivity.
Defined.

(** The first sample order and the first sample transaction are a
    perfect match. *)
Lemma matchTransactions_perfect_first_witness :
  exists a,
    In a (acceptedMatches Sample.dollarTolerance Sample.dateTolerance Sample.Date_parse
            [Sample.order1; Sample.order2] Sample.instance) /\
    perfectMatch a = true /\
    In (finalOf [Sample.order1; Sample.order2] a)
       [FinalMatch.mk "t-1" (Some Sample.order1);
        FinalMatch.mk "t-2" (Some Sample.order2)] /\
    (Match.transactionId a = "t-1" \/ Match.orderIndex a = 0).
Proof.
  apply (proj2 (matchTransactions_perfect_first
                  Sample.dollarTolerance Sample.dateTolerance Sample.Date_parse
                  [Sample.order1; Sample.order2] Sample.instance)
           (Match.mk 0%float 0%float 0 "t-1")).
  - simpl. auto.
  - reflexivity.
Defined.

(** ** The instance before [init] has found the budget *)

Section BudgetFacts.

Variable dollarTolerance dateTolerance : number.
Variable Date_parse : string -> number.

Local Abbreviation reach := (reachable dollarTolerance dateTolerance Date_parse).
Local Abbreviation stepping := (step dollarTolerance dateTolerance Date_parse).

Lemma orderLoop_empty k orders :
  orderLoop dollarTolerance dateTolerance Date_parse k orders [] = [].
Proof.
  revert k. induction orders as [|o orders IH]; intros k; simpl; [reflexivity|].
  apply IH.
Qed.

(** A call that leaves the instance without budget found it without
    budget. *)
Lemma step_budget_None this this' :
  stepping this this' -> YNAB.budget this' = None -> YNAB.budget this = None.
Proof.
  intros Hstep. destruct Hstep as [found this | reply this | orders this
                                  | send matches this | send orders this].
  - destruct found; simpl; [discriminate | trivial].
  - now rewrite fetchTransactions_budget.
  - now rewrite matchTransactions_accepted.
  - now destruct (updateTransactions_frame send matches this) as [-> _].
  - destruct (matchAndUpdate_frame dollarTolerance dateTolerance Date_parse
                send orders this) as [ms [-> _]].
    trivial.
Qed.

(** A call on the new instance that leaves it without budget leaves it
    new. *)
Lemma step_new this' :
  stepping YNAB.new this' -> YNAB.budget this' = None -> this' = YNAB.new.
Proof.
  intros Hstep. remember YNAB.new as this eqn:E.
  destruct Hstep as [found this | reply this | orders this
                    | send matches this | send orders this]; subst this.
  - destruct found; simpl; [discriminate | trivial].
  - reflexivity.
  - now rewrite matchTransactions_accepted.
  - now destruct matches.
  - intros _. rewrite matchAndUpdate_unfold. unfold acceptedMatches.
    simpl YNAB.transactions. rewrite orderLoop_empty. reflexivity.
Qed.

Lemma reachable_without_budget this :
  reach this -> YNAB.budget this = None -> this = YNAB.new.
Proof.
  induction 1 as [|this this' Hreach IH Hstep]; [reflexivity|].
  intros Hb. pose proof (step_budget_None _ _ Hstep Hb) as Hb0.
  rewrite (IH Hb0) in Hstep. now apply step_new.
Qed.

End BudgetFacts.

(** X21.  Until [init] has found the budget, the instance stays as
    [new YNAB()] made it, whatever methods are called with whatever
    answers of the ledger: nothing is cached and the sync cursor is not
    set; and every call of [fetchTransactions] throws a [TypeError] and
    leaves it so. *)
Theorem nothing_cached_before_init :
  forall dollarTolerance dateTolerance Date_parse this,
    reachable dollarTolerance dateTolerance Date_parse this ->
    YNAB.budget this = None ->
    this = YNAB.new /\
    YNAB.transactions this = [] /\
    YNAB.transactionsServerKnowledge this = None /\
    forall reply,
      fetchTransactions reply this
      = (Throw (TypeError "Cannot read properties of null (reading 'id')"), this).
Proof.
  intros dT tT dp this Hreach Hb.
  rewrite (reachable_without_budget dT tT dp this Hreach Hb).
  repeat split.
Qed.

(** A fetch that the ledger answers and a call of [matchAndUpdate] on the
    new instance. *)
Lemma nothing_cached_before_init_witness :
  let this :=
    snd (matchAndUpdate Sample.dollarTolerance Sample.dateTolerance Sample.Date_parse
           Sample.accept [Sample.order1]
           (snd (fetchTransactions (Return Case.firstReply) YNAB.new))) in
  this = YNAB.new /\
  YNAB.transactions this = [] /\
  YNAB.transactionsServerKnowledge this = None /\
  forall reply,
    fetchTransactions reply this
    = (Throw (TypeError "Cannot read properties of null (reading 'id')"), this).
Proof.
  apply (nothing_cached_before_init
           Sample.dollarTolerance Sample.dateTolerance Sample.Date_parse).
  - eapply reachable_step; [|apply step_matchAndUpdate].
    eapply reachable_step; [apply reachable_new | apply step_fetchTransactions].
  - reflexivity.
Defined.
